(** * The abstract emitter of the compiler's output layer

    A shallow embedding of
    [packages/compiler/src/output/abstract_emitter.ts]: the escaping rule,
    the line-buffering [EmitterVisitorContext], the position-map assembly
    of [toSourceMapGenerator] and the generic rendering of
    [AbstractEmitterVisitor], followed by the properties the specification
    states about them.

    Conventions of the embedding.
    - JavaScript strings are [string]s of 8-bit characters; [s.length] is
      [String.length s] seen in [Z].
    - JavaScript numbers that count or index are [Z] (the indent counter,
      columns) or [nat] (array indices).
    - A call that can raise returns a [result]; code that threads the
      mutable context is written in the [Emit] monad (state = the context,
      failure = the exception raised). *)

From Stdlib Require Import String Ascii List ZArith Lia Bool DecimalString Sorted.
From Equations Require Import Equations.
Import ListNotations.
Local Open Scope string_scope.
Local Open Scope list_scope.

Set Implicit Arguments.

(* ===================================================================== *)
(** * Exceptions and results *)
(* ===================================================================== *)

(** What a JavaScript [throw] carries here: an [Error] built by the
    emitter with its message, or the [TypeError] the runtime raises when a
    property of [undefined] or [null] is read. *)
Inductive exn : Type :=
| Error (message : string)
| TypeError.

Inductive result (A : Type) : Type :=
| Ok (a : A)
| Throw (e : exn).
Arguments Ok {A} a.
Arguments Throw {A} e.

Definition isOk {A} (r : result A) : bool :=
  match r with Ok _ => true | Throw _ => false end.

(** Template-literal rendering [`${n}`] of an integer of few digits (below
    ten to the power 21 in absolute value), as the tags of the
    enumerations are. *)
Definition showZ (n : Z) : string := NilZero.string_of_int (Z.to_int n).

Definition strlen (s : string) : Z := Z.of_nat (String.length s).

(** [parts.join('')] *)
Definition join_empty (l : list string) : string := String.concat "" l.

Definition LF : ascii := ascii_of_nat 10.
Definition CR : ascii := ascii_of_nat 13.

(* ===================================================================== *)
(** * Escaping (lines 14-15 and 450-468) *)
(* ===================================================================== *)

(** [_SINGLE_QUOTE_ESCAPE_STRING_RE = /'|\\|\n|\r|\$/g]: every alternative
    is one character, so a match is a single character of this class. *)
Definition _SINGLE_QUOTE_ESCAPE_STRING_RE (c : ascii) : bool :=
  Ascii.eqb c "'" || Ascii.eqb c "\" || Ascii.eqb c LF || Ascii.eqb c CR
  || Ascii.eqb c "$".

(** [String.prototype.replace] with a global single-character pattern and
    a callback: the input is scanned left to right and every match is
    replaced by what the callback returns for it. *)
Fixpoint replace (re : ascii -> bool) (callback : ascii -> string)
    (input : string) : string :=
  match input with
  | EmptyString => EmptyString
  | String c rest =>
      (if re c then callback c else String c EmptyString)
        ++ replace re callback rest
  end.

Definition isDigit (c : ascii) : bool :=
  (48 <=? nat_of_ascii c)%nat && (nat_of_ascii c <=? 57)%nat.

(** [[A-Z]] under the [i] flag: both cases of the ASCII letters. *)
Definition isLetter (c : ascii) : bool :=
  ((65 <=? nat_of_ascii c)%nat && (nat_of_ascii c <=? 90)%nat)
  || ((97 <=? nat_of_ascii c)%nat && (nat_of_ascii c <=? 122)%nat).

(** The class [[$A-Z_]] of the first character. *)
Definition identStart (c : ascii) : bool :=
  Ascii.eqb c "$" || isLetter c || Ascii.eqb c "_".

(** The class [[0-9A-Z_$]] of the following characters. *)
Definition identPart (c : ascii) : bool :=
  isDigit c || isLetter c || Ascii.eqb c "_" || Ascii.eqb c "$".

Fixpoint allChars (p : ascii -> bool) (s : string) : bool :=
  match s with
  | EmptyString => true
  | String c rest => p c && allChars p rest
  end.

(** [_LEGAL_IDENTIFIER_RE.test(s)] for
    [_LEGAL_IDENTIFIER_RE = /^[$A-Z_][0-9A-Z_$]*$/i]. *)
Definition _LEGAL_IDENTIFIER_RE (s : string) : bool :=
  match s with
  | EmptyString => false
  | String c rest => identStart c && allChars identPart rest
  end.

(** The callback of line 455. *)
Definition escapeMatch (escapeDollar : bool) (m : ascii) : string :=
  if Ascii.eqb m "$" then (if escapeDollar then "\$" else "$")
  else if Ascii.eqb m LF then "\n"
  else if Ascii.eqb m CR then "\r"
  else String "\" (String m EmptyString).

Definition escapeBody (input : string) (escapeDollar : bool) : string :=
  replace _SINGLE_QUOTE_ESCAPE_STRING_RE (escapeMatch escapeDollar) input.

(** [escapeIdentifier(input, escapeDollar, alwaysQuote = true)] on a
    non-null input. *)
Definition escapeIdentifier (input : string) (escapeDollar : bool)
    (alwaysQuote : bool) : string :=
  let body := escapeBody input escapeDollar in
  let requiresQuotes := alwaysQuote || negb (_LEGAL_IDENTIFIER_RE body) in
  if requiresQuotes then "'" ++ body ++ "'" else body.

(** [_createIndent(count)]: [count] copies of [_INDENT_WITH], none when
    [count] is not positive. *)
Definition _INDENT_WITH : string := "  ".

Fixpoint repeatString (s : string) (n : nat) : string :=
  match n with
  | O => EmptyString
  | S k => repeatString s k ++ s
  end.

Definition _createIndent (count : Z) : string :=
  repeatString _INDENT_WITH (Z.to_nat count).

(* ===================================================================== *)
(** * Source spans *)
(* ===================================================================== *)

(** Modelled from the spec: [parse_util.ts] is not part of the source
    tree.  A span references an original file, line and column; only the
    fields [toSourceMapGenerator] reads are kept.  Spans are objects:
    [spanRef] is the identity of the object, which is what [===] compares,
    so two spans with equal contents need not be the same span. *)
Record ParseSourceFile : Type := {
  content : string;
  url : string
}.

Record ParseLocation : Type := {
  file : ParseSourceFile;
  line : Z;
  col : Z
}.

Record ParseSourceSpan : Type := {
  spanRef : positive;
  start : ParseLocation
}.

(** [a === b] on span objects. *)
Definition sameSpan (a b : ParseSourceSpan) : bool :=
  Pos.eqb (spanRef a) (spanRef b).

(* ===================================================================== *)
(** * The emitter context (lines 24-90 and 134-139) *)
(* ===================================================================== *)

Record _EmittedLine : Type := {
  parts : list string;
  srcSpans : list (option ParseSourceSpan);
  indent : Z
}.

(** [new _EmittedLine(indent)] *)
Definition new_EmittedLine (indent : Z) : _EmittedLine :=
  {| parts := []; srcSpans := []; indent := indent |}.

(** The class stack [_classes] is not read by any code of this file other
    than its own accessors and is left out. *)
Record EmitterVisitorContext : Type := {
  _exportedVars : list string;
  _lines : list _EmittedLine;
  _indent : Z
}.

(** [new EmitterVisitorContext(exportedVars, indent)] *)
Definition newContext (exportedVars : list string) (indent : Z)
    : EmitterVisitorContext :=
  {| _exportedVars := exportedVars;
     _lines := [new_EmittedLine indent];
     _indent := indent |}.

Definition createRoot (exportedVars : list string) : EmitterVisitorContext :=
  newContext exportedVars 0.

(** Code that runs against the mutable context. *)
Definition Emit (A : Type) : Type :=
  EmitterVisitorContext -> result (A * EmitterVisitorContext).

Definition ret {A} (a : A) : Emit A := fun ctx => Ok (a, ctx).

Definition bind {A B} (m : Emit A) (k : A -> Emit B) : Emit B :=
  fun ctx =>
    match m ctx with
    | Ok (a, ctx') => k a ctx'
    | Throw e => Throw e
    end.

Definition raise {A} (e : exn) : Emit A := fun _ => Throw e.

Declare Scope emit_scope.
Delimit Scope emit_scope with emit.
Notation "x <- m ;; k" := (bind m (fun x => k))
  (at level 61, m at next level, right associativity) : emit_scope.
Notation "m ;; k" := (bind m (fun _ => k))
  (at level 61, right associativity) : emit_scope.
Local Open Scope emit_scope.

(** The context an [Emit] run ends in, when it does not raise. *)
Definition exec {A} (m : Emit A) (ctx : EmitterVisitorContext)
    : result EmitterVisitorContext :=
  match m ctx with
  | Ok (_, ctx') => Ok ctx'
  | Throw e => Throw e
  end.

(** [this._lines[this._lines.length - 1]]; [None] is [undefined]. *)
Definition _currentLine (ctx : EmitterVisitorContext) : option _EmittedLine :=
  nth_error (_lines ctx) (length (_lines ctx) - 1).

(** Writing through the reference [this._currentLine]: the last element
    of [_lines] is the object that changes. *)
Definition setCurrentLine (l : _EmittedLine) (ctx : EmitterVisitorContext)
    : EmitterVisitorContext :=
  {| _exportedVars := _exportedVars ctx;
     _lines := removelast (_lines ctx) ++ [l];
     _indent := _indent ctx |}.

Definition isExportedVar (varName : string) (ctx : EmitterVisitorContext)
    : bool :=
  existsb (String.eqb varName) (_exportedVars ctx).

Definition lineIsEmpty : Emit bool := fun ctx =>
  match _currentLine ctx with
  | Some l => Ok ((length (parts l) =? 0)%nat, ctx)
  | None => Throw TypeError
  end.

Definition pushPart (from : option ParseSourceSpan) (part : string)
    : Emit unit := fun ctx =>
  match _currentLine ctx with
  | Some l =>
      Ok (tt, setCurrentLine {| parts := parts l ++ [part];
                                srcSpans := srcSpans l ++ [from];
                                indent := indent l |} ctx)
  | None => Throw TypeError
  end.

Definition pushLine : Emit unit := fun ctx =>
  Ok (tt, {| _exportedVars := _exportedVars ctx;
             _lines := _lines ctx ++ [new_EmittedLine (_indent ctx)];
             _indent := _indent ctx |}).

(** [print(from, part, newLine = false)]; [from] is given as the span
    [from && from.sourceSpan || null] it contributes. *)
Definition print (from : option ParseSourceSpan) (part : string)
    (newLine : bool) : Emit unit :=
  (if (0 <? strlen part)%Z then pushPart from part else ret tt) ;;
  (if newLine then pushLine else ret tt).

(** [println(from?, lastPart = '')] *)
Definition println (from : option ParseSourceSpan) (lastPart : string)
    : Emit unit :=
  print from lastPart true.

Definition removeEmptyLastLine : Emit unit :=
  empty <- lineIsEmpty ;;
  if empty
  then fun ctx => Ok (tt, {| _exportedVars := _exportedVars ctx;
                             _lines := removelast (_lines ctx);
                             _indent := _indent ctx |})
  else ret tt.

(** [this._indent += d; this._currentLine.indent = this._indent] *)
Definition setIndent (d : Z) : Emit unit := fun ctx =>
  match _currentLine ctx with
  | Some l =>
      Ok (tt, {| _exportedVars := _exportedVars ctx;
                 _lines := removelast (_lines ctx)
                           ++ [{| parts := parts l;
                                  srcSpans := srcSpans l;
                                  indent := _indent ctx + d |}];
                 _indent := _indent ctx + d |})
  | None => Throw TypeError
  end.

Definition incIndent : Emit unit := setIndent 1.
Definition decIndent : Emit unit := setIndent (-1).

(** The getter [sourceLines]: all lines but an empty last one. *)
Definition sourceLines (ctx : EmitterVisitorContext) : list _EmittedLine :=
  match _currentLine ctx with
  | Some l =>
      if (length (parts l) =? 0)%nat then removelast (_lines ctx)
      else _lines ctx
  | None => _lines ctx
  end.

Definition lineText (l : _EmittedLine) : string :=
  if (0 <? length (parts l))%nat
  then _createIndent (indent l) ++ join_empty (parts l)
  else "".

Definition NL : string := String LF EmptyString.

Definition toSource (ctx : EmitterVisitorContext) : string :=
  String.concat NL (map lineText (sourceLines ctx)).

(* ===================================================================== *)
(** * Position-map assembly (lines 92-132) *)
(* ===================================================================== *)

(** Modelled from the spec: [source_map.ts] is not part of the source
    tree.  The encoder is consumed through three calls, [addLine()],
    [addSource(url, content)] and
    [addMapping(generatedColumn, sourceUrl, sourceLine, sourceColumn)];
    a [SourceMapGenerator] is represented by the calls it has received,
    in the order they were issued. *)
Inductive Call : Type :=
| addLine
| addSource (sourceUrl : string) (sourceContent : string)
| addMapping (col0 : Z) (sourceUrl : string) (sourceLine0 sourceCol0 : Z).

Definition SourceMapGenerator : Type := list Call.

(** [spans[spanIdx]] when it is truthy; [None] when it is [null] or
    [undefined]. *)
Definition spanAt (spans : list (option ParseSourceSpan)) (spanIdx : nat)
    : option ParseSourceSpan :=
  match nth_error spans spanIdx with
  | Some (Some s) => Some s
  | _ => None
  end.

(** [parts[spanIdx].length]; reading [length] of [undefined] raises. *)
Definition partLength (parts : list string) (spanIdx : nat) : result Z :=
  match nth_error parts spanIdx with
  | Some p => Ok (strlen p)
  | None => Throw TypeError
  end.

(** The three [while] heads of the per-line body: the loop that skips the
    leading parts without span (line 106), the loop over segments
    (line 111) and, inside it, the loop that assigns parts to the previous
    segment (line 124), where [span] is in scope. *)
Inductive LoopHead : Type :=
| SkipLeading
| Segments
| Absorb (span : ParseSourceSpan).

Definition headRank (h : LoopHead) : nat :=
  match h with Segments => 0 | _ => 1 end.

(** [span === spans[spanIdx] || !spans[spanIdx]] *)
Definition absorbs (span : ParseSourceSpan)
    (spans : list (option ParseSourceSpan)) (spanIdx : nat) : bool :=
  match spanAt spans spanIdx with
  | Some s => sameSpan span s
  | None => true
  end.

Definition isNone {A} (o : option A) : bool :=
  match o with None => true | Some _ => false end.

(** The body of the [forEach] callback after [map.addLine()], from the
    loop head [h] with the current values of [col0] and [spanIdx]; the
    result is the calls issued from there on. *)
Equations? lineLoop (spans : list (option ParseSourceSpan))
    (parts : list string) (h : LoopHead) (col0 : Z) (spanIdx : nat)
    : result (list Call)
    by wf (2 * (length spans - spanIdx) + headRank h)%nat lt :=
  lineLoop spans parts SkipLeading col0 spanIdx
    with lt_dec spanIdx (length spans) => {
    | left _ with isNone (spanAt spans spanIdx) => {
        | true with partLength parts spanIdx => {
            | Ok len =>
                lineLoop spans parts SkipLeading (col0 + len) (S spanIdx)
            | Throw e => Throw e }
        | false => lineLoop spans parts Segments col0 spanIdx }
    | right _ => lineLoop spans parts Segments col0 spanIdx };
  lineLoop spans parts Segments col0 spanIdx
    with lt_dec spanIdx (length spans) => {
    | left _ with spanAt spans spanIdx => {
        | Some span with partLength parts spanIdx => {
            | Ok len
                with lineLoop spans parts (Absorb span) (col0 + len)
                       (S spanIdx) => {
                | Ok calls =>
                    Ok (addSource (url (file (start span)))
                                  (content (file (start span)))
                        :: addMapping col0 (url (file (start span)))
                                      (line (start span)) (col (start span))
                        :: calls)
                | Throw e => Throw e }
            | Throw e => Throw e }
        | None => Throw TypeError }
    | right _ => Ok [] };
  lineLoop spans parts (Absorb span) col0 spanIdx
    with lt_dec spanIdx (length spans) => {
    | left _ with absorbs span spans spanIdx => {
        | true with partLength parts spanIdx => {
            | Ok len =>
                lineLoop spans parts (Absorb span) (col0 + len) (S spanIdx)
            | Throw e => Throw e }
        | false => lineLoop spans parts Segments col0 spanIdx }
    | right _ => lineLoop spans parts Segments col0 spanIdx }.
Proof.
  all: simpl; lia.
Qed.

(** One iteration of [this.sourceLines.forEach(line => ...)]. *)
Definition lineCalls (l : _EmittedLine) : result (list Call) :=
  match lineLoop (srcSpans l) (parts l) SkipLeading
                 (indent l * strlen _INDENT_WITH) 0 with
  | Ok calls => Ok (addLine :: calls)
  | Throw e => Throw e
  end.

Fixpoint forEachLine (lines : list _EmittedLine) : result (list Call) :=
  match lines with
  | [] => Ok []
  | l :: rest =>
      match lineCalls l with
      | Ok calls =>
          match forEachLine rest with
          | Ok more => Ok (calls ++ more)
          | Throw e => Throw e
          end
      | Throw e => Throw e
      end
  end.

(** [toSourceMapGenerator(file = null, startsAtLine = 0)]: the calls the
    returned generator has received. *)
Definition toSourceMapGenerator (ctx : EmitterVisitorContext)
    (file : option string) (startsAtLine : Z) : result SourceMapGenerator :=
  match forEachLine (sourceLines ctx) with
  | Ok calls => Ok (repeat addLine (Z.to_nat startsAtLine) ++ calls)
  | Throw e => Throw e
  end.

(* ===================================================================== *)
(** * The output tree *)
(* ===================================================================== *)

(** Modelled from the spec: [output_ast.ts] is not part of the source
    tree.  The node kinds are those the abstract visitor renders itself;
    the kinds whose [visit] method is abstract here (class, function and
    variable declarations, try/catch, casts, external references and
    function expressions) are rendered by the concrete emitters and do not
    occur.  Every node carries its optional source span.  A builtin tag
    and a binary operator are values of an enumeration: the members the
    [switch] statements name, or any other value of the enumeration's
    numeric type, kept with its number. *)
Inductive BuiltinVar : Type :=
| This
| Super
| CatchError
| CatchStack
| UnknownBuiltinVar (tag : Z).

Definition BuiltinMethod : Type := Z.

Inductive BinaryOperator : Type :=
| Equals
| NotEquals
| Identical
| NotIdentical
| Minus
| Plus
| Divide
| Multiply
| Modulo
| And
| Or
| Lower
| LowerEquals
| Bigger
| BiggerEquals
| UnknownBinaryOperator (tag : Z).

(** The value of a literal, as [visitLiteralExpr] reads it: a string, or
    a value of another type, of which the visitor uses nothing but the
    text that the template literal [`${value}`] gives.  A value of
    another type is held as that text: [1] for the number one, [1e+21]
    for ten to the power 21, [0.5], [true], [false], [null]. *)
Inductive LiteralValue : Type :=
| LitString (s : string)
| LitOther (text : string).

(** [ReadVarExpr] and [InvokeMethodExpr] hold either a spelled name or a
    builtin tag, never both.  The trees nest through [list]; their
    induction principles are stated with the theorems. *)
Unset Elimination Schemes.

Inductive Expression : Type :=
| ReadVarExpr (sourceSpan : option ParseSourceSpan)
    (name : string + BuiltinVar)
| WriteVarExpr (sourceSpan : option ParseSourceSpan) (name : string)
    (value : Expression)
| WriteKeyExpr (sourceSpan : option ParseSourceSpan)
    (receiver index value : Expression)
| WritePropExpr (sourceSpan : option ParseSourceSpan)
    (receiver : Expression) (name : string) (value : Expression)
| InvokeMethodExpr (sourceSpan : option ParseSourceSpan)
    (receiver : Expression) (name : string + BuiltinMethod)
    (args : list Expression)
| InvokeFunctionExpr (sourceSpan : option ParseSourceSpan)
    (fn : Expression) (args : list Expression)
| InstantiateExpr (sourceSpan : option ParseSourceSpan)
    (classExpr : Expression) (args : list Expression)
| LiteralExpr (sourceSpan : option ParseSourceSpan) (value : LiteralValue)
| ConditionalExpr (sourceSpan : option ParseSourceSpan)
    (condition trueCase falseCase : Expression)
| NotExpr (sourceSpan : option ParseSourceSpan) (condition : Expression)
| BinaryOperatorExpr (sourceSpan : option ParseSourceSpan)
    (operator : BinaryOperator) (lhs rhs : Expression)
| ReadPropExpr (sourceSpan : option ParseSourceSpan)
    (receiver : Expression) (name : string)
| ReadKeyExpr (sourceSpan : option ParseSourceSpan)
    (receiver index : Expression)
| LiteralArrayExpr (sourceSpan : option ParseSourceSpan)
    (entries : list Expression)
| LiteralMapExpr (sourceSpan : option ParseSourceSpan)
    (entries : list LiteralMapEntry)
with LiteralMapEntry : Type :=
| MapEntry (key : string) (value : Expression) (quoted : bool).

(** In [IfStmt], a [falseCase] that is [null] and one that is the empty
    array make [hasElseCase] false alike; both are the empty list. *)
Inductive Statement : Type :=
| ExpressionStatement (sourceSpan : option ParseSourceSpan)
    (expr : Expression)
| ReturnStatement (sourceSpan : option ParseSourceSpan) (value : Expression)
| IfStmt (sourceSpan : option ParseSourceSpan) (condition : Expression)
    (trueCase falseCase : list Statement)
| ThrowStmt (sourceSpan : option ParseSourceSpan) (error : Expression)
| CommentStmt (sourceSpan : option ParseSourceSpan) (comment : string).

Set Elimination Schemes.

(** [o.variable('error').name] and [o.variable('stack').name] *)
Definition CATCH_ERROR_VAR_name : string := "error".
Definition CATCH_STACK_VAR_name : string := "stack".

(* ===================================================================== *)
(** * The visitor (lines 142-448) *)
(* ===================================================================== *)

(** The state of an [AbstractEmitterVisitor] and the one hook of the
    concrete emitter that the methods modelled here call. *)
Record AbstractEmitterVisitor : Type := {
  _escapeDollarInStrings : bool;
  getBuiltinMethodName : BuiltinMethod -> option string
}.

Section Sequences.
Context {T : Type} (handler : T -> Emit unit).

(** The [for] loop of [visitAllObjects] from index [i], over the
    elements from [i] on. *)
Fixpoint visitAllObjectsFrom (i : nat) (expressions : list T)
    (separator : string) (newLine : bool) : Emit unit :=
  match expressions with
  | [] => ret tt
  | e :: rest =>
      (if (0 <? i)%nat then print None separator newLine else ret tt) ;;
      handler e ;;
      visitAllObjectsFrom (S i) rest separator newLine
  end.

Definition visitAllObjects (expressions : list T) (separator : string)
    (newLine : bool) : Emit unit :=
  visitAllObjectsFrom 0 expressions separator newLine ;;
  (if newLine then println None "" else ret tt).

(** [Array.prototype.forEach] with a callback that runs in [Emit]. *)
Fixpoint forEach (l : list T) : Emit unit :=
  match l with
  | [] => ret tt
  | x :: rest => handler x ;; forEach rest
  end.
End Sequences.

(** [s.split('\n')] *)
Fixpoint splitLines (s : string) : list string :=
  match s with
  | EmptyString => [EmptyString]
  | String c rest =>
      if Ascii.eqb c LF then EmptyString :: splitLines rest
      else match splitLines rest with
           | first :: others => String c first :: others
           | [] => [String c EmptyString]
           end
  end.

(** The [switch] of [visitReadVarExpr]. *)
Definition builtinVarName (b : BuiltinVar) : result string :=
  match b with
  | Super => Ok "super"
  | This => Ok "this"
  | CatchError => Ok CATCH_ERROR_VAR_name
  | CatchStack => Ok CATCH_STACK_VAR_name
  | UnknownBuiltinVar tag =>
      Throw (Error ("Unknown builtin variable " ++ showZ tag))
  end.

(** The [switch] of [visitBinaryOperatorExpr]. *)
Definition opStr (op : BinaryOperator) : result string :=
  match op with
  | Equals => Ok "=="
  | Identical => Ok "==="
  | NotEquals => Ok "!="
  | NotIdentical => Ok "!=="
  | And => Ok "&&"
  | Or => Ok "||"
  | Plus => Ok "+"
  | Minus => Ok "-"
  | Divide => Ok "/"
  | Multiply => Ok "*"
  | Modulo => Ok "%"
  | Lower => Ok "<"
  | LowerEquals => Ok "<="
  | Bigger => Ok ">"
  | BiggerEquals => Ok ">="
  | UnknownBinaryOperator tag =>
      Throw (Error ("Unknown operator " ++ showZ tag))
  end.

Definition liftResult {A} (r : result A) : Emit A := fun ctx =>
  match r with
  | Ok a => Ok (a, ctx)
  | Throw e => Throw e
  end.

(** What [visitLiteralExpr] prints: [escapeIdentifier(value,
    this._escapeDollarInStrings)] when [typeof value === 'string'], and
    [`${value}`] otherwise. *)
Definition literalText (escapeDollar : bool) (value : LiteralValue) : string :=
  match value with
  | LitString s => escapeIdentifier s escapeDollar true
  | LitOther text => text
  end.

Fixpoint visitExpression (this : AbstractEmitterVisitor) (ast : Expression)
    {struct ast} : Emit unit :=
  match ast with
  | ReadVarExpr sp name =>
      varName <- match name with
                 | inl n => ret n
                 | inr builtin => liftResult (builtinVarName builtin)
                 end ;;
      print sp varName false
  | WriteVarExpr sp name value =>
      lineWasEmpty <- lineIsEmpty ;;
      (if negb lineWasEmpty then print sp "(" false else ret tt) ;;
      print sp (name ++ " = ") false ;;
      visitExpression this value ;;
      (if negb lineWasEmpty then print sp ")" false else ret tt)
  | WriteKeyExpr sp receiver index value =>
      lineWasEmpty <- lineIsEmpty ;;
      (if negb lineWasEmpty then print sp "(" false else ret tt) ;;
      visitExpression this receiver ;;
      print sp "[" false ;;
      visitExpression this index ;;
      print sp "] = " false ;;
      visitExpression this value ;;
      (if negb lineWasEmpty then print sp ")" false else ret tt)
  | WritePropExpr sp receiver name value =>
      lineWasEmpty <- lineIsEmpty ;;
      (if negb lineWasEmpty then print sp "(" false else ret tt) ;;
      visitExpression this receiver ;;
      print sp ("." ++ name ++ " = ") false ;;
      visitExpression this value ;;
      (if negb lineWasEmpty then print sp ")" false else ret tt)
  | InvokeMethodExpr sp receiver name args =>
      visitExpression this receiver ;;
      match match name with
            | inl n => Some n
            | inr builtin => getBuiltinMethodName this builtin
            end with
      | None => ret tt
      | Some n =>
          print sp ("." ++ n ++ "(") false ;;
          visitAllObjects (visitExpression this) args "," false ;;
          print sp ")" false
      end
  | InvokeFunctionExpr sp fn args =>
      visitExpression this fn ;;
      print sp "(" false ;;
      visitAllObjects (visitExpression this) args "," false ;;
      print sp ")" false
  | InstantiateExpr sp classExpr args =>
      print sp "new " false ;;
      visitExpression this classExpr ;;
      print sp "(" false ;;
      visitAllObjects (visitExpression this) args "," false ;;
      print sp ")" false
  | LiteralExpr sp value =>
      print sp (literalText (_escapeDollarInStrings this) value) false
  | ConditionalExpr sp condition trueCase falseCase =>
      print sp "(" false ;;
      visitExpression this condition ;;
      print sp "? " false ;;
      visitExpression this trueCase ;;
      print sp ": " false ;;
      visitExpression this falseCase ;;
      print sp ")" false
  | NotExpr sp condition =>
      print sp "!" false ;;
      visitExpression this condition
  | BinaryOperatorExpr sp operator lhs rhs =>
      op <- liftResult (opStr operator) ;;
      print sp "(" false ;;
      visitExpression this lhs ;;
      print sp (" " ++ op ++ " ") false ;;
      visitExpression this rhs ;;
      print sp ")" false
  | ReadPropExpr sp receiver name =>
      visitExpression this receiver ;;
      print sp "." false ;;
      print sp name false
  | ReadKeyExpr sp receiver index =>
      visitExpression this receiver ;;
      print sp "[" false ;;
      visitExpression this index ;;
      print sp "]" false
  | LiteralArrayExpr sp entries =>
      let useNewLine := (1 <? length entries)%nat in
      print sp "[" useNewLine ;;
      incIndent ;;
      visitAllObjects (visitExpression this) entries "," useNewLine ;;
      decIndent ;;
      print sp "]" useNewLine
  | LiteralMapExpr sp entries =>
      let useNewLine := (1 <? length entries)%nat in
      print sp "{" useNewLine ;;
      incIndent ;;
      visitAllObjects
        (fun entry =>
           match entry with
           | MapEntry key value quoted =>
               print sp (escapeIdentifier key (_escapeDollarInStrings this)
                                          quoted ++ ": ") false ;;
               visitExpression this value
           end)
        entries "," useNewLine ;;
      decIndent ;;
      print sp "}" useNewLine
  end.

(** [visitAllExpressions(expressions, ctx, separator, newLine = false)] *)
Definition visitAllExpressions (this : AbstractEmitterVisitor)
    (expressions : list Expression) (separator : string) (newLine : bool)
    : Emit unit :=
  visitAllObjects (visitExpression this) expressions separator newLine.

Fixpoint visitStatement (this : AbstractEmitterVisitor) (stmt : Statement)
    {struct stmt} : Emit unit :=
  match stmt with
  | ExpressionStatement sp expr =>
      visitExpression this expr ;;
      println sp ";"
  | ReturnStatement sp value =>
      print sp "return " false ;;
      visitExpression this value ;;
      println sp ";"
  | IfStmt sp condition trueCase falseCase =>
      print sp "if (" false ;;
      visitExpression this condition ;;
      print sp ") {" false ;;
      let hasElseCase := (0 <? length falseCase)%nat in
      (if (length trueCase <=? 1)%nat && negb hasElseCase
       then
         print sp " " false ;;
         forEach (visitStatement this) trueCase ;;
         removeEmptyLastLine ;;
         print sp " " false
       else
         println None "" ;;
         incIndent ;;
         forEach (visitStatement this) trueCase ;;
         decIndent ;;
         (if hasElseCase
          then
            println sp "} else {" ;;
            incIndent ;;
            forEach (visitStatement this) falseCase ;;
            decIndent
          else ret tt)) ;;
      println sp "}"
  | ThrowStmt sp error =>
      print sp "throw " false ;;
      visitExpression this error ;;
      println sp ";"
  | CommentStmt sp comment =>
      forEach (fun line => println sp ("// " ++ line)) (splitLines comment)
  end.

Definition visitAllStatements (this : AbstractEmitterVisitor)
    (statements : list Statement) : Emit unit :=
  forEach (visitStatement this) statements.

(* ===================================================================== *)
(** * Position-map assembly seen from the fragments *)
(* ===================================================================== *)

(** The two calls of line 117 for a segment that starts at column [col0]
    with span [span]. *)
Definition entryCalls (col0 : Z) (span : ParseSourceSpan) : list Call :=
  [addSource (url (file (start span))) (content (file (start span)));
   addMapping col0 (url (file (start span))) (line (start span))
              (col (start span))].

(** One pass over the fragments of a line, left to right: [run] is the
    identity of the span object of the segment in progress, if any. *)
Fixpoint mergedWalk (run : option positive) (col0 : Z)
    (spans : list (option ParseSourceSpan)) (parts : list string)
    : list Call :=
  match spans, parts with
  | sp :: spans', p :: parts' =>
      match sp with
      | None => mergedWalk run (col0 + strlen p) spans' parts'
      | Some s =>
          if match run with
             | Some r => Pos.eqb r (spanRef s)
             | None => false
             end
          then mergedWalk run (col0 + strlen p) spans' parts'
          else entryCalls col0 s
                 ++ mergedWalk (Some (spanRef s)) (col0 + strlen p)
                      spans' parts'
      end
  | _, _ => []
  end.

(** The span object of the nearest spanned fragment of [spans], counted
    from the right end. *)
Fixpoint lastSpannedRef (spans : list (option ParseSourceSpan))
    : option positive :=
  match spans with
  | [] => None
  | sp :: rest =>
      match lastSpannedRef rest with
      | Some r => Some r
      | None => option_map spanRef sp
      end
  end.

(** Fragment [i] opens a mapping entry: it carries a span, and the nearest
    spanned fragment before it on the line, if there is one, carries
    another span object. *)
Definition startsRun (spans : list (option ParseSourceSpan)) (i : nat)
    : bool :=
  match spanAt spans i with
  | Some s =>
      match lastSpannedRef (firstn i spans) with
      | Some r => negb (Pos.eqb r (spanRef s))
      | None => true
      end
  | None => false
  end.

Definition totalWidth (ps : list string) : Z :=
  fold_right (fun p acc => strlen p + acc)%Z 0%Z ps.

(** Indent depth times the width of the indent unit, plus the widths of
    the fragments before fragment [i]. *)
Definition columnAt (l : _EmittedLine) (i : nat) : Z :=
  indent l * 2 + totalWidth (firstn i (parts l)).

Definition runEntry (l : _EmittedLine) (i : nat) : list Call :=
  match spanAt (srcSpans l) i with
  | Some s => entryCalls (columnAt l i) s
  | None => []
  end.

Definition runStarts (spans : list (option ParseSourceSpan)) : list nat :=
  filter (startsRun spans) (seq 0 (length spans)).

(** The calls of one line as the claim on absorbed fragments words them. *)
Definition specLineCalls (l : _EmittedLine) : list Call :=
  addLine :: flat_map (runEntry l) (runStarts (srcSpans l)).

(** Number of maximal runs of adjacent fragments that carry the same span
    object, a spanless fragment belonging to no run: [prev] is the span
    object of the fragment just before, if it has one. *)
Fixpoint sameSpanRuns (prev : option positive)
    (spans : list (option ParseSourceSpan)) : nat :=
  match spans with
  | [] => 0
  | None :: rest => sameSpanRuns None rest
  | Some s :: rest =>
      (if match prev with
          | Some r => Pos.eqb r (spanRef s)
          | None => false
          end
       then 0 else 1) + sameSpanRuns (Some (spanRef s)) rest
  end.

(** Number of runs when a spanless fragment that follows a spanned one
    stays in the run of that fragment. *)
Fixpoint mergedRuns (run : option positive)
    (spans : list (option ParseSourceSpan)) : nat :=
  match spans with
  | [] => 0
  | None :: rest => mergedRuns run rest
  | Some s :: rest =>
      if match run with
         | Some r => Pos.eqb r (spanRef s)
         | None => false
         end
      then mergedRuns run rest
      else S (mergedRuns (Some (spanRef s)) rest)
  end.

Definition isAddMapping (c : Call) : bool :=
  match c with addMapping _ _ _ _ => true | _ => false end.

Definition isAddSource (c : Call) : bool :=
  match c with addSource _ _ => true | _ => false end.

Definition isAddLine (c : Call) : bool :=
  match c with addLine => true | _ => false end.

Definition countCalls (p : Call -> bool) (calls : list Call) : nat :=
  length (filter p calls).

(** The generated columns of the [addMapping] calls, in call order. *)
Fixpoint mappingColumns (calls : list Call) : list Z :=
  match calls with
  | [] => []
  | addMapping c _ _ _ :: rest => c :: mappingColumns rest
  | _ :: rest => mappingColumns rest
  end.

(** The urls passed to [addSource], in call order. *)
Fixpoint sourceUrls (calls : list Call) : list string :=
  match calls with
  | [] => []
  | addSource u _ :: rest => u :: sourceUrls rest
  | _ :: rest => sourceUrls rest
  end.

(** Every [addSource] is directly followed by the [addMapping] of the
    same url, and no [addMapping] comes without it. *)
Fixpoint sourceThenMapping (calls : list Call) : bool :=
  match calls with
  | [] => true
  | addSource u _ :: addMapping _ u' _ _ :: rest =>
      String.eqb u u' && sourceThenMapping rest
  | _ => false
  end.

(** What each loop head returns, in terms of the fragments from index [i]
    on.  The segment loop is entered at [i] only past the end of the line
    or at a spanned fragment that the segment in progress does not
    absorb. *)
Definition loopSpec (spans : list (option ParseSourceSpan))
    (parts : list string) (h : LoopHead) (col0 : Z) (i : nat)
    (r : result (list Call)) : Prop :=
  match h with
  | SkipLeading =>
      r = Ok (mergedWalk None col0 (skipn i spans) (skipn i parts))
  | Absorb span =>
      r = Ok (mergedWalk (Some (spanRef span)) col0 (skipn i spans)
                         (skipn i parts))
  | Segments =>
      forall run,
        match skipn i spans with
        | [] => True
        | Some s :: _ =>
            match run with
            | Some r => Pos.eqb r (spanRef s) = false
            | None => True
            end
        | None :: _ => False
        end ->
        r = Ok (mergedWalk run col0 (skipn i spans) (skipn i parts))
  end.

(** A line as [print] builds it: one span slot per part, no empty part. *)
Definition wfLine (l : _EmittedLine) : Prop :=
  length (parts l) = length (srcSpans l)
  /\ Forall (fun p => (0 < strlen p)%Z) (parts l).

Definition wfContext (ctx : EmitterVisitorContext) : Prop :=
  Forall wfLine (_lines ctx).

(** [m] leaves every line as [print] builds them, whenever it returns. *)
Definition keepsWf {A} (m : Emit A) : Prop :=
  forall ctx a ctx', wfContext ctx -> m ctx = Ok (a, ctx') -> wfContext ctx'.

(** The line after [parts.push(part); srcSpans.push(from)], which [print]
    does for a non-empty [part] only. *)
Definition addPart (from : option ParseSourceSpan) (part : string)
    (l : _EmittedLine) : _EmittedLine :=
  if (0 <? strlen part)%Z
  then {| parts := parts l ++ [part];
          srcSpans := srcSpans l ++ [from];
          indent := indent l |}
  else l.

Definition withIndent (n : Z) (l : _EmittedLine) : _EmittedLine :=
  {| parts := parts l; srcSpans := srcSpans l; indent := n |}.

Definition mkContext (exportedVars : list string)
    (lines : list _EmittedLine) (indent : Z) : EmitterVisitorContext :=
  {| _exportedVars := exportedVars; _lines := lines; _indent := indent |}.

(* ===================================================================== *)
(** * Where rendering raises, without running it *)
(* ===================================================================== *)

Definition firstOf (a b : option exn) : option exn :=
  match a with
  | Some x => Some x
  | None => b
  end.

Definition thrown {A} (r : result A) : option exn :=
  match r with
  | Ok _ => None
  | Throw e => Some e
  end.

Section FirstFatal.
Context {T : Type} (fatal : T -> option exn).

(** The first element of a list, in order, on which [fatal] answers. *)
Fixpoint firstFatal (l : list T) : option exn :=
  match l with
  | [] => None
  | x :: rest => firstOf (fatal x) (firstFatal rest)
  end.
End FirstFatal.

(** [Some n] for a method that is called: a spelled name, or a builtin the
    emitter names; [None] for a builtin whose call is skipped. *)
Definition methodName (this : AbstractEmitterVisitor)
    (name : string + BuiltinMethod) : option string :=
  match name with
  | inl n => Some n
  | inr builtin => getBuiltinMethodName this builtin
  end.

(** The exception of the first node, in the order the visitor reaches the
    nodes, whose [switch] falls to [default]: a read of a variable with an
    unrecognized builtin tag, or a binary operator outside the table.  The
    arguments of a skipped builtin method call are not reached. *)
Fixpoint fatalExpression (this : AbstractEmitterVisitor) (ast : Expression)
    {struct ast} : option exn :=
  match ast with
  | ReadVarExpr _ (inl _) => None
  | ReadVarExpr _ (inr builtin) => thrown (builtinVarName builtin)
  | WriteVarExpr _ _ value => fatalExpression this value
  | WriteKeyExpr _ receiver index value =>
      firstOf (fatalExpression this receiver)
        (firstOf (fatalExpression this index) (fatalExpression this value))
  | WritePropExpr _ receiver _ value =>
      firstOf (fatalExpression this receiver) (fatalExpression this value)
  | InvokeMethodExpr _ receiver name args =>
      firstOf (fatalExpression this receiver)
        match methodName this name with
        | None => None
        | Some _ => firstFatal (fatalExpression this) args
        end
  | InvokeFunctionExpr _ fn args =>
      firstOf (fatalExpression this fn)
              (firstFatal (fatalExpression this) args)
  | InstantiateExpr _ classExpr args =>
      firstOf (fatalExpression this classExpr)
              (firstFatal (fatalExpression this) args)
  | LiteralExpr _ _ => None
  | ConditionalExpr _ condition trueCase falseCase =>
      firstOf (fatalExpression this condition)
        (firstOf (fatalExpression this trueCase)
                 (fatalExpression this falseCase))
  | NotExpr _ condition => fatalExpression this condition
  | BinaryOperatorExpr _ operator lhs rhs =>
      firstOf (thrown (opStr operator))
        (firstOf (fatalExpression this lhs) (fatalExpression this rhs))
  | ReadPropExpr _ receiver _ => fatalExpression this receiver
  | ReadKeyExpr _ receiver index =>
      firstOf (fatalExpression this receiver) (fatalExpression this index)
  | LiteralArrayExpr _ entries => firstFatal (fatalExpression this) entries
  | LiteralMapExpr _ entries =>
      firstFatal (fun entry => match entry with
                               | MapEntry _ value _ =>
                                   fatalExpression this value
                               end) entries
  end.

Fixpoint fatalStatement (this : AbstractEmitterVisitor) (stmt : Statement)
    {struct stmt} : option exn :=
  match stmt with
  | ExpressionStatement _ expr => fatalExpression this expr
  | ReturnStatement _ value => fatalExpression this value
  | IfStmt _ condition trueCase falseCase =>
      firstOf (fatalExpression this condition)
        (if (length trueCase <=? 1)%nat && negb (0 <? length falseCase)%nat
         then firstFatal (fatalStatement this) trueCase
         else firstOf (firstFatal (fatalStatement this) trueCase)
                      (firstFatal (fatalStatement this) falseCase))
  | ThrowStmt _ error => fatalExpression this error
  | CommentStmt _ _ => None
  end.

(** The two diagnostics of the emitter. *)
Definition isUnknownTagError (e : exn) : Prop :=
  (exists tag, e = Error ("Unknown builtin variable " ++ showZ tag))
  \/ (exists tag, e = Error ("Unknown operator " ++ showZ tag)).

Definition knownBuiltinVar (b : BuiltinVar) : bool :=
  match b with UnknownBuiltinVar _ => false | _ => true end.

Definition knownOperator (op : BinaryOperator) : bool :=
  match op with UnknownBinaryOperator _ => false | _ => true end.

(** Every builtin tag and operator of the tree is one the [switch]
    statements name. *)
Fixpoint knownTags (ast : Expression) : bool :=
  match ast with
  | ReadVarExpr _ (inl _) => true
  | ReadVarExpr _ (inr builtin) => knownBuiltinVar builtin
  | WriteVarExpr _ _ value => knownTags value
  | WriteKeyExpr _ receiver index value =>
      knownTags receiver && knownTags index && knownTags value
  | WritePropExpr _ receiver _ value => knownTags receiver && knownTags value
  | InvokeMethodExpr _ receiver _ args =>
      knownTags receiver && forallb knownTags args
  | InvokeFunctionExpr _ fn args => knownTags fn && forallb knownTags args
  | InstantiateExpr _ classExpr args =>
      knownTags classExpr && forallb knownTags args
  | LiteralExpr _ _ => true
  | ConditionalExpr _ condition trueCase falseCase =>
      knownTags condition && knownTags trueCase && knownTags falseCase
  | NotExpr _ condition => knownTags condition
  | BinaryOperatorExpr _ operator lhs rhs =>
      knownOperator operator && knownTags lhs && knownTags rhs
  | ReadPropExpr _ receiver _ => knownTags receiver
  | ReadKeyExpr _ receiver index => knownTags receiver && knownTags index
  | LiteralArrayExpr _ entries => forallb knownTags entries
  | LiteralMapExpr _ entries =>
      forallb (fun entry => match entry with
                            | MapEntry _ value _ => knownTags value
                            end) entries
  end.

Fixpoint knownTagsStatement (stmt : Statement) : bool :=
  match stmt with
  | ExpressionStatement _ expr => knownTags expr
  | ReturnStatement _ value => knownTags value
  | IfStmt _ condition trueCase falseCase =>
      knownTags condition && forallb knownTagsStatement trueCase
      && forallb knownTagsStatement falseCase
  | ThrowStmt _ error => knownTags error
  | CommentStmt _ _ => true
  end.

(* ===================================================================== *)
(** * How rendering changes the context *)
(* ===================================================================== *)

(** The context has a line in progress. *)
Definition hasLine (ctx : EmitterVisitorContext) : Prop := _lines ctx <> [].

(** [cur'] is [cur] with fragments appended to it (its indent may have
    been set anew). *)
Definition extendsLine (cur cur' : _EmittedLine) : Prop :=
  exists ps ss,
    parts cur' = parts cur ++ ps /\ srcSpans cur' = srcSpans cur ++ ss.

(** [ctx'] is [ctx] written further: the completed lines of [ctx] are
    untouched, its line in progress has received fragments, and lines may
    follow it. *)
Definition extendsContext (ctx ctx' : EmitterVisitorContext) : Prop :=
  _exportedVars ctx' = _exportedVars ctx
  /\ exists init cur cur' more,
       _lines ctx = init ++ [cur]
       /\ _lines ctx' = init ++ cur' :: more
       /\ extendsLine cur cur'.

(** [ctx'] is [ctx] written further, with the counter moved by [d]. *)
Definition steps (d : Z) (ctx ctx' : EmitterVisitorContext) : Prop :=
  extendsContext ctx ctx' /\ _indent ctx' = (_indent ctx + d)%Z.

(** [ctx'] is [ctx] written further and ends with a fresh line at the
    counter of [ctx], which is also the counter of [ctx']. *)
Definition endsLine (ctx ctx' : EmitterVisitorContext) : Prop :=
  _exportedVars ctx' = _exportedVars ctx
  /\ _indent ctx' = _indent ctx
  /\ exists init cur cur' more,
       _lines ctx = init ++ [cur]
       /\ _lines ctx' = init ++ cur' :: more
                               ++ [new_EmittedLine (_indent ctx)]
       /\ extendsLine cur cur'.

(** On a context with a line in progress, [m] raises [x] when [fatal] is
    [Some x], and otherwise ends in a context written further with the
    counter moved by [d]. *)
Definition outcome (m : Emit unit) (fatal : option exn) (d : Z) : Prop :=
  forall ctx, hasLine ctx ->
    match fatal with
    | Some x => m ctx = Throw x
    | None => exists ctx', m ctx = Ok (tt, ctx') /\ steps d ctx ctx'
    end.

(** The same for code that ends by opening a fresh line. *)
Definition outcomeLine (m : Emit unit) (fatal : option exn) : Prop :=
  forall ctx, hasLine ctx ->
    match fatal with
    | Some x => m ctx = Throw x
    | None => exists ctx', m ctx = Ok (tt, ctx') /\ endsLine ctx ctx'
    end.

(* ===================================================================== *)
(** * Rendering on one line *)
(* ===================================================================== *)

(** The line after the fragments [ps], with the spans [ss], were appended
    to it. *)
Definition appendFragments (ps : list string)
    (ss : list (option ParseSourceSpan)) (l : _EmittedLine) : _EmittedLine :=
  {| parts := parts l ++ ps; srcSpans := srcSpans l ++ ss;
     indent := indent l |}.

(** [m] renders as [text] on one line: run on a context whose line in
    progress is empty or not as [onEmptyLine] says, and carries the indent
    of the counter, it appends to that line fragments that spell [text],
    and changes nothing else. *)
Definition emitsInline (m : Emit unit) (onEmptyLine : bool) (text : string)
    : Prop :=
  forall ev init cur,
    (length (parts cur) =? 0)%nat = onEmptyLine ->
    exists ps ss,
      m (mkContext ev (init ++ [cur]) (indent cur))
      = Ok (tt, mkContext ev (init ++ [appendFragments ps ss cur])
                  (indent cur))
      /\ join_empty ps = text.

(** [m] renders as the one line [text]: it appends fragments that spell
    [text] to the line in progress and opens a fresh line. *)
Definition emitsLine (m : Emit unit) (onEmptyLine : bool) (text : string)
    : Prop :=
  forall ev init cur,
    (length (parts cur) =? 0)%nat = onEmptyLine ->
    exists ps ss,
      m (mkContext ev (init ++ [cur]) (indent cur))
      = Ok (tt, mkContext ev (init ++ [appendFragments ps ss cur;
                                       new_EmittedLine (indent cur)])
                  (indent cur))
      /\ join_empty ps = text.

Definition rendersInline (this : AbstractEmitterVisitor) (e : Expression)
    (onEmptyLine : bool) (text : string) : Prop :=
  emitsInline (visitExpression this e) onEmptyLine text.

Definition rendersOneLine (this : AbstractEmitterVisitor) (s : Statement)
    (onEmptyLine : bool) (text : string) : Prop :=
  emitsLine (visitStatement this s) onEmptyLine text.

(** The operators of the table and the text of each. *)
Definition operatorTable : list (BinaryOperator * string) :=
  [(Equals, "=="); (Identical, "==="); (NotEquals, "!=");
   (NotIdentical, "!=="); (And, "&&"); (Or, "||"); (Plus, "+");
   (Minus, "-"); (Divide, "/"); (Multiply, "*"); (Modulo, "%");
   (Lower, "<"); (LowerEquals, "<="); (Bigger, ">"); (BiggerEquals, ">=")].

(** The span a node passes to [print]. *)
Definition sourceSpanOf (ast : Expression) : option ParseSourceSpan :=
  match ast with
  | ReadVarExpr sp _ | WriteVarExpr sp _ _ | WriteKeyExpr sp _ _ _
  | WritePropExpr sp _ _ _ | InvokeMethodExpr sp _ _ _
  | InvokeFunctionExpr sp _ _ | InstantiateExpr sp _ _ | LiteralExpr sp _
  | ConditionalExpr sp _ _ _ | NotExpr sp _ | BinaryOperatorExpr sp _ _ _
  | ReadPropExpr sp _ _ | ReadKeyExpr sp _ _ | LiteralArrayExpr sp _
  | LiteralMapExpr sp _ => sp
  end.

Definition isAssignment (ast : Expression) : bool :=
  match ast with
  | WriteVarExpr _ _ _ | WriteKeyExpr _ _ _ _ | WritePropExpr _ _ _ _ => true
  | _ => false
  end.

(** What the three write visitors print between the optional
    parentheses. *)
Definition assignmentBody (this : AbstractEmitterVisitor) (ast : Expression)
    : Emit unit :=
  match ast with
  | WriteVarExpr sp name value =>
      print sp (name ++ " = ") false ;;
      visitExpression this value
  | WriteKeyExpr sp receiver index value =>
      visitExpression this receiver ;;
      print sp "[" false ;;
      visitExpression this index ;;
      print sp "] = " false ;;
      visitExpression this value
  | WritePropExpr sp receiver name value =>
      visitExpression this receiver ;;
      print sp ("." ++ name ++ " = ") false ;;
      visitExpression this value
  | _ => ret tt
  end.

(** The texts of the lines of a block: [sep] after each but the last. *)
Fixpoint separated (sep : string) (texts : list string) : list string :=
  match texts with
  | [] => []
  | [t] => [t]
  | t :: rest => (t ++ sep)%string :: separated sep rest
  end.

(** A line at indent [n] whose fragments spell [text]. *)
Definition lineSpells (n : Z) (l : _EmittedLine) (text : string) : Prop :=
  indent l = n /\ join_empty (parts l) = text.

(** What [visitLiteralArrayExpr] and [visitLiteralMapExpr] do, for the
    brackets [opening] and [closing] and the rendering [handler] of an
    entry. *)
Definition visitCollection {T} (handler : T -> Emit unit)
    (sp : option ParseSourceSpan) (opening closing : string)
    (entries : list T) : Emit unit :=
  let useNewLine := (1 <? length entries)%nat in
  print sp opening useNewLine ;;
  incIndent ;;
  visitAllObjects handler entries "," useNewLine ;;
  decIndent ;;
  print sp closing useNewLine.

(** The rendering of one entry of a map literal. *)
Definition visitMapEntry (this : AbstractEmitterVisitor)
    (sp : option ParseSourceSpan) (entry : LiteralMapEntry) : Emit unit :=
  match entry with
  | MapEntry key value quoted =>
      print sp (escapeIdentifier key (_escapeDollarInStrings this) quoted
                ++ ": ") false ;;
      visitExpression this value
  end.

Definition mapEntryValue (entry : LiteralMapEntry) : Expression :=
  match entry with MapEntry _ value _ => value end.

(** The text of the key of a map entry, with its colon. *)
Definition mapEntryKeyText (this : AbstractEmitterVisitor)
    (entry : LiteralMapEntry) : string :=
  match entry with
  | MapEntry key _ quoted =>
      escapeIdentifier key (_escapeDollarInStrings this) quoted ++ ": "
  end.

(** The multi-line form of [visitIfStmt], after [if (cond) {]: the
    [else] branch of the test on [trueCase.length] and [hasElseCase]. *)
Definition ifBlock (handler : Statement -> Emit unit)
    (sp : option ParseSourceSpan) (trueCase falseCase : list Statement)
    : Emit unit :=
  println None "" ;;
  incIndent ;;
  forEach handler trueCase ;;
  decIndent ;;
  (if (0 <? length falseCase)%nat
   then
     println sp "} else {" ;;
     incIndent ;;
     forEach handler falseCase ;;
     decIndent
   else ret tt).

(** A line that holds the one fragment [text], printed for a node with
    span [sp]. *)
Definition lineOf (text : string) (sp : option ParseSourceSpan) (n : Z)
    : _EmittedLine :=
  {| parts := [text]; srcSpans := [sp]; indent := n |}.

(* ===================================================================== *)
(** * Sequences of context operations *)
(* ===================================================================== *)

(** The operations of the context that change it; [println] is [OpPrint]
    with [newLine = true]. *)
Inductive Op : Type :=
| OpPrint (from : option ParseSourceSpan) (part : string) (newLine : bool)
| OpIncIndent
| OpDecIndent
| OpRemoveEmptyLastLine.

Definition runOp (op : Op) : Emit unit :=
  match op with
  | OpPrint from part newLine => print from part newLine
  | OpIncIndent => incIndent
  | OpDecIndent => decIndent
  | OpRemoveEmptyLastLine => removeEmptyLastLine
  end.

Definition runOps (ops : list Op) : Emit unit := forEach runOp ops.

(** Number of [incIndent] calls minus number of [decIndent] calls. *)
Definition indentDelta (op : Op) : Z :=
  match op with
  | OpIncIndent => 1
  | OpDecIndent => -1
  | _ => 0
  end.











(* ===================================================================== *)
(** * Reading escaped text *)
(* ===================================================================== *)

(** The character that the escape of a backslash and [c] stands for. *)
Definition unescapeChar (c : ascii) : ascii :=
  if Ascii.eqb c "n" then LF else if Ascii.eqb c "r" then CR else c.

(** An escaped body read back, left to right: a backslash and the
    character after it stand for one character. *)
Fixpoint unescapeBody (s : string) : string :=
  match s with
  | EmptyString => EmptyString
  | String c rest =>
      if Ascii.eqb c "\"
      then match rest with
           | String c2 rest2 => String (unescapeChar c2) (unescapeBody rest2)
           | EmptyString => String c EmptyString
           end
      else String c (unescapeBody rest)
  end.

(** [s] can stand between single quotes: read left to right, a backslash
    is followed by a character, and a quote, a line feed or a carriage
    return only comes after a backslash. *)
Fixpoint closedLiteralBody (s : string) : bool :=
  match s with
  | EmptyString => true
  | String c rest =>
      if Ascii.eqb c "\"
      then match rest with
           | String _ rest2 => closedLiteralBody rest2
           | EmptyString => false
           end
      else negb (Ascii.eqb c "'" || Ascii.eqb c LF || Ascii.eqb c CR)
           && closedLiteralBody rest
  end.

Definition isLineBreak (c : ascii) : bool :=
  Ascii.eqb c LF || Ascii.eqb c CR.

(** The character that follows the backslash in the escape of [c]. *)
Definition escapedAs (c : ascii) : ascii :=
  if Ascii.eqb c LF then "n" else if Ascii.eqb c CR then "r" else c.

(** The characters that the callback of [escapeIdentifier] gives back as
    they are: those outside the pattern, and the dollar sign when the
    dollar is not escaped. *)
Definition keptAsIs (escapeDollar : bool) (c : ascii) : bool :=
  negb (_SINGLE_QUOTE_ESCAPE_STRING_RE c)
  || (Ascii.eqb c "$" && negb escapeDollar).

Definition isDollar (c : ascii) : bool := Ascii.eqb c "$".

(* ===================================================================== *)
(** * The class stack (lines 78-84) *)
(* ===================================================================== *)

(** Modelled from the spec: [o.ClassStmt] is declared in [output_ast.ts],
    which is not part of the source tree; the stack holds values of any
    type.  The array [_classes] is read and written by its three accessors
    only, which are given here on the array itself. *)
Section ClassStack.
Variable ClassStmt : Type.

(** [this._classes.push(clazz)] *)
Definition pushClass (clazz : ClassStmt) (_classes : list ClassStmt)
    : list ClassStmt :=
  _classes ++ [clazz].

(** [return this._classes.pop()]: what is returned ([None] is [undefined])
    and the array that is left. *)
Definition popClass (_classes : list ClassStmt)
    : option ClassStmt * list ClassStmt :=
  (nth_error _classes (length _classes - 1), removelast _classes).

(** The getter [currentClass]; [None] is [null]. *)
Definition currentClass (_classes : list ClassStmt) : option ClassStmt :=
  if (0 <? length _classes)%nat
  then nth_error _classes (length _classes - 1)
  else None.

(** [pushClass] for each class of [cs], in order. *)
Definition pushClasses (cs : list ClassStmt) (_classes : list ClassStmt)
    : list ClassStmt :=
  fold_left (fun acc clazz => pushClass clazz acc) cs _classes.

(** [n] calls of [popClass]: what they return, in call order, and the
    array that is left. *)
Fixpoint popClasses (n : nat) (_classes : list ClassStmt)
    : list (option ClassStmt) * list ClassStmt :=
  match n with
  | O => ([], _classes)
  | S k =>
      let (popped, rest) := popClass _classes in
      let (more, final) := popClasses k rest in
      (popped :: more, final)
  end.
End ClassStack.

(* ===================================================================== *)
(** * Rendering as a run of context operations *)
(* ===================================================================== *)

(** Whenever [m] returns, the context it ends in is the one a run of
    context operations ends in. *)
Definition viaOps {A} (m : Emit A) : Prop :=
  forall ctx a ctx',
    m ctx = Ok (a, ctx') -> exists ops, exec (runOps ops) ctx = Ok ctx'.

(* ===================================================================== *)
(** * Bounds on the indentation *)
(* ===================================================================== *)

(** Run on a context whose lines are at indent [b] or deeper and whose
    counter is at [b + need] or deeper, [m] moves the counter by [d] and
    leaves every line at [b] or deeper. *)
Definition indentBounded {A} (need d : Z) (m : Emit A) : Prop :=
  forall b ctx a ctx',
    m ctx = Ok (a, ctx') ->
    (b + need <= _indent ctx)%Z ->
    Forall (fun l => (b <= indent l)%Z) (_lines ctx) ->
    _indent ctx' = (_indent ctx + d)%Z
    /\ Forall (fun l => (b <= indent l)%Z) (_lines ctx').


(* ===================================================================== *)
(** * Sample inputs *)
(* ===================================================================== *)

Module Sample.

Definition fileA : ParseSourceFile :=
  {| content := "let a = 1;"; url := "a.ts" |}.

(** Two span objects of the same original file. *)
Definition spanS : ParseSourceSpan :=
  {| spanRef := 1; start := {| file := fileA; line := 3; col := 4 |} |}.
Definition spanT : ParseSourceSpan :=
  {| spanRef := 2; start := {| file := fileA; line := 5; col := 6 |} |}.

Definition emitter : AbstractEmitterVisitor :=
  {| _escapeDollarInStrings := false;
     getBuiltinMethodName := fun _ => None |}.

Definition var (sp : option ParseSourceSpan) (name : string) : Expression :=
  ReadVarExpr sp (inl name).

(** The literal of a number that is an integer of few digits, for which
    [`${value}`] gives the decimal digits. *)
Definition num (n : Z) : Expression := LiteralExpr None (LitOther (showZ n)).

(** The context after rendering an expression or statements from a root
    context. *)
Definition renderExpression (e : Expression)
    : result EmitterVisitorContext :=
  exec (visitExpression emitter e) (createRoot []).

Definition renderStatements (stmts : list Statement)
    : result EmitterVisitorContext :=
  exec (visitAllStatements emitter stmts) (createRoot []).

Definition sourceOf (r : result EmitterVisitorContext) : result string :=
  match r with
  | Ok ctx => Ok (toSource ctx)
  | Throw e => Throw e
  end.

(** [f(a,b)] where both arguments come from the same span object and the
    call itself has no span. *)
Definition callSameSpan : Expression :=
  InvokeFunctionExpr None (var None "f")
    [var (Some spanS) "a"; var (Some spanS) "b"].

Definition callSameSpanLine : _EmittedLine :=
  {| parts := ["f"; "("; "a"; ","; "b"; ")"];
     srcSpans := [None; None; Some spanS; None; Some spanS; None];
     indent := 0 |}.

(** [a + b] with the two operands from two span objects of one file. *)
Definition sumTwoSpans : Expression :=
  BinaryOperatorExpr None Plus (var (Some spanS) "a")
    (var (Some spanT) "b").

Definition sumTwoSpansLine : _EmittedLine :=
  {| parts := ["("; "a"; " + "; "b"; ")"];
     srcSpans := [None; Some spanS; None; Some spanT; None];
     indent := 0 |}.

(** [[[1,2]]]: an array literal whose one entry is an array literal of
    two entries, and the context operations that rendering it issues. *)
Definition nestedArray : Expression :=
  LiteralArrayExpr None [LiteralArrayExpr None [num 1; num 2]].


(** [return a + b;] *)
Definition returnSum : Statement :=
  ReturnStatement None
    (BinaryOperatorExpr None Plus (var None "a") (var None "b")).

(** [obj.x = 1] *)
Definition propWrite : Expression :=
  WritePropExpr None (var None "obj") "x" (num 1).

(** [if (c) { return a; }], then the same with a second statement, with
    a false branch, and with an if-statement of two statements as the one
    statement of the true branch. *)
Definition returnVar (name : string) : Statement :=
  ReturnStatement None (var None name).

Definition ifOne : Statement :=
  IfStmt None (var None "c") [returnVar "a"] [].

Definition ifTwo : Statement :=
  IfStmt None (var None "c") [returnVar "a"; returnVar "b"] [].

Definition ifElse : Statement :=
  IfStmt None (var None "c") [returnVar "a"] [returnVar "b"].

Definition ifNested : Statement :=
  IfStmt None (var None "c")
    [IfStmt None (var None "d") [returnVar "a"; returnVar "b"] []] [].

(** [if (c) { return [[1,2]]; return b; }] and [[[[1,2]],3]]: a statement
    of a branch, and an entry of an array, that render as a block. *)
Definition ifDeep : Statement :=
  IfStmt None (var None "c")
    [ReturnStatement None nestedArray; returnVar "b"] [].

Definition deepArray : Expression :=
  LiteralArrayExpr None [nestedArray; num 3].

Definition oneEntryArray : Expression := LiteralArrayExpr None [num 1].

Definition twoEntryArray : Expression := LiteralArrayExpr None [num 1; num 2].

Definition nestedArrayLines : list _EmittedLine :=
  [{| parts := ["["; "["]; srcSpans := [None; None]; indent := 1 |};
   {| parts := ["1"; ","]; srcSpans := [None; None]; indent := 2 |};
   {| parts := ["2"]; srcSpans := [None]; indent := 2 |};
   {| parts := ["]"]; srcSpans := [None]; indent := 1 |};
   {| parts := ["]"]; srcSpans := [None]; indent := 0 |}].

End Sample.

(* ===================================================================== *)
(** * Properties *)
(* ===================================================================== *)

(** ** Strings *)

Lemma length_append (a b : string) :
  String.length (a ++ b)%string = String.length a + String.length b.
Proof.
  induction a as [|c a IH]; simpl; [reflexivity | now rewrite IH].
Qed.

Lemma quoted_differs (body : string) : ("'" ++ body ++ "'")%string <> body.
Proof.
  intros H. apply (f_equal String.length) in H.
  simpl in H. rewrite length_append in H. simpl in H. lia.
Qed.

(** ** Escaping *)

(** C8.  [a$b] escapes to the quoted ['a\$b'] when dollars are escaped,
    and stays the bare [a$b] when they are not and quoting is not forced;
    in general the result is the escaped text itself exactly when quoting
    is not forced and the escaped text matches the bare-identifier
    pattern (a letter, underscore or dollar first, then letters, digits,
    underscores or dollars), and the escaped text between single quotes
    otherwise. *)
Theorem C8_escapeIdentifier :
  escapeIdentifier "a$b" true true = "'a\$b'"
  /\ escapeIdentifier "a$b" true false = "'a\$b'"
  /\ _LEGAL_IDENTIFIER_RE (escapeBody "a$b" false) = true
  /\ escapeIdentifier "a$b" false false = "a$b"
  /\ (forall input escapeDollar alwaysQuote,
        (escapeIdentifier input escapeDollar alwaysQuote
           = escapeBody input escapeDollar
         <-> alwaysQuote = false
             /\ _LEGAL_IDENTIFIER_RE (escapeBody input escapeDollar) = true)
        /\ (escapeIdentifier input escapeDollar alwaysQuote
              <> escapeBody input escapeDollar ->
            escapeIdentifier input escapeDollar alwaysQuote
              = ("'" ++ escapeBody input escapeDollar ++ "'")%string))
  /\ (forall s,
        _LEGAL_IDENTIFIER_RE s = true
        <-> exists c rest,
              s = String c rest
              /\ (isLetter c = true \/ c = "_"%char \/ c = "$"%char)
              /\ allChars (fun d => isLetter d || isDigit d
                                    || Ascii.eqb d "_" || Ascii.eqb d "$")
                          rest = true).
Proof.
  split; [reflexivity |]. split; [reflexivity |]. split; [reflexivity |].
  split; [reflexivity |]. split.
  - intros input escapeDollar alwaysQuote.
    unfold escapeIdentifier. cbv zeta. split; [split |].
    + destruct alwaysQuote; simpl.
      * intros H. exfalso. exact (quoted_differs H).
      * destruct (_LEGAL_IDENTIFIER_RE (escapeBody input escapeDollar));
          simpl; [now split |].
        intros H. exfalso. exact (quoted_differs H).
    + intros [-> ->]. reflexivity.
    + destruct (alwaysQuote
                || negb (_LEGAL_IDENTIFIER_RE
                           (escapeBody input escapeDollar)));
        [reflexivity | intros H; now elim H].
  - assert (Hcls : forall rest,
              allChars identPart rest
              = allChars (fun d => isLetter d || isDigit d
                                   || Ascii.eqb d "_" || Ascii.eqb d "$")
                         rest).
    { induction rest as [|d rest IH]; simpl; [reflexivity |].
      rewrite IH. f_equal. unfold identPart.
      now destruct (isDigit d), (isLetter d). }
    intros s. split.
    + destruct s as [|c rest]; simpl; [discriminate |].
      intros H. apply andb_prop in H. destruct H as [Hc Hrest].
      exists c, rest. split; [reflexivity |]. split.
      * unfold identStart in Hc.
        apply orb_prop in Hc. destruct Hc as [Hc | Hc].
        -- apply orb_prop in Hc. destruct Hc as [Hc | Hc].
           ++ right; right. now apply Ascii.eqb_eq.
           ++ now left.
        -- right; left. now apply Ascii.eqb_eq.
      * now rewrite <- Hcls.
    + intros (c & rest & -> & Hc & Hrest). simpl.
      apply andb_true_intro. split.
      * unfold identStart. destruct Hc as [Hc | [-> | ->]].
        -- rewrite Hc. now rewrite orb_true_r.
        -- reflexivity.
        -- reflexivity.
      * now rewrite Hcls.
Qed.

(** ** Lists *)

Lemma skipn_cons_nth {A} (l : list A) i x :
  nth_error l i = Some x -> skipn i l = x :: skipn (S i) l.
Proof.
  revert i. induction l as [|y l IH]; intros [|i] H; simpl in *;
    try discriminate.
  - now inversion H.
  - now apply IH.
Qed.

Lemma nth_error_lt {A} (l : list A) i :
  i < length l -> exists x, nth_error l i = Some x.
Proof.
  intros H. destruct (nth_error l i) eqn:E; [eauto |].
  apply nth_error_None in E. lia.
Qed.

Lemma ltb_of_lt_dec (i n : nat) (d : {i < n} + {~ i < n}) :
  (i <? n)%nat = if d then true else false.
Proof.
  destruct d as [H|H]; [now apply Nat.ltb_lt | now apply Nat.ltb_ge; lia].
Qed.

(** ** The three loops of the line body, one iteration at a time *)

Lemma lineLoop_SkipLeading spans parts col0 i :
  lineLoop spans parts SkipLeading col0 i
  = if (i <? length spans)%nat && isNone (spanAt spans i)
    then match partLength parts i with
         | Ok len => lineLoop spans parts SkipLeading (col0 + len) (S i)
         | Throw e => Throw e
         end
    else lineLoop spans parts Segments col0 i.
Proof.
  rewrite lineLoop_equation_1.
  rewrite (ltb_of_lt_dec (lt_dec i (length spans))).
  destruct (lt_dec i (length spans)) as [Hi|Hi]; simpl; [| reflexivity].
  destruct (isNone (spanAt spans i)); simpl; [| reflexivity].
  now destruct (partLength parts i).
Qed.

Lemma lineLoop_Segments spans parts col0 i :
  lineLoop spans parts Segments col0 i
  = if (i <? length spans)%nat
    then match spanAt spans i with
         | Some span =>
             match partLength parts i with
             | Ok len =>
                 match lineLoop spans parts (Absorb span) (col0 + len)
                                (S i) with
                 | Ok calls => Ok (entryCalls col0 span ++ calls)
                 | Throw e => Throw e
                 end
             | Throw e => Throw e
             end
         | None => Throw TypeError
         end
    else Ok [].
Proof.
  rewrite lineLoop_equation_2.
  rewrite (ltb_of_lt_dec (lt_dec i (length spans))).
  destruct (lt_dec i (length spans)) as [Hi|Hi]; simpl; [| reflexivity].
  destruct (spanAt spans i) as [span|]; simpl; [| reflexivity].
  destruct (partLength parts i) as [len|e]; simpl; [| reflexivity].
  now destruct (lineLoop spans parts (Absorb span) (col0 + len) (S i)).
Qed.

Lemma lineLoop_Absorb spans parts span col0 i :
  lineLoop spans parts (Absorb span) col0 i
  = if (i <? length spans)%nat && absorbs span spans i
    then match partLength parts i with
         | Ok len => lineLoop spans parts (Absorb span) (col0 + len) (S i)
         | Throw e => Throw e
         end
    else lineLoop spans parts Segments col0 i.
Proof.
  rewrite lineLoop_equation_3.
  rewrite (ltb_of_lt_dec (lt_dec i (length spans))).
  destruct (lt_dec i (length spans)) as [Hi|Hi]; simpl; [| reflexivity].
  destruct (absorbs span spans i); simpl; [| reflexivity].
  now destruct (partLength parts i).
Qed.

(** ** The loops compute the single pass *)

Lemma lineLoop_walk spans parts :
  length parts = length spans ->
  forall m h col0 i,
    m = 2 * (length spans - i) + headRank h ->
    loopSpec spans parts h col0 i (lineLoop spans parts h col0 i).
Proof.
  intros Hlen m. induction m as [m IH] using lt_wf_ind.
  intros h col0 i ->.
  assert (rec : forall h' col' i',
            2 * (length spans - i') + headRank h'
              < 2 * (length spans - i) + headRank h ->
            loopSpec spans parts h' col' i'
                     (lineLoop spans parts h' col' i')).
  { intros h' col' i' Hlt. exact (IH _ Hlt h' col' i' eq_refl). }
  clear IH.
  destruct (lt_dec i (length spans)) as [Hi|Hi].
  - (* a fragment is left *)
    destruct (nth_error_lt spans Hi) as [sp Hsp].
    assert (Hi' : i < length parts) by lia.
    destruct (nth_error_lt parts Hi') as [p Hp].
    assert (Hltb : (i <? length spans)%nat = true) by now apply Nat.ltb_lt.
    assert (Hpl : partLength parts i = Ok (strlen p))
      by (unfold partLength; now rewrite Hp).
    destruct h as [| |span]; unfold loopSpec.
    + rewrite lineLoop_SkipLeading, Hltb, Hpl.
      rewrite (skipn_cons_nth _ _ Hsp), (skipn_cons_nth _ _ Hp).
      unfold spanAt. rewrite Hsp. destruct sp as [s|]; simpl.
      * assert (HS := rec Segments col0 i ltac:(simpl; lia)).
        unfold loopSpec in HS. specialize (HS None).
        rewrite (skipn_cons_nth _ _ Hsp), (skipn_cons_nth _ _ Hp) in HS.
        exact (HS I).
      * exact (rec SkipLeading (col0 + strlen p)%Z (S i)
                   ltac:(simpl; lia)).
    + intros run Hrun.
      rewrite lineLoop_Segments, Hltb, Hpl.
      rewrite (skipn_cons_nth _ _ Hsp) in Hrun |- *.
      rewrite (skipn_cons_nth _ _ Hp).
      unfold spanAt. rewrite Hsp. destruct sp as [s|]; [| contradiction].
      assert (HA := rec (Absorb s) (col0 + strlen p)%Z (S i)
                        ltac:(simpl; lia)).
      unfold loopSpec in HA. rewrite HA. simpl.
      destruct run as [r|]; [now rewrite Hrun | reflexivity].
    + rewrite lineLoop_Absorb, Hltb, Hpl.
      rewrite (skipn_cons_nth _ _ Hsp), (skipn_cons_nth _ _ Hp).
      unfold absorbs, spanAt, sameSpan. rewrite Hsp.
      destruct sp as [s|]; simpl.
      * destruct (Pos.eqb (spanRef span) (spanRef s)) eqn:E.
        -- exact (rec (Absorb span) (col0 + strlen p)%Z (S i)
                      ltac:(simpl; lia)).
        -- assert (HS := rec Segments col0 i ltac:(simpl; lia)).
           unfold loopSpec in HS. specialize (HS (Some (spanRef span))).
           rewrite (skipn_cons_nth _ _ Hsp), (skipn_cons_nth _ _ Hp) in HS.
           simpl in HS. rewrite E in HS. exact (HS eq_refl).
      * exact (rec (Absorb span) (col0 + strlen p)%Z (S i)
                   ltac:(simpl; lia)).
  - (* past the end of the line *)
    assert (Hltb : (i <? length spans)%nat = false)
      by (apply Nat.ltb_ge; lia).
    assert (Hs : skipn i spans = []) by (apply skipn_all2; lia).
    destruct h as [| |span]; unfold loopSpec.
    + rewrite lineLoop_SkipLeading, Hltb. simpl.
      rewrite lineLoop_Segments, Hltb, Hs. reflexivity.
    + intros run _. rewrite lineLoop_Segments, Hltb, Hs. reflexivity.
    + rewrite lineLoop_Absorb, Hltb. simpl.
      rewrite lineLoop_Segments, Hltb, Hs. reflexivity.
Qed.

Lemma lineCalls_walk (l : _EmittedLine) :
  length (parts l) = length (srcSpans l) ->
  lineCalls l
  = Ok (addLine :: mergedWalk None (indent l * 2) (srcSpans l) (parts l)).
Proof.
  intros Hlen. unfold lineCalls.
  assert (H := @lineLoop_walk (srcSpans l) (parts l) Hlen _ SkipLeading
                 (indent l * strlen _INDENT_WITH)%Z 0 eq_refl).
  unfold loopSpec in H. rewrite H. reflexivity.
Qed.

(** ** The single pass and the fragments that open an entry *)

Lemma lastSpannedRef_snoc pre sp :
  lastSpannedRef (pre ++ [sp])
  = match sp with
    | Some s => Some (spanRef s)
    | None => lastSpannedRef pre
    end.
Proof.
  induction pre as [|a pre IH]; simpl.
  - now destruct sp.
  - rewrite IH. now destruct sp.
Qed.

Lemma totalWidth_app a b :
  totalWidth (a ++ b) = (totalWidth a + totalWidth b)%Z.
Proof.
  induction a as [|p a IH]; simpl; [reflexivity | rewrite IH; lia].
Qed.

Lemma firstn_length_app {A} (a b : list A) : firstn (length a) (a ++ b) = a.
Proof.
  induction a as [|x a IH]; simpl; [now destruct b | now rewrite IH].
Qed.

Lemma nth_error_length_app {A} (a b : list A) x :
  nth_error (a ++ x :: b) (length a) = Some x.
Proof.
  induction a as [|y a IH]; simpl; [reflexivity | exact IH].
Qed.

Lemma startsRun_at pre sp rest :
  startsRun (pre ++ sp :: rest) (length pre)
  = match sp with
    | Some s =>
        match lastSpannedRef pre with
        | Some r => negb (Pos.eqb r (spanRef s))
        | None => true
        end
    | None => false
    end.
Proof.
  unfold startsRun, spanAt.
  rewrite nth_error_length_app, firstn_length_app. now destruct sp.
Qed.

Lemma walk_runStarts spans : forall parts pre_s pre_p ind,
  length pre_s = length pre_p ->
  length spans = length parts ->
  mergedWalk (lastSpannedRef pre_s) (ind * 2 + totalWidth pre_p) spans parts
  = flat_map (runEntry {| parts := pre_p ++ parts;
                          srcSpans := pre_s ++ spans;
                          indent := ind |})
             (filter (startsRun (pre_s ++ spans))
                     (seq (length pre_s) (length spans))).
Proof.
  induction spans as [|sp spans IH]; intros parts pre_s pre_p ind Hpre Hlen.
  - reflexivity.
  - destruct parts as [|p parts]; [discriminate |].
    simpl in Hlen. injection Hlen as Hlen.
    assert (Hpre' : length (pre_s ++ [sp]) = length (pre_p ++ [p]))
      by (rewrite !length_app; simpl; lia).
    specialize (IH parts (pre_s ++ [sp]) (pre_p ++ [p]) ind Hpre' Hlen).
    rewrite lastSpannedRef_snoc, totalWidth_app in IH. simpl in IH.
    rewrite <- !app_assoc in IH. simpl in IH.
    rewrite length_app in IH. simpl in IH.
    replace (length pre_s + 1) with (S (length pre_s)) in IH by lia.
    replace (ind * 2 + (totalWidth pre_p + (strlen p + 0)))%Z
      with (ind * 2 + totalWidth pre_p + strlen p)%Z in IH by lia.
    cbn [mergedWalk length seq filter]. rewrite startsRun_at.
    destruct sp as [s|].
    + destruct (lastSpannedRef pre_s) as [r|] eqn:Er.
      * destruct (Pos.eqb r (spanRef s)) eqn:E; simpl.
        -- apply Pos.eqb_eq in E. subst r. exact IH.
        -- rewrite IH. f_equal.
           unfold runEntry, spanAt, columnAt. simpl.
           rewrite nth_error_length_app, Hpre, firstn_length_app.
           reflexivity.
      * simpl. rewrite IH. f_equal.
        unfold runEntry, spanAt, columnAt. simpl.
        rewrite nth_error_length_app, Hpre, firstn_length_app.
        reflexivity.
    + exact IH.
Qed.

Lemma lineCalls_spec (l : _EmittedLine) :
  length (parts l) = length (srcSpans l) ->
  lineCalls l = Ok (specLineCalls l).
Proof.
  intros Hlen. rewrite (lineCalls_walk l Hlen).
  unfold specLineCalls, runStarts. do 2 f_equal.
  assert (H := @walk_runStarts (srcSpans l) (parts l) [] [] (indent l)
                 eq_refl (eq_sym Hlen)).
  simpl in H. rewrite Z.add_0_r in H. rewrite H.
  now destruct l.
Qed.

(** ** Counting and ordering the calls of a line *)

Lemma countCalls_app p a b :
  countCalls p (a ++ b) = countCalls p a + countCalls p b.
Proof.
  unfold countCalls. now rewrite filter_app, length_app.
Qed.

Lemma walk_counts spans : forall parts run col0,
  length spans = length parts ->
  countCalls isAddMapping (mergedWalk run col0 spans parts)
    = mergedRuns run spans
  /\ countCalls isAddSource (mergedWalk run col0 spans parts)
     = mergedRuns run spans
  /\ countCalls isAddLine (mergedWalk run col0 spans parts) = 0
  /\ sourceThenMapping (mergedWalk run col0 spans parts) = true.
Proof.
  induction spans as [|sp spans IH]; intros parts run col0 Hlen.
  - now repeat split.
  - destruct parts as [|p parts]; [discriminate |].
    simpl in Hlen. injection Hlen as Hlen. cbn [mergedWalk mergedRuns].
    destruct sp as [s|]; [| now apply IH].
    destruct (match run with
              | Some r => Pos.eqb r (spanRef s)
              | None => false
              end); [now apply IH |].
    destruct (IH parts (Some (spanRef s)) (col0 + strlen p)%Z Hlen)
      as (H1 & H2 & H3 & H4).
    unfold countCalls in *. simpl. rewrite H1, H2, H3, H4.
    now rewrite String.eqb_refl.
Qed.

Lemma mappingColumns_walk_bound spans : forall parts run col0,
  Forall (fun p => (0 < strlen p)%Z) parts ->
  Forall (fun c => (col0 <= c)%Z)
         (mappingColumns (mergedWalk run col0 spans parts)).
Proof.
  induction spans as [|sp spans IH]; intros parts run col0 Hne;
    [constructor |].
  destruct parts as [|p parts]; [constructor |].
  inversion Hne as [|? ? Hp Hps]; subst.
  assert (Hrest : forall run',
            Forall (fun c => (col0 <= c)%Z)
                   (mappingColumns
                      (mergedWalk run' (col0 + strlen p) spans parts))).
  { intros run'. eapply Forall_impl; [| exact (IH parts run' _ Hps)].
    simpl. intros c Hc. lia. }
  cbn [mergedWalk]. destruct sp as [s|]; [| apply Hrest].
  destruct (match run with
            | Some r => Pos.eqb r (spanRef s)
            | None => false
            end); [apply Hrest |].
  simpl. constructor; [lia | apply Hrest].
Qed.

Lemma mappingColumns_walk_sorted spans : forall parts run col0,
  Forall (fun p => (0 < strlen p)%Z) parts ->
  StronglySorted Z.lt (mappingColumns (mergedWalk run col0 spans parts)).
Proof.
  induction spans as [|sp spans IH]; intros parts run col0 Hne;
    [constructor |].
  destruct parts as [|p parts]; [constructor |].
  inversion Hne as [|? ? Hp Hps]; subst.
  cbn [mergedWalk]. destruct sp as [s|]; [| now apply IH].
  destruct (match run with
            | Some r => Pos.eqb r (spanRef s)
            | None => false
            end); [now apply IH |].
  simpl. constructor; [now apply IH |].
  eapply Forall_impl;
    [| exact (mappingColumns_walk_bound spans (Some (spanRef s))
                (col0 + strlen p) Hps)].
  simpl. intros c Hc. lia.
Qed.

Lemma walk_spanless spans : forall parts run col0,
  Forall (fun sp => sp = None) spans ->
  mergedWalk run col0 spans parts = [].
Proof.
  induction spans as [|sp spans IH]; intros parts run col0 Hall;
    [reflexivity |].
  inversion Hall as [|? ? Hsp Hrest]; subst.
  destruct parts as [|p parts]; [reflexivity |]. simpl. now apply IH.
Qed.

(** ** All the lines *)

Lemma forEachLine_walk (lines : list _EmittedLine) :
  Forall (fun l => length (parts l) = length (srcSpans l)) lines ->
  forEachLine lines
  = Ok (flat_map (fun l => addLine :: mergedWalk None (indent l * 2)
                                        (srcSpans l) (parts l))
                 lines).
Proof.
  induction 1 as [|l lines Hl Hall IH]; simpl; [reflexivity |].
  now rewrite (lineCalls_walk l Hl), IH.
Qed.

Lemma removelast_In {A} (l : list A) x : In x (removelast l) -> In x l.
Proof.
  induction l as [|y l IH]; simpl; [tauto |].
  destruct l as [|z l]; [simpl; tauto |].
  intros [H | H]; [now left | right; now apply IH].
Qed.

Lemma sourceLines_In ctx l : In l (sourceLines ctx) -> In l (_lines ctx).
Proof.
  unfold sourceLines. destruct (_currentLine ctx) as [c|]; [| tauto].
  destruct (length (parts c) =? 0)%nat; [apply removelast_In | tauto].
Qed.

Lemma sourceLines_Forall (P : _EmittedLine -> Prop) ctx :
  Forall P (_lines ctx) -> Forall P (sourceLines ctx).
Proof.
  rewrite !Forall_forall. intros H l Hl. apply H. now apply sourceLines_In.
Qed.

(** ** Position map: the claims *)

(** C10.  On a line with as many parts as span slots, the calls are those
    of the fragments that open an entry: a spanned fragment whose nearest
    spanned predecessor on the line, if any, carries another span object.
    Spanless fragments never open an entry and never close the run in
    progress, so only those before the first spanned fragment lie outside
    every run; span [s], a spanless fragment, then [s] again give one
    entry.  The column of an entry is the indent depth times two plus the
    widths of the earlier fragments of the line. *)
Theorem C10_absorbed_fragments (l : _EmittedLine) :
  length (parts l) = length (srcSpans l) ->
  lineCalls l = Ok (specLineCalls l)
  /\ (forall i, In i (runStarts (srcSpans l)) ->
        exists s, nth_error (srcSpans l) i = Some (Some s)
                  /\ runEntry l i
                     = entryCalls (indent l * 2
                                   + totalWidth (firstn i (parts l))) s)
  /\ (forall s p q r ind,
        lineCalls {| parts := [p; q; r];
                     srcSpans := [Some s; None; Some s];
                     indent := ind |}
        = Ok (addLine :: entryCalls (ind * 2) s)).
Proof.
  intros Hlen. split; [now apply lineCalls_spec |]. split.
  - intros i Hi. unfold runStarts in Hi. apply filter_In in Hi.
    destruct Hi as [_ Hi]. unfold startsRun, spanAt in Hi.
    unfold runEntry, spanAt, columnAt.
    destruct (nth_error (srcSpans l) i) as [[s|]|]; try discriminate.
    exists s. now split.
  - intros s p q r ind. rewrite lineCalls_spec by reflexivity.
    unfold specLineCalls, runStarts, startsRun, runEntry, spanAt, columnAt.
    simpl. rewrite Pos.eqb_refl. simpl. now rewrite Z.add_0_r.
Qed.

Lemma C10_absorbed_fragments_witness :
  lineCalls Sample.callSameSpanLine
  = Ok (specLineCalls Sample.callSameSpanLine).
Proof.
  exact (proj1 (C10_absorbed_fragments Sample.callSameSpanLine eq_refl)).
Defined.

Lemma mergedRuns_spanned run spans :
  mergedRuns run spans
  = sameSpanRuns run (filter (fun sp => negb (isNone sp)) spans).
Proof.
  revert run. induction spans as [|[s|] spans IH]; intros run; simpl.
  - reflexivity.
  - destruct run as [r|]; [destruct (Pos.eqb r (spanRef s)) eqn:E |];
      simpl.
    + apply Pos.eqb_eq in E. subst r. apply IH.
    + now rewrite IH.
    + now rewrite IH.
  - apply IH.
Qed.

(** C1, as amended.  The number of mapping entries of a context is the
    sum, over its finalized lines, of the number of runs of the line,
    where a run starts at a spanned fragment and goes on through the
    fragments that carry the same span object or no span; each line is
    counted from scratch, so no run continues from one line into the
    next; a line without any spanned fragment gives no entry; and two
    adjacent fragments with the same span object give one entry.  The
    runs of a line are also the maximal runs of equal span objects in
    the sequence of its spanned fragments, the spanless ones left
    aside. *)
Theorem C1_merged_runs (ctx : EmitterVisitorContext) (file : option string)
    (startsAtLine : Z) :
  Forall (fun l => length (parts l) = length (srcSpans l)) (_lines ctx) ->
  (exists calls,
     toSourceMapGenerator ctx file startsAtLine = Ok calls
     /\ countCalls isAddMapping calls
        = list_sum (map (fun l => mergedRuns None (srcSpans l))
                        (sourceLines ctx)))
  /\ (forall l, In l (sourceLines ctx) ->
        exists entries,
          lineCalls l = Ok (addLine :: entries)
          /\ countCalls isAddMapping entries = mergedRuns None (srcSpans l)
          /\ mergedRuns None (srcSpans l)
             = sameSpanRuns None
                 (filter (fun sp => negb (isNone sp)) (srcSpans l))
          /\ (Forall (fun sp => sp = None) (srcSpans l) -> entries = []))
  /\ (forall s p q ind,
        lineCalls {| parts := [p; q];
                     srcSpans := [Some s; Some s];
                     indent := ind |}
        = Ok (addLine :: entryCalls (ind * 2) s)).
Proof.
  intros Hwf. split; [| split].
  - unfold toSourceMapGenerator.
    rewrite (forEachLine_walk (@sourceLines_Forall _ ctx Hwf)).
    eexists. split; [reflexivity |].
    rewrite countCalls_app.
    assert (Hrep : forall n, countCalls isAddMapping (repeat addLine n) = 0)
      by (induction n; simpl; auto).
    rewrite Hrep. simpl.
    assert (Hsub := @sourceLines_Forall _ ctx Hwf).
    induction Hsub as [|l ls Hl Hls IH]; [reflexivity |].
    cbn [flat_map map list_sum].
    change (addLine :: mergedWalk None (indent l * 2) (srcSpans l) (parts l))
      with ([addLine] ++ mergedWalk None (indent l * 2) (srcSpans l)
                                     (parts l)).
    rewrite !countCalls_app, IH.
    destruct (walk_counts (srcSpans l) (parts l) None (indent l * 2)
                (eq_sym Hl)) as (H1 & _).
    rewrite H1. reflexivity.
  - intros l Hl.
    assert (Hlen : length (parts l) = length (srcSpans l)).
    { rewrite Forall_forall in Hwf. apply Hwf. now apply sourceLines_In. }
    exists (mergedWalk None (indent l * 2) (srcSpans l) (parts l)).
    split; [now apply lineCalls_walk |]. split; [| split].
    + now apply walk_counts.
    + apply mergedRuns_spanned.
    + now apply walk_spanless.
  - intros s p q ind. rewrite lineCalls_walk by reflexivity.
    simpl. rewrite Pos.eqb_refl. reflexivity.
Qed.

Lemma C1_merged_runs_witness :
  exists calls,
    toSourceMapGenerator
      {| _exportedVars := []; _lines := [Sample.callSameSpanLine];
         _indent := 0 |} None 0 = Ok calls
    /\ countCalls isAddMapping calls = 1.
Proof.
  refine (proj1 (C1_merged_runs
                   {| _exportedVars := [];
                      _lines := [Sample.callSameSpanLine];
                      _indent := 0 |} None 0 _)).
  simpl. constructor; [reflexivity | constructor].
Defined.

(** C1 as the specification words it fails on the line of [f(a,b)] whose
    two arguments share a span object: the code issues one mapping, while
    the line has two maximal runs of adjacent fragments with that span
    (the separator between them has no span). *)
Lemma C1_counterexample :
  Sample.renderExpression Sample.callSameSpan
  = Ok {| _exportedVars := []; _lines := [Sample.callSameSpanLine];
          _indent := 0 |}
  /\ lineCalls Sample.callSameSpanLine
     = Ok (addLine :: entryCalls 2 Sample.spanS)
  /\ countCalls isAddMapping (entryCalls 2 Sample.spanS) = 1
  /\ sameSpanRuns None (srcSpans Sample.callSameSpanLine) = 2.
Proof.
  repeat split; vm_compute; reflexivity.
Qed.

Lemma countCalls_repeat_addLine n :
  countCalls isAddLine (repeat addLine n) = n.
Proof.
  unfold countCalls. induction n as [|n IH]; simpl; [reflexivity |].
  now rewrite IH.
Qed.

Lemma countCalls_addLine_perLine (perLine : list (list Call)) :
  Forall (fun cs => countCalls isAddLine cs = 0) perLine ->
  countCalls isAddLine (flat_map (cons addLine) perLine) = length perLine.
Proof.
  induction 1 as [|cs rest Hcs Hrest IH]; [reflexivity |].
  cbn [flat_map length].
  change (addLine :: cs) with ([addLine] ++ cs).
  rewrite !countCalls_app, Hcs, IH. reflexivity.
Qed.

(** C2, as amended.  The calls are [startsAtLine] times [addLine()], then
    for each finalized line, in order, one [addLine()] followed by the
    calls of the line; the calls of a line hold no [addLine()], are pairs
    of an [addSource] directly followed by the [addMapping] of the same
    url, one pair per merged run of the line (so [addSource] is called
    once per run, not once per distinct file), and the generated columns
    of the [addMapping] calls of a line increase strictly. *)
Theorem C2_call_sequence (ctx : EmitterVisitorContext)
    (file : option string) (startsAtLine : Z) :
  wfContext ctx ->
  exists perLine : list (list Call),
    toSourceMapGenerator ctx file startsAtLine
    = Ok (repeat addLine (Z.to_nat startsAtLine)
          ++ flat_map (cons addLine) perLine)
    /\ Forall2 (fun l calls =>
                  lineCalls l = Ok (addLine :: calls)
                  /\ countCalls isAddLine calls = 0
                  /\ sourceThenMapping calls = true
                  /\ countCalls isAddSource calls
                     = mergedRuns None (srcSpans l)
                  /\ countCalls isAddMapping calls
                     = mergedRuns None (srcSpans l)
                  /\ StronglySorted Z.lt (mappingColumns calls))
               (sourceLines ctx) perLine
    /\ countCalls isAddLine
         (repeat addLine (Z.to_nat startsAtLine)
          ++ flat_map (cons addLine) perLine)
       = Z.to_nat startsAtLine + length (sourceLines ctx).
Proof.
  intros Hwf.
  assert (Hsrc := @sourceLines_Forall _ ctx Hwf).
  set (walk := fun l => mergedWalk None (indent l * 2) (srcSpans l)
                                   (parts l)).
  exists (map walk (sourceLines ctx)).
  assert (Hall : Forall2 (fun l calls =>
                  lineCalls l = Ok (addLine :: calls)
                  /\ countCalls isAddLine calls = 0
                  /\ sourceThenMapping calls = true
                  /\ countCalls isAddSource calls
                     = mergedRuns None (srcSpans l)
                  /\ countCalls isAddMapping calls
                     = mergedRuns None (srcSpans l)
                  /\ StronglySorted Z.lt (mappingColumns calls))
               (sourceLines ctx) (map walk (sourceLines ctx))).
  { induction Hsrc as [|l ls [Hlen Hne] Hls IH]; simpl; constructor;
      [| exact IH].
    destruct (walk_counts (srcSpans l) (parts l) None (indent l * 2)
                (eq_sym Hlen)) as (H1 & H2 & H3 & H4).
    split; [now apply lineCalls_walk |].
    repeat split; try assumption.
    now apply mappingColumns_walk_sorted. }
  split; [| split; [exact Hall |]].
  - unfold toSourceMapGenerator.
    rewrite forEachLine_walk.
    + do 2 f_equal. clear. induction (sourceLines ctx) as [|l ls IH];
        simpl; [reflexivity | now rewrite IH].
    + eapply Forall_impl; [| exact Hsrc]. now intros l [Hlen _].
  - rewrite countCalls_app, countCalls_repeat_addLine.
    rewrite countCalls_addLine_perLine, length_map; [reflexivity |].
    clear - Hall. induction Hall as [|l cs ls css H _ IH]; constructor;
      [apply H | exact IH].
Qed.

Lemma C2_call_sequence_witness :
  exists perLine : list (list Call),
    toSourceMapGenerator
      {| _exportedVars := []; _lines := [Sample.sumTwoSpansLine];
         _indent := 0 |} None 3
    = Ok (repeat addLine 3 ++ flat_map (cons addLine) perLine)
    /\ Forall2 (fun l calls =>
                  lineCalls l = Ok (addLine :: calls)
                  /\ countCalls isAddLine calls = 0
                  /\ sourceThenMapping calls = true
                  /\ countCalls isAddSource calls
                     = mergedRuns None (srcSpans l)
                  /\ countCalls isAddMapping calls
                     = mergedRuns None (srcSpans l)
                  /\ StronglySorted Z.lt (mappingColumns calls))
               [Sample.sumTwoSpansLine] perLine
    /\ countCalls isAddLine
         (repeat addLine 3 ++ flat_map (cons addLine) perLine)
       = 4.
Proof.
  refine (@C2_call_sequence
            {| _exportedVars := []; _lines := [Sample.sumTwoSpansLine];
               _indent := 0 |} None 3 _).
  unfold wfContext, wfLine. simpl.
  constructor; [| constructor].
  split; [reflexivity |]. repeat constructor.
Defined.

(** C2 as the specification words it fails on the line of [(a + b)] whose
    operands have two span objects of the one file [a.ts]: [addSource] is
    called twice, once before each [addMapping], and a single distinct
    file was met. *)
Lemma C2_counterexample :
  Sample.renderExpression Sample.sumTwoSpans
  = Ok {| _exportedVars := []; _lines := [Sample.sumTwoSpansLine];
          _indent := 0 |}
  /\ toSourceMapGenerator
       {| _exportedVars := []; _lines := [Sample.sumTwoSpansLine];
          _indent := 0 |} None 0
     = Ok [addLine;
           addSource "a.ts" "let a = 1;"; addMapping 1 "a.ts" 3 4;
           addSource "a.ts" "let a = 1;"; addMapping 5 "a.ts" 5 6]
  /\ countCalls isAddSource
       [addLine;
        addSource "a.ts" "let a = 1;"; addMapping 1 "a.ts" 3 4;
        addSource "a.ts" "let a = 1;"; addMapping 5 "a.ts" 5 6] = 2
  /\ length (nodup string_dec
               (sourceUrls
                  [addLine;
                   addSource "a.ts" "let a = 1;"; addMapping 1 "a.ts" 3 4;
                   addSource "a.ts" "let a = 1;"; addMapping 5 "a.ts" 5 6]))
     = 1.
Proof.
  repeat split; vm_compute; reflexivity.
Qed.

(** ** The context operations on a context with a line in progress *)

Lemma snoc_cases {A} (l : list A) :
  l = [] \/ exists init x, l = init ++ [x].
Proof.
  destruct l as [|a l]; [now left | right].
  destruct (@exists_last _ (a :: l)) as (init & x & H); [discriminate |].
  now exists init, x.
Qed.

Lemma nth_error_snoc {A} (init : list A) x :
  nth_error (init ++ [x]) (length (init ++ [x]) - 1) = Some x.
Proof.
  rewrite length_app. simpl.
  replace (length init + 1 - 1) with (length init) by lia.
  apply nth_error_length_app.
Qed.

Lemma context_eta ctx :
  ctx = mkContext (_exportedVars ctx) (_lines ctx) (_indent ctx).
Proof. now destruct ctx. Qed.

Lemma currentLine_snoc ev init cur ind :
  _currentLine (mkContext ev (init ++ [cur]) ind) = Some cur.
Proof. unfold _currentLine. simpl. apply nth_error_snoc. Qed.

Lemma print_snoc from part newLine ev init cur ind :
  print from part newLine (mkContext ev (init ++ [cur]) ind)
  = Ok (tt, mkContext ev
              ((init ++ [addPart from part cur])
               ++ (if newLine then [new_EmittedLine ind] else []))
              ind).
Proof.
  unfold print, bind, pushPart, pushLine, ret, addPart.
  destruct (0 <? strlen part)%Z.
  - rewrite currentLine_snoc. unfold setCurrentLine. simpl.
    rewrite removelast_last.
    destruct newLine; [reflexivity |]. now rewrite app_nil_r.
  - destruct newLine; [reflexivity |]. now rewrite app_nil_r.
Qed.

Lemma print_nil from part newLine ev ind :
  print from part newLine (mkContext ev [] ind)
  = if (0 <? strlen part)%Z then Throw TypeError
    else Ok (tt, mkContext ev (if newLine then [new_EmittedLine ind] else [])
                   ind).
Proof.
  unfold print, bind, pushPart, pushLine, ret.
  destruct (0 <? strlen part)%Z; [reflexivity |]. now destruct newLine.
Qed.

Lemma setIndent_snoc d ev init cur ind :
  setIndent d (mkContext ev (init ++ [cur]) ind)
  = Ok (tt, mkContext ev (init ++ [withIndent (ind + d) cur]) (ind + d)).
Proof.
  unfold setIndent. rewrite currentLine_snoc. simpl.
  now rewrite removelast_last.
Qed.

Lemma lineIsEmpty_snoc ev init cur ind :
  lineIsEmpty (mkContext ev (init ++ [cur]) ind)
  = Ok ((length (parts cur) =? 0)%nat, mkContext ev (init ++ [cur]) ind).
Proof. unfold lineIsEmpty. now rewrite currentLine_snoc. Qed.

Lemma removeEmptyLastLine_snoc ev init cur ind :
  removeEmptyLastLine (mkContext ev (init ++ [cur]) ind)
  = Ok (tt, if (length (parts cur) =? 0)%nat
            then mkContext ev init ind
            else mkContext ev (init ++ [cur]) ind).
Proof.
  unfold removeEmptyLastLine, bind. rewrite lineIsEmpty_snoc.
  destruct (length (parts cur) =? 0)%nat; [| reflexivity].
  simpl. now rewrite removelast_last.
Qed.




(** ** Indentation under sequences of operations *)


Lemma exec_runOps_cons op ops ctx ctx' :
  exec (runOps (op :: ops)) ctx = Ok ctx' ->
  exists ctx1, runOp op ctx = Ok (tt, ctx1)
               /\ exec (runOps ops) ctx1 = Ok ctx'.
Proof.
  unfold exec, runOps. simpl. unfold bind at 1.
  destruct (runOp op ctx) as [[[] ctx1]|e]; [| discriminate].
  intros H. now exists ctx1.
Qed.

Lemma exec_runOps_nil ctx ctx' : exec (runOps []) ctx = Ok ctx' -> ctx' = ctx.
Proof. unfold exec, runOps. simpl. now intros [= ->]. Qed.


Lemma runOp_indent op ctx ctx' :
  runOp op ctx = Ok (tt, ctx') ->
  _indent ctx' = (_indent ctx + indentDelta op)%Z
  /\ forall P : _EmittedLine -> Prop,
       (forall l from part, P l -> P (addPart from part l)) ->
       (forall l, P l -> P (withIndent (_indent ctx') l)) ->
       P (new_EmittedLine (_indent ctx')) ->
       Forall P (_lines ctx) -> Forall P (_lines ctx').
Proof.
  rewrite (context_eta ctx). destruct ctx as [ev lines ind]. simpl.
  destruct (snoc_cases lines) as [-> | (init & cur & ->)].
  - fold (mkContext ev [] ind).
    destruct op as [from part newLine | | |]; simpl; try discriminate.
    rewrite print_nil. destruct (0 <? strlen part)%Z; [discriminate |].
    intros [= <-]. simpl. split; [lia |].
    intros P _ _ Hnew _. destruct newLine; repeat constructor. exact Hnew.
  - fold (mkContext ev (init ++ [cur]) ind).
    destruct op as [from part newLine | | |]; simpl.
    + rewrite print_snoc. intros [= <-]. simpl. split; [lia |].
      intros P Hadd _ Hnew HF. apply Forall_app in HF. destruct HF as [HF Hc].
      inversion Hc; subst.
      apply Forall_app. split.
      * apply Forall_app. split; [exact HF |]. constructor; auto.
      * destruct newLine; repeat constructor. exact Hnew.
    + unfold incIndent. rewrite setIndent_snoc. intros [= <-]. simpl.
      split; [reflexivity |].
      intros P _ Hset _ HF. apply Forall_app in HF. destruct HF as [HF Hc].
      inversion Hc; subst.
      apply Forall_app. split; [exact HF |]. constructor; auto.
    + unfold decIndent. rewrite setIndent_snoc. intros [= <-]. simpl.
      split; [reflexivity |].
      intros P _ Hset _ HF. apply Forall_app in HF. destruct HF as [HF Hc].
      inversion Hc; subst.
      apply Forall_app. split; [exact HF |]. constructor; auto.
    + rewrite removeEmptyLastLine_snoc. intros [= <-].
      destruct (length (parts cur) =? 0)%nat; simpl; (split; [lia |]).
      * intros P _ _ _ HF. apply Forall_app in HF. tauto.
      * intros P _ _ _ HF. exact HF.
Qed.



(** ** Induction on the output trees *)

Section ExpressionInduction.
Variable P : Expression -> Prop.
Hypothesis HReadVar : forall sp name, P (ReadVarExpr sp name).
Hypothesis HWriteVar : forall sp name value,
  P value -> P (WriteVarExpr sp name value).
Hypothesis HWriteKey : forall sp receiver index value,
  P receiver -> P index -> P value ->
  P (WriteKeyExpr sp receiver index value).
Hypothesis HWriteProp : forall sp receiver name value,
  P receiver -> P value -> P (WritePropExpr sp receiver name value).
Hypothesis HInvokeMethod : forall sp receiver name args,
  P receiver -> Forall P args -> P (InvokeMethodExpr sp receiver name args).
Hypothesis HInvokeFunction : forall sp fn args,
  P fn -> Forall P args -> P (InvokeFunctionExpr sp fn args).
Hypothesis HInstantiate : forall sp classExpr args,
  P classExpr -> Forall P args -> P (InstantiateExpr sp classExpr args).
Hypothesis HLiteral : forall sp value, P (LiteralExpr sp value).
Hypothesis HConditional : forall sp condition trueCase falseCase,
  P condition -> P trueCase -> P falseCase ->
  P (ConditionalExpr sp condition trueCase falseCase).
Hypothesis HNot : forall sp condition,
  P condition -> P (NotExpr sp condition).
Hypothesis HBinary : forall sp operator lhs rhs,
  P lhs -> P rhs -> P (BinaryOperatorExpr sp operator lhs rhs).
Hypothesis HReadProp : forall sp receiver name,
  P receiver -> P (ReadPropExpr sp receiver name).
Hypothesis HReadKey : forall sp receiver index,
  P receiver -> P index -> P (ReadKeyExpr sp receiver index).
Hypothesis HLiteralArray : forall sp entries,
  Forall P entries -> P (LiteralArrayExpr sp entries).
Hypothesis HLiteralMap : forall sp entries,
  Forall (fun entry => match entry with MapEntry _ value _ => P value end)
         entries ->
  P (LiteralMapExpr sp entries).

Lemma Expression_induction : forall e, P e.
Proof.
  fix IH 1. intros e.
  assert (IHs : forall l, Forall P l).
  { intros l. induction l as [|a l IHl]; constructor;
      [apply IH | exact IHl]. }
  destruct e as [sp name | sp name value | sp receiver index value
                | sp receiver name value | sp receiver name args
                | sp fn args | sp classExpr args | sp value
                | sp condition trueCase falseCase | sp condition
                | sp operator lhs rhs | sp receiver name
                | sp receiver index | sp entries | sp entries].
  - apply HReadVar.
  - apply HWriteVar; apply IH.
  - apply HWriteKey; apply IH.
  - apply HWriteProp; apply IH.
  - apply HInvokeMethod; [apply IH | apply IHs].
  - apply HInvokeFunction; [apply IH | apply IHs].
  - apply HInstantiate; [apply IH | apply IHs].
  - apply HLiteral.
  - apply HConditional; apply IH.
  - apply HNot; apply IH.
  - apply HBinary; apply IH.
  - apply HReadProp; apply IH.
  - apply HReadKey; apply IH.
  - apply HLiteralArray; apply IHs.
  - apply HLiteralMap.
    induction entries as [|[key value quoted] entries IHe]; constructor;
      [apply IH | exact IHe].
Qed.
End ExpressionInduction.

Section StatementInduction.
Variable P : Statement -> Prop.
Hypothesis HExpression : forall sp expr, P (ExpressionStatement sp expr).
Hypothesis HReturn : forall sp value, P (ReturnStatement sp value).
Hypothesis HIf : forall sp condition trueCase falseCase,
  Forall P trueCase -> Forall P falseCase ->
  P (IfStmt sp condition trueCase falseCase).
Hypothesis HThrow : forall sp error, P (ThrowStmt sp error).
Hypothesis HComment : forall sp comment, P (CommentStmt sp comment).

Lemma Statement_induction : forall s, P s.
Proof.
  fix IH 1. intros s.
  assert (IHs : forall l, Forall P l).
  { intros l. induction l as [|a l IHl]; constructor;
      [apply IH | exact IHl]. }
  destruct s as [sp expr | sp value | sp condition trueCase falseCase
                | sp error | sp comment].
  - apply HExpression.
  - apply HReturn.
  - apply HIf; apply IHs.
  - apply HThrow.
  - apply HComment.
Qed.
End StatementInduction.

(** ** Rendering only writes further *)

Lemma bind_ok {A B} (m : Emit A) (k : A -> Emit B) ctx a ctx' :
  m ctx = Ok (a, ctx') -> bind m k ctx = k a ctx'.
Proof. unfold bind. now intros ->. Qed.

Lemma bind_throw {A B} (m : Emit A) (k : A -> Emit B) ctx e :
  m ctx = Throw e -> bind m k ctx = Throw e.
Proof. unfold bind. now intros ->. Qed.

Lemma hasLine_snoc ctx :
  hasLine ctx -> exists init cur, _lines ctx = init ++ [cur].
Proof.
  unfold hasLine. destruct (snoc_cases (_lines ctx)) as [H | H];
    [congruence | now intros _].
Qed.

Lemma extendsLine_refl cur : extendsLine cur cur.
Proof. exists [], []. now rewrite !app_nil_r. Qed.

Lemma extendsLine_trans a b c :
  extendsLine a b -> extendsLine b c -> extendsLine a c.
Proof.
  intros (ps & ss & Hp & Hs) (ps' & ss' & Hp' & Hs').
  exists (ps ++ ps'), (ss ++ ss').
  rewrite Hp', Hs', Hp, Hs, !app_assoc. now split.
Qed.

Lemma extendsLine_addPart from part cur :
  extendsLine cur (addPart from part cur).
Proof.
  unfold addPart. destruct (0 <? strlen part)%Z;
    [| apply extendsLine_refl].
  now exists [part], [from].
Qed.

Lemma extendsLine_withIndent n cur : extendsLine cur (withIndent n cur).
Proof. exists [], []. simpl. now rewrite !app_nil_r. Qed.

Lemma extendsContext_refl ctx : hasLine ctx -> extendsContext ctx ctx.
Proof.
  intros H. destruct (hasLine_snoc H) as (init & cur & E).
  split; [reflexivity |]. exists init, cur, cur, [].
  repeat split; [exact E | exact E | apply extendsLine_refl].
Qed.

Lemma extendsContext_trans a b c :
  extendsContext a b -> extendsContext b c -> extendsContext a c.
Proof.
  intros [Hev (init & cur & cur' & more & Ha & Hb & Hext)]
         [Hev' (init2 & cur2 & cur2' & more2 & Hb2 & Hc & Hext2)].
  split; [congruence |].
  rewrite Hb in Hb2.
  destruct (snoc_cases more) as [-> | (m & x & ->)].
  - apply app_inj_tail in Hb2. destruct Hb2 as [<- <-].
    exists init, cur, cur2', more2. repeat split; try assumption.
    eapply extendsLine_trans; eassumption.
  - change (init ++ cur' :: m ++ [x]) with (init ++ (cur' :: m) ++ [x])
      in Hb2.
    rewrite app_assoc in Hb2. apply app_inj_tail in Hb2.
    destruct Hb2 as [<- <-].
    exists init, cur, cur', (m ++ cur2' :: more2).
    repeat split; try assumption.
    rewrite Hc, <- app_assoc. reflexivity.
Qed.

Lemma extendsContext_hasLine a b : extendsContext a b -> hasLine b.
Proof.
  intros [_ (init & cur & cur' & more & _ & Hb & _)]. unfold hasLine.
  rewrite Hb. now destruct init.
Qed.

Lemma steps_refl ctx : hasLine ctx -> steps 0 ctx ctx.
Proof. intros H. split; [now apply extendsContext_refl | lia]. Qed.

Lemma steps_trans d1 d2 a b c :
  steps d1 a b -> steps d2 b c -> steps (d1 + d2) a c.
Proof.
  intros [H1 E1] [H2 E2]. split; [| lia].
  eapply extendsContext_trans; eassumption.
Qed.

Lemma steps_hasLine d a b : steps d a b -> hasLine b.
Proof. intros [H _]. eapply extendsContext_hasLine; eassumption. Qed.

Lemma endsLine_steps a b : endsLine a b -> steps 0 a b.
Proof.
  intros (Hev & Hind & init & cur & cur' & more & Ha & Hb & Hext).
  split; [| lia]. split; [exact Hev |].
  exists init, cur, cur', (more ++ [new_EmittedLine (_indent a)]).
  now repeat split.
Qed.

Lemma print_steps from part newLine ctx :
  hasLine ctx ->
  exists ctx', print from part newLine ctx = Ok (tt, ctx')
               /\ steps 0 ctx ctx'.
Proof.
  intros H. destruct (hasLine_snoc H) as (init & cur & E).
  rewrite (context_eta ctx), E, print_snoc.
  eexists. split; [reflexivity |]. split; [| simpl; lia].
  split; [reflexivity |].
  exists init, cur, (addPart from part cur),
    (if newLine then [new_EmittedLine (_indent ctx)] else []).
  simpl. rewrite <- app_assoc. simpl.
  repeat split. apply extendsLine_addPart.
Qed.

Lemma setIndent_steps d ctx :
  hasLine ctx ->
  exists ctx', setIndent d ctx = Ok (tt, ctx') /\ steps d ctx ctx'.
Proof.
  intros H. destruct (hasLine_snoc H) as (init & cur & E).
  rewrite (context_eta ctx), E, setIndent_snoc.
  eexists. split; [reflexivity |]. split; [| reflexivity].
  split; [reflexivity |].
  exists init, cur, (withIndent (_indent ctx + d) cur), [].
  simpl. repeat split. apply extendsLine_withIndent.
Qed.

(** Printing a last part and opening a line, after code that wrote
    further. *)
Lemma println_endsLine from part a b :
  steps 0 a b ->
  exists c, println from part b = Ok (tt, c) /\ endsLine a c.
Proof.
  intros [[Hev (init & cur & cur' & more & Ha & Hb & Hext)] Hind].
  unfold println. rewrite (context_eta b), Hb.
  destruct (snoc_cases more) as [-> | (m & x & ->)].
  - rewrite print_snoc. eexists. split; [reflexivity |].
    split; [exact Hev |]. split; [simpl; lia |].
    exists init, cur, (addPart from part cur'), [].
    simpl. rewrite <- app_assoc. simpl.
    replace (_indent b) with (_indent a) by lia.
    repeat split; [exact Ha |].
    eapply extendsLine_trans; [exact Hext | apply extendsLine_addPart].
  - change (init ++ cur' :: m ++ [x]) with (init ++ (cur' :: m) ++ [x]).
    rewrite app_assoc, print_snoc. eexists. split; [reflexivity |].
    split; [exact Hev |]. split; [simpl; lia |].
    exists init, cur, cur', (m ++ [addPart from part x]).
    simpl. rewrite <- ?app_assoc. simpl.
    replace (_indent b) with (_indent a) by lia.
    rewrite <- ?app_assoc. simpl.
    repeat split; [exact Ha | exact Hext].
Qed.

(** *** Combining outcomes *)

Lemma outcome_ret : outcome (ret tt) None 0.
Proof.
  intros ctx H. exists ctx. split; [reflexivity | now apply steps_refl].
Qed.

Lemma outcome_print from part newLine :
  outcome (print from part newLine) None 0.
Proof. intros ctx H. now apply print_steps. Qed.

Lemma outcome_setIndent d : outcome (setIndent d) None d.
Proof. intros ctx H. now apply setIndent_steps. Qed.

Lemma outcome_bind m k f1 f2 d1 d2 f d :
  outcome m f1 d1 -> outcome k f2 d2 ->
  f = firstOf f1 f2 -> d = (d1 + d2)%Z ->
  outcome (m ;; k) f d.
Proof.
  intros Hm Hk -> -> ctx H. specialize (Hm ctx H).
  destruct f1 as [x|]; simpl.
  - now apply bind_throw.
  - destruct Hm as (ctx1 & E1 & S1). erewrite bind_ok by exact E1.
    specialize (Hk ctx1 (steps_hasLine S1)).
    destruct f2 as [x|]; [exact Hk |].
    destruct Hk as (ctx2 & E2 & S2). exists ctx2. split; [exact E2 |].
    eapply steps_trans; eassumption.
Qed.

Lemma outcome_if (b : bool) m1 m2 f d :
  outcome m1 f d -> outcome m2 f d -> outcome (if b then m1 else m2) f d.
Proof. now destruct b. Qed.

Lemma outcome_lineIsEmpty (k : bool -> Emit unit) f d :
  (forall b, outcome (k b) f d) -> outcome (b <- lineIsEmpty ;; k b) f d.
Proof.
  intros Hk ctx H. destruct (hasLine_snoc H) as (init & cur & E).
  assert (El : lineIsEmpty ctx = Ok ((length (parts cur) =? 0)%nat, ctx)).
  { rewrite (context_eta ctx) at 1 2. rewrite E, lineIsEmpty_snoc.
    now rewrite <- E, <- context_eta. }
  erewrite bind_ok by exact El. now apply Hk.
Qed.

Lemma outcome_liftResult {A} (r : result A) (k : A -> Emit unit) f d :
  (forall a, r = Ok a -> outcome (k a) f d) ->
  outcome (a <- liftResult r ;; k a) (firstOf (thrown r) f) d.
Proof.
  intros Hk ctx H. destruct r as [a|e]; simpl.
  - unfold bind, liftResult. now apply Hk.
  - reflexivity.
Qed.

Lemma firstOf_None_r f : firstOf f None = f.
Proof. now destruct f. Qed.

Lemma outcome_visitAllObjectsFrom {T} (handler : T -> Emit unit)
    (fatal : T -> option exn) separator newLine (l : list T) :
  Forall (fun x => outcome (handler x) (fatal x) 0) l ->
  forall i, outcome (visitAllObjectsFrom handler i l separator newLine)
                    (firstFatal fatal l) 0.
Proof.
  induction 1 as [|x l Hx Hl IH]; intros i; simpl.
  - apply outcome_ret.
  - eapply outcome_bind;
      [apply outcome_if; [apply outcome_print | apply outcome_ret] | |
       reflexivity | reflexivity].
    eapply outcome_bind; [exact Hx | apply IH | reflexivity | reflexivity].
Qed.

Lemma outcome_visitAllObjects {T} (handler : T -> Emit unit)
    (fatal : T -> option exn) separator newLine (l : list T) :
  Forall (fun x => outcome (handler x) (fatal x) 0) l ->
  outcome (visitAllObjects handler l separator newLine)
          (firstFatal fatal l) 0.
Proof.
  intros H. unfold visitAllObjects.
  eapply outcome_bind;
    [apply outcome_visitAllObjectsFrom; exact H | |
     now rewrite firstOf_None_r | reflexivity].
  apply outcome_if; [apply outcome_print | apply outcome_ret].
Qed.

(** *** Expressions *)

Ltac outcome_chain :=
  lazymatch goal with
  | |- outcome (ret tt) _ _ => apply outcome_ret
  | |- outcome (print _ _ _) _ _ => apply outcome_print
  | |- outcome (println _ _) _ _ => apply outcome_print
  | |- outcome incIndent _ _ => apply outcome_setIndent
  | |- outcome decIndent _ _ => apply outcome_setIndent
  | |- outcome (if _ then _ else _) _ _ => apply outcome_if; outcome_chain
  | |- outcome (bind lineIsEmpty _) _ _ =>
      apply outcome_lineIsEmpty; intros ?; outcome_chain
  | |- outcome (bind _ _) _ _ =>
      eapply outcome_bind;
      [outcome_chain | outcome_chain
       | simpl; rewrite ?firstOf_None_r; reflexivity | reflexivity]
  | |- outcome (visitAllObjects _ _ _ _) _ _ =>
      apply outcome_visitAllObjects; eassumption
  | |- _ => eassumption
  end.

Lemma visitExpression_outcome (this : AbstractEmitterVisitor) :
  forall e, outcome (visitExpression this e) (fatalExpression this e) 0.
Proof.
  induction e using Expression_induction;
    cbn [visitExpression fatalExpression].
  - destruct name as [n | builtin].
    + intros ctx H. unfold bind, ret. now apply print_steps.
    + rewrite <- (firstOf_None_r (thrown (builtinVarName builtin))).
      apply outcome_liftResult. intros a _. apply outcome_print.
  - outcome_chain.
  - outcome_chain.
  - outcome_chain.
  - fold (methodName this name).
    eapply outcome_bind; [eassumption | | reflexivity | reflexivity].
    destruct (methodName this name); outcome_chain.
  - outcome_chain.
  - outcome_chain.
  - apply outcome_print.
  - outcome_chain.
  - outcome_chain.
  - apply outcome_liftResult. intros a _. outcome_chain.
  - outcome_chain.
  - outcome_chain.
  - outcome_chain.
  - match goal with
    | |- context [visitAllObjects ?h entries _ _] =>
        assert (Hentries :
                  Forall (fun entry =>
                            outcome (h entry)
                              (match entry with
                               | MapEntry _ value _ =>
                                   fatalExpression this value
                               end) 0) entries)
    end.
    { eapply Forall_impl; [| eassumption].
      intros [key value quoted] Hv. outcome_chain. }
    eapply outcome_bind;
      [apply outcome_print
      | eapply outcome_bind;
          [apply outcome_setIndent
          | eapply outcome_bind;
              [apply outcome_visitAllObjects; exact Hentries
              | outcome_chain
              | simpl; rewrite ?firstOf_None_r; reflexivity
              | reflexivity]
          | reflexivity | reflexivity]
      | reflexivity | reflexivity].
Qed.

(** *** Statements *)

Lemma extendsContext_length a b :
  extendsContext a b -> length (_lines a) <= length (_lines b).
Proof.
  intros [_ (init & cur & cur' & more & Ha & Hb & _)].
  rewrite Ha, Hb, !length_app. simpl. lia.
Qed.

Lemma endsLine_iff a c :
  endsLine a c
  <-> steps 0 a c
      /\ exists front,
           _lines c = front ++ [new_EmittedLine (_indent a)]
           /\ length (_lines a) <= length front.
Proof.
  split.
  - intros H. split; [now apply endsLine_steps |].
    destruct H as (Hev & Hind & init & cur & cur' & more & Ha & Hc & Hext).
    exists (init ++ cur' :: more). split.
    + rewrite Hc, <- app_assoc. reflexivity.
    + rewrite Ha, !length_app. simpl. lia.
  - intros [[[Hev (init & cur & cur' & more & Ha & Hc & Hext)] Hind]
            (front & Hfront & Hlen)].
    split; [exact Hev |]. split; [lia |].
    exists init, cur, cur'.
    destruct (snoc_cases more) as [-> | (m & x & ->)].
    + exfalso. rewrite Hc in Hfront. apply app_inj_tail in Hfront.
      destruct Hfront as [<- _]. rewrite Ha, length_app in Hlen.
      simpl in Hlen. lia.
    + exists m. repeat split; try assumption.
      rewrite Hc in Hfront |- *.
      change (init ++ cur' :: m ++ [x]) with (init ++ (cur' :: m) ++ [x])
        in Hfront.
      rewrite app_assoc in Hfront. apply app_inj_tail in Hfront.
      destruct Hfront as [_ ->]. reflexivity.
Qed.

Lemma steps_endsLine_trans a b c :
  steps 0 a b -> endsLine b c -> endsLine a c.
Proof.
  intros Hab Hbc. apply endsLine_iff in Hbc.
  destruct Hbc as [Hbc (front & Hfront & Hlen)].
  apply endsLine_iff. split.
  - exact (steps_trans Hab Hbc).
  - exists front. destruct Hab as [Hext Hind]. split.
    + rewrite Hfront. do 3 f_equal. lia.
    + apply extendsContext_length in Hext. lia.
Qed.

Lemma outcomeLine_outcome m f : outcomeLine m f -> outcome m f 0.
Proof.
  intros H ctx Hctx. specialize (H ctx Hctx). destruct f; [exact H |].
  destruct H as (ctx' & E & HE). exists ctx'. split; [exact E |].
  now apply endsLine_steps.
Qed.

Lemma outcome_println m f from part :
  outcome m f 0 -> outcomeLine (m ;; println from part) f.
Proof.
  intros H ctx Hctx. specialize (H ctx Hctx). destruct f as [x|].
  - now apply bind_throw.
  - destruct H as (ctx1 & E1 & S1). erewrite bind_ok by exact E1.
    now apply println_endsLine.
Qed.

Lemma outcomeLine_println from part : outcomeLine (println from part) None.
Proof.
  intros ctx Hctx. apply println_endsLine. now apply steps_refl.
Qed.

Lemma outcome_bind_line m k f1 f2 f :
  outcome m f1 0 -> outcomeLine k f2 -> f = firstOf f1 f2 ->
  outcomeLine (m ;; k) f.
Proof.
  intros Hm Hk -> ctx H. specialize (Hm ctx H).
  destruct f1 as [x|]; simpl.
  - now apply bind_throw.
  - destruct Hm as (ctx1 & E1 & S1). erewrite bind_ok by exact E1.
    specialize (Hk ctx1 (steps_hasLine S1)).
    destruct f2 as [x|]; [exact Hk |].
    destruct Hk as (ctx2 & E2 & S2). exists ctx2. split; [exact E2 |].
    eapply steps_endsLine_trans; eassumption.
Qed.

Lemma outcome_forEach {T} (handler : T -> Emit unit)
    (fatal : T -> option exn) (l : list T) :
  Forall (fun x => outcomeLine (handler x) (fatal x)) l ->
  outcome (forEach handler l) (firstFatal fatal l) 0.
Proof.
  induction 1 as [|x l Hx Hl IH]; simpl.
  - apply outcome_ret.
  - eapply outcome_bind;
      [apply outcomeLine_outcome; exact Hx | exact IH
       | reflexivity | reflexivity].
Qed.

Lemma outcomeLine_forEach {T} (handler : T -> Emit unit)
    (fatal : T -> option exn) (l : list T) :
  l <> [] ->
  Forall (fun x => outcomeLine (handler x) (fatal x)) l ->
  outcomeLine (forEach handler l) (firstFatal fatal l).
Proof.
  intros Hne H. induction H as [|x l Hx Hl IH]; [congruence |].
  destruct l as [|y l].
  - simpl. rewrite firstOf_None_r. intros ctx Hctx.
    specialize (Hx ctx Hctx). destruct (fatal x) as [e|].
    + now apply bind_throw.
    + destruct Hx as (ctx' & E & HE). erewrite bind_ok by exact E.
      exists ctx'. now split.
  - cbn [forEach firstFatal].
    eapply outcome_bind_line;
      [apply outcomeLine_outcome; exact Hx | apply IH; discriminate
       | reflexivity].
Qed.

(** The single-line form of the true branch: a blank, the statement if
    there is one, the removal of the line it opened, a blank. *)
Lemma inlineBranch_outcome (handler : Statement -> Emit unit)
    (fatal : Statement -> option exn) sp (trueCase : list Statement) :
  length trueCase <= 1 ->
  Forall (fun s => outcomeLine (handler s) (fatal s)) trueCase ->
  outcome (print sp " " false ;;
           forEach handler trueCase ;;
           removeEmptyLastLine ;;
           print sp " " false)
          (firstFatal fatal trueCase) 0.
Proof.
  intros Hlen Hall ctx Hctx.
  destruct (hasLine_snoc Hctx) as (init & cur & E).
  assert (E1 : print sp " " false ctx
               = Ok (tt, mkContext (_exportedVars ctx)
                           (init ++ [addPart sp " " cur]) (_indent ctx))).
  { rewrite (context_eta ctx) at 1. rewrite E, print_snoc.
    now rewrite app_nil_r. }
  set (ctx1 := mkContext (_exportedVars ctx) (init ++ [addPart sp " " cur])
                         (_indent ctx)) in *.
  assert (S1 : steps 0 ctx ctx1).
  { split; [| simpl; lia]. split; [reflexivity |].
    exists init, cur, (addPart sp " " cur), []. repeat split;
      [exact E | apply extendsLine_addPart]. }
  erewrite bind_ok by exact E1.
  destruct trueCase as [|s [|s' rest]]; [| | simpl in Hlen; lia].
  - cbn [forEach firstFatal].
    erewrite bind_ok by reflexivity.
    assert (E2 : removeEmptyLastLine ctx1 = Ok (tt, ctx1)).
    { unfold ctx1. rewrite removeEmptyLastLine_snoc.
      unfold addPart. simpl. rewrite length_app. simpl.
      replace (length (parts cur) + 1 =? 0)%nat with false; [reflexivity |].
      symmetry. apply Nat.eqb_neq. lia. }
    erewrite bind_ok by exact E2.
    destruct (print_steps sp " " false (steps_hasLine S1))
      as (ctx2 & E3 & S2).
    exists ctx2. split; [exact E3 |]. exact (steps_trans S1 S2).
  - inversion Hall as [|? ? Hs _]; subst. cbn [firstFatal].
    rewrite firstOf_None_r.
    assert (Hfe : forEach handler [s] ctx1 = handler s ctx1).
    { cbn [forEach]. unfold bind, ret.
      now destruct (handler s ctx1) as [[[] c]|]. }
    specialize (Hs ctx1 (steps_hasLine S1)).
    destruct (fatal s) as [x|].
    + apply bind_throw. now rewrite Hfe.
    + destruct Hs as (ctx2 & E2 & HE).
      erewrite bind_ok by (rewrite Hfe; exact E2).
      destruct HE as (Hev & Hind & init1 & cur1 & cur1' & more & Ha & Hb
                      & Hext).
      assert (E3 : removeEmptyLastLine ctx2
                   = Ok (tt, mkContext (_exportedVars ctx2)
                               (init1 ++ cur1' :: more) (_indent ctx2))).
      { rewrite (context_eta ctx2) at 1. rewrite Hb.
        change (init1 ++ cur1' :: more ++ [new_EmittedLine (_indent ctx1)])
          with (init1 ++ (cur1' :: more) ++ [new_EmittedLine (_indent ctx1)]).
        rewrite app_assoc, removeEmptyLastLine_snoc. reflexivity. }
      erewrite bind_ok by exact E3.
      set (ctx3 := mkContext (_exportedVars ctx2) (init1 ++ cur1' :: more)
                             (_indent ctx2)) in *.
      assert (S3 : steps 0 ctx1 ctx3).
      { split; [| unfold ctx3; simpl; rewrite Hind; simpl; lia].
        split; [exact Hev |].
        exists init1, cur1, cur1', more. now repeat split. }
      destruct (print_steps sp " " false (steps_hasLine S3))
        as (ctx4 & E4 & S4).
      exists ctx4. split; [exact E4 |].
      exact (steps_trans S1 (steps_trans S3 S4)).
Qed.

Lemma firstFatal_none {T} (l : list T) :
  firstFatal (fun _ => None) l = None.
Proof. induction l as [|x l IH]; simpl; [reflexivity | exact IH]. Qed.

Lemma splitLines_nonempty s : splitLines s <> [].
Proof.
  induction s as [|c s IH]; simpl; [discriminate |].
  destruct (Ascii.eqb c LF); [discriminate |].
  now destruct (splitLines s).
Qed.

Lemma visitStatement_outcome (this : AbstractEmitterVisitor) :
  forall s, outcomeLine (visitStatement this s) (fatalStatement this s).
Proof.
  induction s as [sp expr | sp value | sp condition trueCase falseCase HT HF
                 | sp error | sp comment] using Statement_induction;
    cbn [visitStatement fatalStatement].
  - apply outcome_println. apply visitExpression_outcome.
  - eapply outcome_bind_line; [apply outcome_print | | reflexivity].
    apply outcome_println. apply visitExpression_outcome.
  - eapply outcome_bind_line; [apply outcome_print | | reflexivity].
    eapply outcome_bind_line;
      [apply visitExpression_outcome | | reflexivity].
    eapply outcome_bind_line; [apply outcome_print | | reflexivity].
    apply outcome_println.
    destruct ((length trueCase <=? 1)%nat
              && negb (0 <? length falseCase)%nat) eqn:Einline.
    + apply andb_prop in Einline. destruct Einline as [Hlen _].
      apply Nat.leb_le in Hlen.
      apply inlineBranch_outcome; assumption.
    + assert (HTo := outcome_forEach _ _ HT).
      assert (HFo := outcome_forEach _ _ HF).
      destruct (0 <? length falseCase)%nat eqn:Helse; cbv iota.
      * outcome_chain.
      * assert (falseCase = []) as ->.
        { apply Nat.ltb_ge in Helse. destruct falseCase;
            [reflexivity | simpl in Helse; lia]. }
        outcome_chain.
  - eapply outcome_bind_line; [apply outcome_print | | reflexivity].
    apply outcome_println. apply visitExpression_outcome.
  - rewrite <- (firstFatal_none (splitLines comment)).
    apply outcomeLine_forEach; [apply splitLines_nonempty |].
    apply Forall_forall. intros line _. apply outcomeLine_println.
Qed.

(** ** The two fatal conditions *)

(** ** Rendering keeps the lines as [print] builds them *)

Lemma wfLine_addPart from part l : wfLine l -> wfLine (addPart from part l).
Proof.
  unfold wfLine, addPart. intros [Hlen Hne].
  destruct (0 <? strlen part)%Z eqn:E; [| now split]. simpl. split.
  - rewrite !length_app, Hlen. reflexivity.
  - apply Forall_app. split; [exact Hne |]. constructor; [| constructor].
    now apply Z.ltb_lt.
Qed.

Lemma createRoot_wf exportedVars : wfContext (createRoot exportedVars).
Proof.
  unfold wfContext, createRoot, newContext. simpl.
  constructor; [| constructor]. split; [reflexivity | constructor].
Qed.

Lemma runOp_wf op : keepsWf (runOp op).
Proof.
  intros ctx [] ctx' Hwf Hrun. unfold wfContext in *.
  apply runOp_indent in Hrun. destruct Hrun as [_ Hkeep].
  apply Hkeep; try assumption.
  - intros l from part Hl. now apply wfLine_addPart.
  - intros l Hl. exact Hl.
  - split; [reflexivity | constructor].
Qed.

Lemma runOps_wf ops : forall ctx ctx',
  wfContext ctx -> exec (runOps ops) ctx = Ok ctx' -> wfContext ctx'.
Proof.
  induction ops as [|op ops IH]; intros ctx ctx' Hwf Hrun.
  - apply exec_runOps_nil in Hrun. now subst.
  - apply exec_runOps_cons in Hrun. destruct Hrun as (ctx1 & H1 & H2).
    apply (IH ctx1 ctx'); [| exact H2]. exact (@runOp_wf op ctx tt ctx1 Hwf H1).
Qed.

Lemma keepsWf_ret {A} (a : A) : keepsWf (ret a).
Proof. intros ctx b ctx' Hwf [= _ <-]. exact Hwf. Qed.

Lemma keepsWf_bind {A B} (m : Emit A) (k : A -> Emit B) :
  keepsWf m -> (forall a, keepsWf (k a)) -> keepsWf (bind m k).
Proof.
  intros Hm Hk ctx b ctx' Hwf. unfold bind.
  destruct (m ctx) as [[a ctx1]|e] eqn:E; [| discriminate].
  intros H. exact (Hk a ctx1 b ctx' (Hm ctx a ctx1 Hwf E) H).
Qed.

Lemma keepsWf_if {A} (c : bool) (a b : Emit A) :
  keepsWf a -> keepsWf b -> keepsWf (if c then a else b).
Proof. now destruct c. Qed.

Lemma keepsWf_print from part newLine : keepsWf (print from part newLine).
Proof. exact (runOp_wf (OpPrint from part newLine)). Qed.

Lemma keepsWf_incIndent : keepsWf incIndent.
Proof. exact (runOp_wf OpIncIndent). Qed.

Lemma keepsWf_decIndent : keepsWf decIndent.
Proof. exact (runOp_wf OpDecIndent). Qed.

Lemma keepsWf_removeEmptyLastLine : keepsWf removeEmptyLastLine.
Proof. exact (runOp_wf OpRemoveEmptyLastLine). Qed.

Lemma keepsWf_lineIsEmpty : keepsWf lineIsEmpty.
Proof.
  intros ctx b ctx' Hwf. unfold lineIsEmpty.
  destruct (_currentLine ctx); [| discriminate]. now intros [= _ <-].
Qed.

Lemma keepsWf_liftResult {A} (r : result A) : keepsWf (liftResult r).
Proof.
  intros ctx a ctx' Hwf. unfold liftResult.
  destruct r; [| discriminate]. now intros [= _ <-].
Qed.

Lemma keepsWf_visitAllObjects {T} (handler : T -> Emit unit) separator
    newLine (l : list T) :
  Forall (fun x => keepsWf (handler x)) l ->
  keepsWf (visitAllObjects handler l separator newLine).
Proof.
  intros H. unfold visitAllObjects. apply keepsWf_bind.
  - generalize 0. induction H as [|x l Hx Hl IH]; intros i; simpl.
    + apply keepsWf_ret.
    + apply keepsWf_bind;
        [apply keepsWf_if; [apply keepsWf_print | apply keepsWf_ret] |].
      intros _. apply keepsWf_bind; [exact Hx | intros _; apply IH].
  - intros _. apply keepsWf_if; [apply keepsWf_print | apply keepsWf_ret].
Qed.

Lemma keepsWf_forEach {T} (handler : T -> Emit unit) (l : list T) :
  Forall (fun x => keepsWf (handler x)) l -> keepsWf (forEach handler l).
Proof.
  induction 1 as [|x l Hx Hl IH]; simpl.
  - apply keepsWf_ret.
  - apply keepsWf_bind; [exact Hx | intros _; exact IH].
Qed.

Ltac wf_chain :=
  lazymatch goal with
  | |- keepsWf (ret _) => apply keepsWf_ret
  | |- keepsWf (print _ _ _) => apply keepsWf_print
  | |- keepsWf (println _ _) => apply keepsWf_print
  | |- keepsWf incIndent => apply keepsWf_incIndent
  | |- keepsWf decIndent => apply keepsWf_decIndent
  | |- keepsWf removeEmptyLastLine => apply keepsWf_removeEmptyLastLine
  | |- keepsWf lineIsEmpty => apply keepsWf_lineIsEmpty
  | |- keepsWf (liftResult _) => apply keepsWf_liftResult
  | |- keepsWf (if _ then _ else _) => apply keepsWf_if; wf_chain
  | |- keepsWf (bind _ _) =>
      apply keepsWf_bind; [wf_chain | intros ?; wf_chain]
  | |- keepsWf (visitAllObjects _ _ _ _) =>
      apply keepsWf_visitAllObjects; eassumption
  | |- keepsWf (forEach _ _) => apply keepsWf_forEach; eassumption
  | |- _ => eassumption
  end.

Lemma visitExpression_wf (this : AbstractEmitterVisitor) :
  forall e, keepsWf (visitExpression this e).
Proof.
  induction e using Expression_induction; cbn [visitExpression].
  - destruct name; wf_chain.
  - wf_chain.
  - wf_chain.
  - wf_chain.
  - apply keepsWf_bind; [assumption | intros _].
    destruct (match name with
              | inl n => Some n
              | inr builtin => getBuiltinMethodName this builtin
              end); wf_chain.
  - wf_chain.
  - wf_chain.
  - wf_chain.
  - wf_chain.
  - wf_chain.
  - wf_chain.
  - wf_chain.
  - wf_chain.
  - wf_chain.
  - apply keepsWf_bind; [apply keepsWf_print | intros _].
    apply keepsWf_bind; [apply keepsWf_incIndent | intros _].
    apply keepsWf_bind; [| intros _; wf_chain].
    apply keepsWf_visitAllObjects.
    eapply Forall_impl; [| eassumption].
    intros [key value quoted] Hv. wf_chain.
Qed.

Lemma visitStatement_wf (this : AbstractEmitterVisitor) :
  forall s, keepsWf (visitStatement this s).
Proof.
  assert (He := visitExpression_wf this).
  induction s as [sp expr | sp value | sp condition trueCase falseCase HT HF
                 | sp error | sp comment] using Statement_induction;
    cbn [visitStatement].
  - apply keepsWf_bind; [apply He | intros _; wf_chain].
  - apply keepsWf_bind; [wf_chain | intros _].
    apply keepsWf_bind; [apply He | intros _; wf_chain].
  - apply keepsWf_bind; [wf_chain | intros _].
    apply keepsWf_bind; [apply He | intros _].
    apply keepsWf_bind; [wf_chain | intros _].
    apply keepsWf_bind; [| intros _; wf_chain].
    apply keepsWf_if; wf_chain.
  - apply keepsWf_bind; [wf_chain | intros _].
    apply keepsWf_bind; [apply He | intros _; wf_chain].
  - apply keepsWf_forEach. apply Forall_forall. intros line _. wf_chain.
Qed.

(** Every context that the rendering of statements ends in, started from
    a root context, has its lines as [print] builds them. *)
Lemma visitAllStatements_wf (this : AbstractEmitterVisitor)
    (exportedVars : list string) (statements : list Statement)
    (ctx : EmitterVisitorContext) :
  exec (visitAllStatements this statements) (createRoot exportedVars)
  = Ok ctx ->
  wfContext ctx.
Proof.
  unfold exec. intros H.
  destruct (visitAllStatements this statements (createRoot exportedVars))
    as [[[] ctx1]|e] eqn:E; [| discriminate].
  injection H as <-.
  refine (@keepsWf_forEach _ (visitStatement this) statements _ _ tt ctx1
            (createRoot_wf exportedVars) E).
  apply Forall_forall. intros s _. apply visitStatement_wf.
Qed.

Lemma firstOf_Some a b x :
  firstOf a b = Some x -> a = Some x \/ b = Some x.
Proof. destruct a; simpl; auto. Qed.

Lemma thrown_builtinVarName b x :
  thrown (builtinVarName b) = Some x ->
  exists tag, b = UnknownBuiltinVar tag
              /\ x = Error ("Unknown builtin variable " ++ showZ tag).
Proof.
  destruct b; simpl; try discriminate. intros [= <-]. now exists tag.
Qed.

Lemma thrown_opStr op x :
  thrown (opStr op) = Some x ->
  exists tag, op = UnknownBinaryOperator tag
              /\ x = Error ("Unknown operator " ++ showZ tag).
Proof.
  destruct op; simpl; try discriminate. intros [= <-]. now exists tag.
Qed.

Lemma fatalExpression_kind (this : AbstractEmitterVisitor) x :
  forall e, fatalExpression this e = Some x ->
            isUnknownTagError x /\ knownTags e = false.
Proof.
  assert (Hlist : forall l,
            Forall (fun e => fatalExpression this e = Some x ->
                             isUnknownTagError x /\ knownTags e = false) l ->
            firstFatal (fatalExpression this) l = Some x ->
            isUnknownTagError x /\ forallb knownTags l = false).
  { intros l HF Hl. induction HF as [|e l He _ IH]; [discriminate |].
    simpl in *. apply firstOf_Some in Hl. destruct Hl as [Hl | Hl].
    - destruct (He Hl) as [H1 H2]. now rewrite H2.
    - destruct (IH Hl) as [H1 H2]. rewrite H2. now rewrite andb_false_r. }
  induction e using Expression_induction;
    cbn [fatalExpression knownTags]; intros Hx;
    repeat match goal with
           | H : firstOf _ _ = Some _ |- _ =>
               apply firstOf_Some in H; destruct H as [H | H]
           end;
    try discriminate;
    try (match goal with
         | IH : fatalExpression _ ?e = Some _ -> _,
           H : fatalExpression _ ?e = Some _ |- _ =>
             destruct (IH H) as [H1 H2]; split; [exact H1 |];
             rewrite H2; now rewrite ?andb_false_r
         end).
  - destruct name as [n | builtin]; [discriminate |].
    apply thrown_builtinVarName in Hx. destruct Hx as (tag & -> & ->).
    split; [left; now exists tag | reflexivity].
  - destruct (methodName this name); [| discriminate].
    destruct (Hlist _ H Hx) as [H1 H2]. split; [exact H1 |].
    rewrite H2. now rewrite andb_false_r.
  - destruct (Hlist _ H Hx) as [H1 H2]. split; [exact H1 |].
    rewrite H2. now rewrite andb_false_r.
  - destruct (Hlist _ H Hx) as [H1 H2]. split; [exact H1 |].
    rewrite H2. now rewrite andb_false_r.
  - apply thrown_opStr in Hx. destruct Hx as (tag & -> & ->).
    split; [right; now exists tag | reflexivity].
  - exact (Hlist _ H Hx).
  - induction H as [|[key value quoted] l He _ IH]; [discriminate |].
    simpl in *. apply firstOf_Some in Hx. destruct Hx as [Hx | Hx].
    + destruct (He Hx) as [H1 H2]. now rewrite H2.
    + destruct (IH Hx) as [H1 H2]. rewrite H2. now rewrite andb_false_r.
Qed.

Lemma fatalStatement_kind (this : AbstractEmitterVisitor) x :
  forall s, fatalStatement this s = Some x ->
            isUnknownTagError x /\ knownTagsStatement s = false.
Proof.
  assert (Hlist : forall l,
            Forall (fun s => fatalStatement this s = Some x ->
                             isUnknownTagError x
                             /\ knownTagsStatement s = false) l ->
            firstFatal (fatalStatement this) l = Some x ->
            isUnknownTagError x /\ forallb knownTagsStatement l = false).
  { intros l HF Hl. induction HF as [|e l He _ IH]; [discriminate |].
    simpl in *. apply firstOf_Some in Hl. destruct Hl as [Hl | Hl].
    - destruct (He Hl) as [H1 H2]. now rewrite H2.
    - destruct (IH Hl) as [H1 H2]. rewrite H2. now rewrite andb_false_r. }
  induction s as [sp expr | sp value | sp condition trueCase falseCase HT HF
                 | sp error | sp comment] using Statement_induction;
    cbn [fatalStatement knownTagsStatement]; intros Hx;
    try (now apply (fatalExpression_kind this)); try discriminate.
  apply firstOf_Some in Hx. destruct Hx as [Hx | Hx].
  - destruct (fatalExpression_kind this _ Hx) as [H1 H2].
    now rewrite H2.
  - destruct ((length trueCase <=? 1)%nat
              && negb (0 <? length falseCase)%nat).
    + destruct (Hlist _ HT Hx) as [H1 H2]. split; [exact H1 |].
      rewrite H2. now rewrite andb_false_r.
    + apply firstOf_Some in Hx. destruct Hx as [Hx | Hx].
      * destruct (Hlist _ HT Hx) as [H1 H2]. split; [exact H1 |].
        rewrite H2. now rewrite andb_false_r.
      * destruct (Hlist _ HF Hx) as [H1 H2]. split; [exact H1 |].
        rewrite H2. now rewrite andb_false_r.
Qed.

(** C6.  On a context with a line in progress, rendering an expression
    or a statement raises exactly when the visitor reaches a read of a
    variable whose builtin tag is none of the four recognized ones, or a
    binary operator outside the table; the exception is then the
    diagnostic that names the tag of the first such node.  A tree all of
    whose tags are recognized, whatever its shape (empty blocks and empty
    collections included), always renders. *)
Theorem C6_two_fatal_conditions (this : AbstractEmitterVisitor)
    (ctx : EmitterVisitorContext) :
  hasLine ctx ->
  (forall e,
     match fatalExpression this e with
     | Some x => visitExpression this e ctx = Throw x
                 /\ isUnknownTagError x /\ knownTags e = false
     | None => isOk (visitExpression this e ctx) = true
     end)
  /\ (forall s,
        match fatalStatement this s with
        | Some x => visitStatement this s ctx = Throw x
                    /\ isUnknownTagError x /\ knownTagsStatement s = false
        | None => isOk (visitStatement this s ctx) = true
        end)
  /\ (forall e, knownTags e = true ->
                isOk (visitExpression this e ctx) = true)
  /\ (forall s, knownTagsStatement s = true ->
                isOk (visitStatement this s ctx) = true)
  /\ (forall sp tag,
        visitExpression this (ReadVarExpr sp (inr (UnknownBuiltinVar tag)))
                        ctx
        = Throw (Error ("Unknown builtin variable " ++ showZ tag)))
  /\ (forall sp tag lhs rhs,
        visitExpression this
          (BinaryOperatorExpr sp (UnknownBinaryOperator tag) lhs rhs) ctx
        = Throw (Error ("Unknown operator " ++ showZ tag)))
  /\ (forall sp condition,
        knownTags condition = true ->
        isOk (visitStatement this (IfStmt sp condition [] []) ctx) = true
        /\ isOk (visitExpression this (LiteralArrayExpr sp []) ctx) = true
        /\ isOk (visitExpression this (LiteralMapExpr sp []) ctx) = true).
Proof.
  intros Hctx.
  assert (HE : forall e,
     match fatalExpression this e with
     | Some x => visitExpression this e ctx = Throw x
                 /\ isUnknownTagError x /\ knownTags e = false
     | None => isOk (visitExpression this e ctx) = true
     end).
  { intros e. assert (H := visitExpression_outcome this e Hctx).
    destruct (fatalExpression this e) as [x|] eqn:Ef.
    - split; [exact H |]. now apply (fatalExpression_kind this e).
    - destruct H as (ctx' & -> & _). reflexivity. }
  assert (HS : forall s,
        match fatalStatement this s with
        | Some x => visitStatement this s ctx = Throw x
                    /\ isUnknownTagError x /\ knownTagsStatement s = false
        | None => isOk (visitStatement this s ctx) = true
        end).
  { intros s. assert (H := visitStatement_outcome this s Hctx).
    destruct (fatalStatement this s) as [x|] eqn:Ef.
    - split; [exact H |]. now apply (fatalStatement_kind this s).
    - destruct H as (ctx' & -> & _). reflexivity. }
  assert (HEk : forall e, knownTags e = true ->
                          isOk (visitExpression this e ctx) = true).
  { intros e Hk. specialize (HE e).
    destruct (fatalExpression this e); [| exact HE].
    destruct HE as (_ & _ & H). congruence. }
  assert (HSk : forall s, knownTagsStatement s = true ->
                          isOk (visitStatement this s ctx) = true).
  { intros s Hk. specialize (HS s).
    destruct (fatalStatement this s); [| exact HS].
    destruct HS as (_ & _ & H). congruence. }
  split; [exact HE |]. split; [exact HS |]. split; [exact HEk |].
  split; [exact HSk |]. split; [reflexivity |]. split; [reflexivity |].
  intros sp condition Hc. split; [| split; now apply HEk].
  apply HSk. simpl. now rewrite Hc.
Qed.

Lemma C6_two_fatal_conditions_witness :
  isOk (visitStatement Sample.emitter
          (IfStmt None (Sample.var None "c") [] []) (createRoot [])) = true.
Proof.
  refine (proj1 (proj2 (proj2 (proj2 (proj2 (proj2 (proj2
            (@C6_two_fatal_conditions Sample.emitter (createRoot []) _))))))
            None (Sample.var None "c") eq_refl)).
  unfold hasLine. simpl. discriminate.
Defined.

(** ** Rendering on one line *)

Lemma append_empty_r (s : string) : (s ++ "")%string = s.
Proof. induction s as [|c s IH]; simpl; [reflexivity | now rewrite IH]. Qed.

Lemma append_assoc (a b c : string) :
  ((a ++ b) ++ c)%string = (a ++ (b ++ c))%string.
Proof. induction a as [|x a IH]; simpl; [reflexivity | now rewrite IH]. Qed.

Lemma join_empty_cons p ps : join_empty (p :: ps) = (p ++ join_empty ps)%string.
Proof.
  unfold join_empty. destruct ps as [|q ps]; simpl;
    [now rewrite append_empty_r | reflexivity].
Qed.

Lemma join_empty_app a b :
  join_empty (a ++ b) = (join_empty a ++ join_empty b)%string.
Proof.
  induction a as [|p a IH]; [reflexivity |].
  rewrite <- app_comm_cons, !join_empty_cons, IH. now rewrite append_assoc.
Qed.

Lemma appendFragments_compose p1 s1 p2 s2 l :
  appendFragments p2 s2 (appendFragments p1 s1 l)
  = appendFragments (p1 ++ p2) (s1 ++ s2) l.
Proof. unfold appendFragments. simpl. now rewrite !app_assoc. Qed.

Lemma appendFragments_nil l : appendFragments [] [] l = l.
Proof. unfold appendFragments. destruct l. simpl. now rewrite !app_nil_r. Qed.

Lemma nonempty_after_append ps ss (l : _EmittedLine) :
  ps <> [] -> (length (parts (appendFragments ps ss l)) =? 0)%nat = false.
Proof.
  intros H. apply Nat.eqb_neq. simpl. rewrite length_app.
  destruct ps; [congruence | simpl; lia].
Qed.

Lemma nonempty_stays ps ss (l : _EmittedLine) :
  (length (parts l) =? 0)%nat = false ->
  (length (parts (appendFragments ps ss l)) =? 0)%nat = false.
Proof.
  intros H. apply Nat.eqb_neq in H. apply Nat.eqb_neq. simpl.
  rewrite length_app. lia.
Qed.

Lemma print_inline from part ev init cur ind :
  print from part false (mkContext ev (init ++ [cur]) ind)
  = Ok (tt, mkContext ev
              (init ++ [if (0 <? strlen part)%Z
                        then appendFragments [part] [from] cur
                        else cur]) ind).
Proof. rewrite print_snoc, app_nil_r. reflexivity. Qed.

Lemma strlen_zero part : (0 <? strlen part)%Z = false -> part = "".
Proof.
  destruct part; [reflexivity |]. unfold strlen. simpl String.length.
  intros H. apply Z.ltb_ge in H. lia.
Qed.

Lemma emitsInline_print from part b : emitsInline (print from part false) b part.
Proof.
  intros ev init cur _. rewrite print_inline.
  destruct (0 <? strlen part)%Z eqn:E.
  - exists [part], [from]. split; [reflexivity |].
    rewrite join_empty_cons. apply append_empty_r.
  - exists [], []. rewrite appendFragments_nil.
    split; [reflexivity |]. symmetry. now apply strlen_zero.
Qed.

Lemma emitsInline_bind m k t1 t2 :
  emitsInline m false t1 -> emitsInline k false t2 ->
  emitsInline (m ;; k) false (t1 ++ t2).
Proof.
  intros Hm Hk ev init cur Hcur.
  destruct (Hm ev init cur Hcur) as (ps & ss & E1 & <-).
  erewrite bind_ok by exact E1.
  destruct (Hk ev init (appendFragments ps ss cur)
               (nonempty_stays ps ss cur Hcur)) as (ps' & ss' & E2 & <-).
  exists (ps ++ ps'), (ss ++ ss'). split.
  - simpl in E2. rewrite E2, appendFragments_compose. reflexivity.
  - apply join_empty_app.
Qed.

(** After a non-empty part the line is not empty, wherever it started. *)
Lemma emitsInline_print_then from part k b t :
  (0 <? strlen part)%Z = true ->
  emitsInline k false t ->
  emitsInline (print from part false ;; k) b (part ++ t).
Proof.
  intros Hpart Hk ev init cur _.
  erewrite bind_ok by (rewrite print_inline, Hpart; reflexivity).
  destruct (Hk ev init (appendFragments [part] [from] cur)
               (@nonempty_after_append [part] [from] cur
                  ltac:(discriminate))) as (ps' & ss' & E2 & <-).
  exists ([part] ++ ps'), ([from] ++ ss'). split.
  - simpl in E2. rewrite E2, appendFragments_compose. reflexivity.
  - rewrite join_empty_app, join_empty_cons. now rewrite append_empty_r.
Qed.

Lemma emitsInline_then_print m from part k b t1 t2 :
  (0 <? strlen part)%Z = true ->
  emitsInline m b t1 -> emitsInline k false t2 ->
  emitsInline (m ;; print from part false ;; k) b (t1 ++ part ++ t2).
Proof.
  intros Hpart Hm Hk ev init cur Hcur.
  destruct (Hm ev init cur Hcur) as (ps & ss & E1 & <-).
  erewrite bind_ok by exact E1.
  destruct (@emitsInline_print_then from part k
              (length (parts (appendFragments ps ss cur)) =? 0)%nat t2
              Hpart Hk ev init (appendFragments ps ss cur) eq_refl)
    as (ps' & ss' & E2 & E3).
  exists (ps ++ ps'), (ss ++ ss'). split.
  - simpl in E2. rewrite E2, appendFragments_compose. reflexivity.
  - rewrite join_empty_app, E3. reflexivity.
Qed.

Lemma rendersInline_var this sp name b :
  rendersInline this (ReadVarExpr sp (inl name)) b name.
Proof.
  unfold rendersInline. cbn [visitExpression].
  intros ev init cur Hcur.
  erewrite bind_ok by reflexivity.
  exact (@emitsInline_print sp name b ev init cur Hcur).
Qed.

Lemma rendersInline_literal this sp value b :
  rendersInline this (LiteralExpr sp value) b
    (literalText (_escapeDollarInStrings this) value).
Proof. unfold rendersInline. cbn [visitExpression]. apply emitsInline_print. Qed.

(** ** Binary operators *)

Lemma opStr_table operator op :
  opStr operator = Ok op <-> In (operator, op) operatorTable.
Proof.
  split.
  - destruct operator; simpl; intros [= <-]; tauto.
  - unfold operatorTable. simpl. intros H.
    repeat (destruct H as [[= <- <-] | H]; [reflexivity |]).
    contradiction.
Qed.

(** C5.  A binary expression whose operator is in the table of fifteen
    renders as [(], the left operand, a space, the text of the operator,
    a space, the right operand, [)], whatever the operands are and
    wherever the expression stands; when the operands render on one line
    as [tl] and [tr], so does the expression, as [(tl op tr)], which then
    holds again for an expression it is an operand of.  [return a + b;]
    renders as [return (a + b);]. *)
Theorem C5_binary_parenthesized (this : AbstractEmitterVisitor)
    (sp : option ParseSourceSpan) (operator : BinaryOperator) (op : string)
    (lhs rhs : Expression) (tl tr : string) :
  In (operator, op) operatorTable ->
  rendersInline this lhs false tl ->
  rendersInline this rhs false tr ->
  length operatorTable = 15
  /\ (forall lhs' rhs' ctx,
        visitExpression this (BinaryOperatorExpr sp operator lhs' rhs') ctx
        = (print sp "(" false ;;
           visitExpression this lhs' ;;
           print sp (" " ++ op ++ " ") false ;;
           visitExpression this rhs' ;;
           print sp ")" false) ctx)
  /\ (forall onEmptyLine,
        rendersInline this (BinaryOperatorExpr sp operator lhs rhs)
          onEmptyLine ("(" ++ tl ++ " " ++ op ++ " " ++ tr ++ ")"))
  /\ Sample.sourceOf (Sample.renderStatements [Sample.returnSum])
     = Ok "return (a + b);".
Proof.
  intros Hop Hl Hr. apply opStr_table in Hop.
  assert (Hseq : forall lhs' rhs' ctx,
        visitExpression this (BinaryOperatorExpr sp operator lhs' rhs') ctx
        = (print sp "(" false ;;
           visitExpression this lhs' ;;
           print sp (" " ++ op ++ " ") false ;;
           visitExpression this rhs' ;;
           print sp ")" false) ctx).
  { intros lhs' rhs' ctx. cbn [visitExpression]. rewrite Hop. reflexivity. }
  split; [reflexivity |]. split; [exact Hseq |]. split; [| reflexivity].
  intros b ev init cur Hcur. rewrite Hseq.
  assert (H : emitsInline
                (print sp "(" false ;;
                 visitExpression this lhs ;;
                 print sp (" " ++ op ++ " ") false ;;
                 visitExpression this rhs ;;
                 print sp ")" false) b
                ("(" ++ tl ++ (" " ++ op ++ " ") ++ tr ++ ")")).
  { apply emitsInline_print_then; [reflexivity |].
    apply emitsInline_then_print; [reflexivity | exact Hl |].
    apply emitsInline_bind; [exact Hr | apply emitsInline_print]. }
  destruct (H ev init cur Hcur) as (ps & ss & E & Ht).
  exists ps, ss. split; [exact E |]. rewrite Ht.
  simpl. do 2 f_equal. rewrite !append_assoc. reflexivity.
Qed.

Lemma C5_binary_parenthesized_witness :
  rendersInline Sample.emitter
    (BinaryOperatorExpr None Plus (Sample.var None "a") (Sample.var None "b"))
    true "(a + b)".
Proof.
  refine (proj1 (proj2 (proj2
            (@C5_binary_parenthesized Sample.emitter None Plus "+"
               (Sample.var None "a") (Sample.var None "b") "a" "b" _ _ _)))
            true).
  - simpl. tauto.
  - apply rendersInline_var.
  - apply rendersInline_var.
Defined.

(** ** Assignments *)

(** Equality of two runs of [Emit] code built from the same calls. *)
Ltac emit_same :=
  unfold bind, ret;
  repeat match goal with
         | |- context [match ?m ?c with Ok _ => _ | Throw _ => _ end] =>
             destruct (m c) as [[[] ?]|?]
         end;
  reflexivity.

Lemma lineIsEmpty_current ctx cur :
  _currentLine ctx = Some cur ->
  lineIsEmpty ctx = Ok ((length (parts cur) =? 0)%nat, ctx).
Proof. unfold lineIsEmpty. now intros ->. Qed.

Lemma assignment_on_line (this : AbstractEmitterVisitor) e ctx cur :
  isAssignment e = true ->
  _currentLine ctx = Some cur ->
  visitExpression this e ctx
  = if (length (parts cur) =? 0)%nat
    then assignmentBody this e ctx
    else (print (sourceSpanOf e) "(" false ;;
          assignmentBody this e ;;
          print (sourceSpanOf e) ")" false) ctx.
Proof.
  intros He Hcur. apply lineIsEmpty_current in Hcur.
  destruct e; try discriminate; cbn [visitExpression assignmentBody
                                                    sourceSpanOf];
    (erewrite bind_ok by exact Hcur);
    destruct (length (parts cur) =? 0)%nat; cbn [negb]; emit_same.
Qed.

Lemma emitsInline_assignment_empty (this : AbstractEmitterVisitor) e t :
  isAssignment e = true ->
  emitsInline (assignmentBody this e) true t ->
  rendersInline this e true t.
Proof.
  intros He Hbody ev init cur Hcur.
  rewrite (@assignment_on_line this e _ cur He (currentLine_snoc _ _ _ _)).
  rewrite Hcur. now apply Hbody.
Qed.

Lemma emitsInline_assignment_nonempty (this : AbstractEmitterVisitor) e t :
  isAssignment e = true ->
  emitsInline (assignmentBody this e) false t ->
  rendersInline this e false ("(" ++ t ++ ")").
Proof.
  intros He Hbody ev init cur Hcur.
  rewrite (@assignment_on_line this e _ cur He (currentLine_snoc _ _ _ _)).
  rewrite Hcur.
  assert (H : emitsInline
                (print (sourceSpanOf e) "(" false ;;
                 assignmentBody this e ;;
                 print (sourceSpanOf e) ")" false) false
                ("(" ++ t ++ ")")).
  { apply emitsInline_print_then; [reflexivity |].
    apply emitsInline_bind; [exact Hbody | apply emitsInline_print]. }
  now apply H.
Qed.

(** C4.  A write-variable, write-key or write-property expression prints
    its assignment between [(] and [)] when the line in progress already
    has a fragment at the moment its rendering begins, and prints the
    assignment alone when that line is empty.  With operands that render
    on one line the text is [(receiver.name = value)] in the first case
    and [receiver.name = value] in the second, and likewise for the two
    other kinds; [obj.x = 1] renders as [obj.x = 1;] as a statement and
    as [(obj.x = 1)] after [return ]. *)
Theorem C4_assignment_parentheses (this : AbstractEmitterVisitor)
    (e : Expression) (ctx : EmitterVisitorContext) (cur : _EmittedLine) :
  isAssignment e = true ->
  _currentLine ctx = Some cur ->
  (parts cur <> [] ->
   visitExpression this e ctx
   = (print (sourceSpanOf e) "(" false ;;
      assignmentBody this e ;;
      print (sourceSpanOf e) ")" false) ctx)
  /\ (parts cur = [] ->
      visitExpression this e ctx = assignmentBody this e ctx)
  /\ (forall t, emitsInline (assignmentBody this e) false t ->
                rendersInline this e false ("(" ++ t ++ ")"))
  /\ (forall t, emitsInline (assignmentBody this e) true t ->
                rendersInline this e true t)
  /\ (forall sp name value tv b,
        rendersInline this value false tv ->
        emitsInline (assignmentBody this (WriteVarExpr sp name value)) b
                    (name ++ " = " ++ tv))
  /\ (forall sp receiver name value tr tv b,
        rendersInline this receiver b tr ->
        rendersInline this value false tv ->
        emitsInline
          (assignmentBody this (WritePropExpr sp receiver name value)) b
          (tr ++ "." ++ name ++ " = " ++ tv))
  /\ (forall sp receiver index value tr ti tv b,
        rendersInline this receiver b tr ->
        rendersInline this index false ti ->
        rendersInline this value false tv ->
        emitsInline
          (assignmentBody this (WriteKeyExpr sp receiver index value)) b
          (tr ++ "[" ++ ti ++ "] = " ++ tv))
  /\ Sample.sourceOf
       (Sample.renderStatements
          [ExpressionStatement None Sample.propWrite])
     = Ok "obj.x = 1;"
  /\ Sample.sourceOf
       (Sample.renderStatements [ReturnStatement None Sample.propWrite])
     = Ok "return (obj.x = 1);".
Proof.
  intros He Hcur.
  assert (Hline := @assignment_on_line this e ctx cur He Hcur).
  split; [| split; [| split; [| split; [| split; [| split; [| split;
    [| split; reflexivity]]]]]]].
  - intros Hne. rewrite Hline.
    destruct (parts cur); [congruence | reflexivity].
  - intros Hempty. rewrite Hline, Hempty. reflexivity.
  - intros t. now apply emitsInline_assignment_nonempty.
  - intros t. now apply emitsInline_assignment_empty.
  - intros sp name value tv b Hv. cbn [assignmentBody].
    assert (H := @emitsInline_print_then sp (name ++ " = ")
                   (visitExpression this value) b tv).
    rewrite append_assoc in H. apply H; [| exact Hv].
    unfold strlen. rewrite length_append. simpl. apply Z.ltb_lt. lia.
  - intros sp receiver name value tr tv b Hr Hv. cbn [assignmentBody].
    assert (H := @emitsInline_then_print (visitExpression this receiver) sp
                   ("." ++ name ++ " = ") (visitExpression this value)
                   b tr tv).
    replace ((tr ++ ("." ++ name ++ " = ") ++ tv)%string)
      with ((tr ++ "." ++ name ++ " = " ++ tv)%string) in H
      by (simpl; now rewrite append_assoc).
    apply H; [reflexivity | exact Hr | exact Hv].
  - intros sp receiver index value tr ti tv b Hr Hi Hv.
    cbn [assignmentBody].
    apply (@emitsInline_then_print (visitExpression this receiver) sp "["
             _ b tr (ti ++ "] = " ++ tv)); [reflexivity | exact Hr |].
    apply (@emitsInline_then_print (visitExpression this index) sp "] = "
             _ false ti tv); [reflexivity | exact Hi | exact Hv].
Qed.

Lemma C4_assignment_parentheses_witness :
  visitExpression Sample.emitter Sample.propWrite (createRoot [])
  = assignmentBody Sample.emitter Sample.propWrite (createRoot []).
Proof.
  exact (proj1 (proj2
           (@C4_assignment_parentheses Sample.emitter Sample.propWrite
              (createRoot []) (new_EmittedLine 0) eq_refl eq_refl))
           eq_refl).
Defined.

(** ** Literal arrays and maps *)

Lemma visitLiteralArrayExpr_collection this sp entries ctx :
  visitExpression this (LiteralArrayExpr sp entries) ctx
  = visitCollection (visitExpression this) sp "[" "]" entries ctx.
Proof. reflexivity. Qed.

Lemma visitLiteralMapExpr_collection this sp entries ctx :
  visitExpression this (LiteralMapExpr sp entries) ctx
  = visitCollection (visitMapEntry this sp) sp "{" "}" entries ctx.
Proof. reflexivity. Qed.

Lemma println_empty ctx :
  println None "" ctx
  = Ok (tt, mkContext (_exportedVars ctx)
              (_lines ctx ++ [new_EmittedLine (_indent ctx)]) (_indent ctx)).
Proof. reflexivity. Qed.

(** The entries from the second on, each on a fresh line after the
    separator that ends the line before. *)
Lemma block_rest {T} (handler : T -> Emit unit) (l : list T) texts :
  Forall2 (fun x t => emitsInline (handler x) true t) l texts ->
  forall i ev init cur0,
  exists elems,
    visitAllObjectsFrom handler (S i) l "," true
      (mkContext ev (init ++ [cur0]) (indent cur0))
    = Ok (tt, mkContext ev
                (init ++ match l with
                         | [] => [cur0]
                         | _ => appendFragments [","] [None] cur0 :: elems
                         end) (indent cur0))
    /\ Forall2 (lineSpells (indent cur0)) elems (separated "," texts).
Proof.
  induction 1 as [|x t l texts Hx Hl IH]; intros i ev init cur0.
  - exists []. split; [reflexivity | constructor].
  - cbn [visitAllObjectsFrom]. change (0 <? S i)%nat with true. cbv iota.
    erewrite bind_ok by apply print_snoc.
    change (addPart None "," cur0) with (appendFragments [","] [None] cur0).
    destruct (Hx ev (init ++ [appendFragments [","] [None] cur0])
                 (new_EmittedLine (indent cur0)) eq_refl)
      as (ps & ss & E & Ht).
    simpl indent in E. erewrite bind_ok by exact E.
    destruct (IH (S i) ev (init ++ [appendFragments [","] [None] cur0])
                 (appendFragments ps ss (new_EmittedLine (indent cur0))))
      as (elems & E2 & HF).
    simpl indent in E2, HF. rewrite E2.
    set (Lx := appendFragments ps ss (new_EmittedLine (indent cur0))) in *.
    exists (match l with
            | [] => [Lx]
            | _ => appendFragments [","] [None] Lx :: elems
            end).
    split.
    + rewrite <- app_assoc. reflexivity.
    + destruct Hl as [|y t' l texts Hy Hl'].
      * constructor; [| constructor]. split; [reflexivity |]. exact Ht.
      * cbn [separated]. constructor; [| exact HF].
        split; [reflexivity |].
        unfold Lx. simpl. rewrite join_empty_app, Ht. simpl.
        reflexivity.
Qed.

Lemma visitAllObjectsFrom_first {T} (handler : T -> Emit unit) x rest
    separator newLine ctx :
  visitAllObjectsFrom handler 0 (x :: rest) separator newLine ctx
  = (handler x ;; visitAllObjectsFrom handler 1 rest separator newLine) ctx.
Proof. reflexivity. Qed.

(** More than one entry: a block. *)
Lemma visitCollection_block {T} (handler : T -> Emit unit) sp
    (opening closing : string) (l : list T) texts :
  (1 < length l)%nat ->
  (0 <? strlen opening)%Z = true ->
  (0 <? strlen closing)%Z = true ->
  Forall2 (fun x t => emitsInline (handler x) true t) l texts ->
  forall ev init cur,
  exists elems,
    visitCollection handler sp opening closing l
      (mkContext ev (init ++ [cur]) (indent cur))
    = Ok (tt, mkContext ev
                (init ++ appendFragments [opening] [sp] cur
                 :: elems
                 ++ [appendFragments [closing] [sp]
                       (new_EmittedLine (indent cur));
                     new_EmittedLine (indent cur)])
                (indent cur))
    /\ Forall2 (lineSpells (indent cur + 1)) elems (separated "," texts).
Proof.
  intros Hlen Hopen Hclose HF ev init cur.
  destruct HF as [|x t l texts Hx Hl]; [simpl in Hlen; lia |].
  destruct Hl as [|y t' l texts Hy Hl]; [simpl in Hlen; lia |].
  unfold visitCollection. cbv zeta.
  replace (1 <? length (x :: y :: l))%nat with true
    by (symmetry; apply Nat.ltb_lt; simpl; lia).
  erewrite bind_ok by apply print_snoc.
  unfold addPart. rewrite Hopen.
  unfold incIndent. erewrite bind_ok by apply setIndent_snoc.
  change (withIndent (indent cur + 1) (new_EmittedLine (indent cur)))
    with (new_EmittedLine (indent cur + 1)).
  destruct (Hx ev (init ++ [appendFragments [opening] [sp] cur])
               (new_EmittedLine (indent cur + 1)) eq_refl)
    as (ps & ss & E1 & Ht).
  simpl indent in E1.
  set (L1 := appendFragments ps ss (new_EmittedLine (indent cur + 1))) in *.
  destruct (@block_rest T handler (y :: l) (t' :: texts)
              (Forall2_cons y t' Hy Hl) 0 ev
              (init ++ [appendFragments [opening] [sp] cur]) L1)
    as (elems & E2 & HF2).
  simpl indent in E2, HF2.
  assert (E3 : visitAllObjects handler (x :: y :: l) "," true
                 (mkContext ev ((init ++ [appendFragments [opening] [sp] cur])
                                ++ [new_EmittedLine (indent cur + 1)])
                            (indent cur + 1))
               = Ok (tt, mkContext ev
                           ((init ++ appendFragments [opening] [sp] cur
                             :: appendFragments [","] [None] L1 :: elems)
                            ++ [new_EmittedLine (indent cur + 1)])
                           (indent cur + 1))).
  { unfold visitAllObjects.
    erewrite bind_ok
      by (rewrite visitAllObjectsFrom_first;
          erewrite bind_ok by exact E1; exact E2).
    cbv iota. rewrite println_empty. simpl.
    rewrite <- !app_assoc. reflexivity. }
  erewrite bind_ok by exact E3.
  unfold decIndent. erewrite bind_ok by apply setIndent_snoc.
  rewrite print_snoc. unfold addPart. rewrite Hclose.
  exists (appendFragments [","] [None] L1 :: elems).
  split.
  - replace (indent cur + 1 + -1)%Z with (indent cur) by lia.
    unfold withIndent, appendFragments, new_EmittedLine. simpl.
    rewrite <- !app_assoc. simpl. reflexivity.
  - cbn [separated]. constructor; [| exact HF2].
    split; [reflexivity |]. unfold L1. simpl.
    rewrite join_empty_app, Ht. reflexivity.
Qed.

(** No entry: the two brackets. *)
Lemma visitCollection_empty {T} (handler : T -> Emit unit) sp
    (opening closing : string) b :
  (0 <? strlen opening)%Z = true ->
  (0 <? strlen closing)%Z = true ->
  emitsInline (visitCollection handler sp opening closing []) b
              (opening ++ closing).
Proof.
  intros Hopen Hclose ev init cur _.
  unfold visitCollection. cbv zeta. change (1 <? length [])%nat with false.
  erewrite bind_ok by apply print_inline. rewrite Hopen.
  unfold incIndent. erewrite bind_ok by apply setIndent_snoc.
  erewrite bind_ok by reflexivity.
  unfold decIndent. erewrite bind_ok by apply setIndent_snoc.
  rewrite print_inline, Hclose.
  exists [opening; closing], [sp; sp]. split.
  - unfold withIndent, appendFragments. simpl.
    replace (indent cur + 1 + -1)%Z with (indent cur) by lia.
    rewrite <- !app_assoc. reflexivity.
  - rewrite !join_empty_cons. now rewrite append_empty_r.
Qed.

(** One entry: the entry between the brackets, on the line. *)
Lemma visitCollection_single {T} (handler : T -> Emit unit) sp
    (opening closing : string) x t b :
  (0 <? strlen opening)%Z = true ->
  (0 <? strlen closing)%Z = true ->
  emitsInline (handler x) false t ->
  emitsInline (visitCollection handler sp opening closing [x]) b
              (opening ++ t ++ closing).
Proof.
  intros Hopen Hclose Hx ev init cur _.
  unfold visitCollection. cbv zeta. change (1 <? length [x])%nat with false.
  erewrite bind_ok by apply print_inline. rewrite Hopen.
  unfold incIndent. erewrite bind_ok by apply setIndent_snoc.
  destruct (Hx ev init
               (withIndent (indent cur + 1)
                  (appendFragments [opening] [sp] cur)))
    as (ps & ss & E & Ht).
  { apply Nat.eqb_neq. simpl. rewrite length_app. simpl. lia. }
  simpl indent in E.
  assert (E2 : visitAllObjects handler [x] "," false
                 (mkContext ev
                    (init ++ [withIndent (indent cur + 1)
                                (appendFragments [opening] [sp] cur)])
                    (indent cur + 1))
               = Ok (tt, mkContext ev
                           (init ++ [appendFragments ps ss
                                       (withIndent (indent cur + 1)
                                          (appendFragments [opening] [sp]
                                             cur))])
                           (indent cur + 1))).
  { unfold visitAllObjects.
    erewrite bind_ok
      by (rewrite visitAllObjectsFrom_first;
          erewrite bind_ok by exact E; reflexivity).
    reflexivity. }
  erewrite bind_ok by exact E2.
  unfold decIndent. erewrite bind_ok by apply setIndent_snoc.
  rewrite print_inline, Hclose.
  exists ([opening] ++ ps ++ [closing]), ([sp] ++ ss ++ [sp]). split.
  - unfold withIndent, appendFragments. simpl.
    replace (indent cur + 1 + -1)%Z with (indent cur) by lia.
    rewrite <- !app_assoc. reflexivity.
  - rewrite !join_empty_app, Ht, !join_empty_cons.
    now rewrite !append_empty_r.
Qed.

Lemma emitsInline_mapEntry this sp entry t :
  rendersInline this (mapEntryValue entry) false t ->
  forall b, emitsInline (visitMapEntry this sp entry) b
                        (mapEntryKeyText this entry ++ t).
Proof.
  destruct entry as [key value quoted]. simpl. intros Hv b.
  apply emitsInline_print_then; [| exact Hv].
  unfold strlen. rewrite length_append. simpl. apply Z.ltb_lt. lia.
Qed.

Lemma separated_last sep texts d :
  texts <> [] -> last (separated sep texts) d = last texts d.
Proof.
  induction texts as [|t texts IH]; [congruence |]. intros _.
  destruct texts as [|t' texts]; [reflexivity |].
  change (separated sep (t :: t' :: texts))
    with ((t ++ sep)%string :: separated sep (t' :: texts)).
  change (last (t :: t' :: texts) d) with (last (t' :: texts) d).
  rewrite <- IH by discriminate.
  destruct (separated sep (t' :: texts)) eqn:E; [| reflexivity].
  destruct texts; discriminate.
Qed.

(** The block of a collection with more than one entry, whatever the
    entries render as: the opening bracket ends the line in progress,
    the entries are rendered by [visitAllObjects] from a fresh line with
    the counter one level deeper, and the closing bracket stands alone on
    a line at the indent of the counter. *)
Lemma visitCollection_general {T} (handler : T -> Emit unit)
    (fatal : T -> option exn) sp opening closing (entries : list T)
    ev init cur ind :
  Forall (fun x => outcome (handler x) (fatal x) 0) entries ->
  firstFatal fatal entries = None ->
  (1 < length entries)%nat ->
  (0 <? strlen closing)%Z = true ->
  exists body,
    visitCollection handler sp opening closing entries
      (mkContext ev (init ++ [cur]) ind)
    = Ok (tt, mkContext ev
                ((init ++ [addPart sp opening cur]) ++ body
                 ++ [lineOf closing sp ind; new_EmittedLine ind]) ind)
    /\ visitAllObjects handler entries "," true
         (mkContext ev ((init ++ [addPart sp opening cur])
                        ++ [new_EmittedLine (ind + 1)]) (ind + 1))
       = Ok (tt, mkContext ev
                   (((init ++ [addPart sp opening cur]) ++ body)
                    ++ [new_EmittedLine (ind + 1)]) (ind + 1)).
Proof.
  intros Hall Hf Hlen Hclose.
  set (head := init ++ [addPart sp opening cur]).
  assert (Hout : outcomeLine (visitAllObjects handler entries "," true)
                             None).
  { unfold visitAllObjects. rewrite <- Hf. apply outcome_println.
    now apply outcome_visitAllObjectsFrom. }
  destruct (Hout (mkContext ev (head ++ [new_EmittedLine (ind + 1)])
                            (ind + 1)))
    as (c2 & E2 & Hev & Hind & i0 & c0 & c0' & more & Ha & Hb & Hext).
  { unfold hasLine. simpl. now destruct head. }
  simpl in Ha, Hb, Hev, Hind.
  apply app_inj_tail in Ha. destruct Ha as [<- <-].
  assert (Ec2 : c2 = mkContext ev ((head ++ c0' :: more)
                                   ++ [new_EmittedLine (ind + 1)])
                               (ind + 1)).
  { rewrite (context_eta c2), Hev, Hind, Hb. unfold mkContext.
    f_equal. now rewrite <- app_assoc. }
  subst c2. exists (c0' :: more). split; [| exact E2].
  unfold visitCollection. cbv zeta.
  apply Nat.ltb_lt in Hlen. rewrite Hlen.
  erewrite bind_ok by apply print_snoc. fold head.
  unfold incIndent. erewrite bind_ok by apply setIndent_snoc.
  change (withIndent (ind + 1) (new_EmittedLine ind))
    with (new_EmittedLine (ind + 1)).
  erewrite bind_ok by exact E2.
  unfold decIndent. erewrite bind_ok by apply setIndent_snoc.
  change (withIndent (ind + 1 + -1) (new_EmittedLine (ind + 1)))
    with (new_EmittedLine (ind + 1 + -1)).
  replace (ind + 1 + -1)%Z with ind by lia.
  rewrite print_snoc. unfold addPart at 1. rewrite Hclose.
  change {| parts := parts (new_EmittedLine ind) ++ [closing];
            srcSpans := srcSpans (new_EmittedLine ind) ++ [sp];
            indent := indent (new_EmittedLine ind) |}
    with (lineOf closing sp ind).
  now rewrite <- !app_assoc.
Qed.

Lemma visitMapEntry_outcome this sp entry :
  outcome (visitMapEntry this sp entry)
          (match entry with
           | MapEntry _ value _ => fatalExpression this value
           end) 0.
Proof.
  destruct entry as [key value quoted]. simpl.
  assert (Hv := visitExpression_outcome this value).
  eapply outcome_bind; [apply outcome_print | exact Hv | reflexivity
                       | reflexivity].
Qed.

Lemma visitCollection_returns {T} (handler : T -> Emit unit)
    (fatal : T -> option exn) sp opening closing (entries : list T)
    (whole : option exn) ctx ctx' :
  Forall (fun x => outcome (handler x) (fatal x) 0) entries ->
  outcome (visitCollection handler sp opening closing entries) whole 0 ->
  whole = firstFatal fatal entries ->
  (1 < length entries)%nat ->
  (0 <? strlen closing)%Z = true ->
  hasLine ctx ->
  visitCollection handler sp opening closing entries ctx = Ok (tt, ctx') ->
  exists init cur body,
    _lines ctx = init ++ [cur]
    /\ _lines ctx'
       = (init ++ [addPart sp opening cur]) ++ body
         ++ [lineOf closing sp (_indent ctx); new_EmittedLine (_indent ctx)]
    /\ _exportedVars ctx' = _exportedVars ctx
    /\ _indent ctx' = _indent ctx
    /\ visitAllObjects handler entries "," true
         (mkContext (_exportedVars ctx)
            ((init ++ [addPart sp opening cur])
             ++ [new_EmittedLine (_indent ctx + 1)]) (_indent ctx + 1))
       = Ok (tt, mkContext (_exportedVars ctx)
                   (((init ++ [addPart sp opening cur]) ++ body)
                    ++ [new_EmittedLine (_indent ctx + 1)])
                   (_indent ctx + 1)).
Proof.
  intros Hall Hwhole -> Hlen Hclose Hctx Hrun.
  assert (Hf : firstFatal fatal entries = None).
  { specialize (Hwhole ctx Hctx).
    destruct (firstFatal fatal entries); [congruence | reflexivity]. }
  destruct (hasLine_snoc Hctx) as (init & cur & Hlines).
  destruct (@visitCollection_general T handler fatal sp opening closing
              entries (_exportedVars ctx) init cur (_indent ctx) Hall Hf
              Hlen Hclose) as (body & E & Ebody).
  rewrite (context_eta ctx), Hlines in Hrun. rewrite E in Hrun.
  injection Hrun as <-.
  exists init, cur, body. simpl. auto.
Qed.

(** C7, as amended.  An array or map literal without entry renders as its
    two brackets, and one with a single entry that renders on one line
    renders on that line as the entry between the brackets.  With more
    than one entry, entries that each render on one line give a block:
    the opening bracket ends the line in progress, every entry has a
    line of its own at one indent level more, with a comma after each
    entry but the last, and the closing bracket has a line of its own at
    the indent that the counter has when the literal begins.
    With more than one entry, whatever the entries render as, the
    opening bracket ends the line in progress, the entries are rendered
    by [visitAllObjects], with the comma as separator and with line
    breaks, from a fresh line with the indent counter one level deeper,
    and the closing bracket stands alone on a line at the indent of the
    counter; nothing more is said of the lines of an entry that renders
    on several lines.  [[1]] renders as [[1]] and [[1,2]] as the four
    lines [[], [  1,], [  2], []]. *)
Theorem C7_literal_collections (this : AbstractEmitterVisitor)
    (sp : option ParseSourceSpan) (entries : list Expression)
    (mapEntries : list LiteralMapEntry) (texts mapTexts : list string) :
  (1 < length entries)%nat ->
  Forall2 (fun e t => rendersInline this e true t) entries texts ->
  (1 < length mapEntries)%nat ->
  Forall2 (fun entry t => rendersInline this (mapEntryValue entry) false t)
          mapEntries mapTexts ->
  (forall b, rendersInline this (LiteralArrayExpr sp []) b "[]")
  /\ (forall b, rendersInline this (LiteralMapExpr sp []) b "{}")
  /\ (forall e t b,
        rendersInline this e false t ->
        rendersInline this (LiteralArrayExpr sp [e]) b ("[" ++ t ++ "]"))
  /\ (forall entry t b,
        rendersInline this (mapEntryValue entry) false t ->
        rendersInline this (LiteralMapExpr sp [entry]) b
          ("{" ++ mapEntryKeyText this entry ++ t ++ "}"))
  /\ (forall ev init cur,
      exists elems,
        visitExpression this (LiteralArrayExpr sp entries)
          (mkContext ev (init ++ [cur]) (indent cur))
        = Ok (tt, mkContext ev
                    (init ++ appendFragments ["["] [sp] cur
                     :: elems
                     ++ [appendFragments ["]"] [sp]
                           (new_EmittedLine (indent cur));
                         new_EmittedLine (indent cur)])
                    (indent cur))
        /\ Forall2 (lineSpells (indent cur + 1)) elems
                   (separated "," texts))
  /\ (forall ev init cur,
      exists elems,
        visitExpression this (LiteralMapExpr sp mapEntries)
          (mkContext ev (init ++ [cur]) (indent cur))
        = Ok (tt, mkContext ev
                    (init ++ appendFragments ["{"] [sp] cur
                     :: elems
                     ++ [appendFragments ["}"] [sp]
                           (new_EmittedLine (indent cur));
                         new_EmittedLine (indent cur)])
                    (indent cur))
        /\ Forall2 (lineSpells (indent cur + 1)) elems
             (separated ","
                (map (fun p => (mapEntryKeyText this (fst p) ++ snd p)%string)
                     (combine mapEntries mapTexts))))
  /\ (forall entries' ctx ctx',
        hasLine ctx ->
        (1 < length entries')%nat ->
        visitExpression this (LiteralArrayExpr sp entries') ctx
        = Ok (tt, ctx') ->
        exists init cur body,
          _lines ctx = init ++ [cur]
          /\ _lines ctx'
             = (init ++ [appendFragments ["["] [sp] cur]) ++ body
               ++ [lineOf "]" sp (_indent ctx);
                   new_EmittedLine (_indent ctx)]
          /\ _exportedVars ctx' = _exportedVars ctx
          /\ _indent ctx' = _indent ctx
          /\ visitAllObjects (visitExpression this) entries' "," true
               (mkContext (_exportedVars ctx)
                  ((init ++ [appendFragments ["["] [sp] cur])
                   ++ [new_EmittedLine (_indent ctx + 1)])
                  (_indent ctx + 1))
             = Ok (tt, mkContext (_exportedVars ctx)
                         (((init ++ [appendFragments ["["] [sp] cur])
                           ++ body)
                          ++ [new_EmittedLine (_indent ctx + 1)])
                         (_indent ctx + 1)))
  /\ (forall mapEntries' ctx ctx',
        hasLine ctx ->
        (1 < length mapEntries')%nat ->
        visitExpression this (LiteralMapExpr sp mapEntries') ctx
        = Ok (tt, ctx') ->
        exists init cur body,
          _lines ctx = init ++ [cur]
          /\ _lines ctx'
             = (init ++ [appendFragments ["{"] [sp] cur]) ++ body
               ++ [lineOf "}" sp (_indent ctx);
                   new_EmittedLine (_indent ctx)]
          /\ _exportedVars ctx' = _exportedVars ctx
          /\ _indent ctx' = _indent ctx
          /\ visitAllObjects (visitMapEntry this sp) mapEntries' "," true
               (mkContext (_exportedVars ctx)
                  ((init ++ [appendFragments ["{"] [sp] cur])
                   ++ [new_EmittedLine (_indent ctx + 1)])
                  (_indent ctx + 1))
             = Ok (tt, mkContext (_exportedVars ctx)
                         (((init ++ [appendFragments ["{"] [sp] cur])
                           ++ body)
                          ++ [new_EmittedLine (_indent ctx + 1)])
                         (_indent ctx + 1)))
  /\ (forall d, last (separated "," texts) d = last texts d)
  /\ Sample.sourceOf (Sample.renderExpression Sample.oneEntryArray)
     = Ok "[1]"
  /\ Sample.sourceOf (Sample.renderExpression Sample.twoEntryArray)
     = Ok (String.concat NL ["["; "  1,"; "  2"; "]"]).
Proof.
  intros Hlen HF HlenM HFM.
  split; [| split; [| split; [| split; [| split; [| split; [| split;
    [| split; [| split; [| split; reflexivity]]]]]]]]].
  - intros b ev init cur Hcur. rewrite visitLiteralArrayExpr_collection.
    exact (@visitCollection_empty Expression (visitExpression this) sp
             "[" "]" b eq_refl eq_refl ev init cur Hcur).
  - intros b ev init cur Hcur. rewrite visitLiteralMapExpr_collection.
    exact (@visitCollection_empty LiteralMapEntry (visitMapEntry this sp) sp
             "{" "}" b eq_refl eq_refl ev init cur Hcur).
  - intros e t b He ev init cur Hcur.
    rewrite visitLiteralArrayExpr_collection.
    exact (@visitCollection_single Expression (visitExpression this) sp
             "[" "]" e t b eq_refl eq_refl He ev init cur Hcur).
  - intros entry t b He ev init cur Hcur.
    rewrite visitLiteralMapExpr_collection.
    assert (H := @visitCollection_single LiteralMapEntry
                   (visitMapEntry this sp) sp "{" "}" entry
                   (mapEntryKeyText this entry ++ t) b eq_refl eq_refl
                   (@emitsInline_mapEntry this sp entry t He false)).
    rewrite append_assoc in H. exact (H ev init cur Hcur).
  - intros ev init cur. rewrite visitLiteralArrayExpr_collection.
    now apply visitCollection_block.
  - intros ev init cur. rewrite visitLiteralMapExpr_collection.
    apply visitCollection_block; try reflexivity; try assumption.
    clear - HFM. induction HFM as [|entry t l ts He _ IH]; simpl;
      constructor; [| exact IH].
    now apply emitsInline_mapEntry.
  - intros entries' ctx ctx' Hctx Hlen' Hrun.
    rewrite visitLiteralArrayExpr_collection in Hrun.
    refine (@visitCollection_returns Expression (visitExpression this)
              (fatalExpression this) sp "[" "]" entries' _ ctx ctx' _
              (visitExpression_outcome this (LiteralArrayExpr sp entries'))
              eq_refl Hlen' eq_refl Hctx Hrun).
    apply Forall_forall. intros e _. apply visitExpression_outcome.
  - intros mapEntries' ctx ctx' Hctx Hlen' Hrun.
    rewrite visitLiteralMapExpr_collection in Hrun.
    refine (@visitCollection_returns LiteralMapEntry (visitMapEntry this sp)
              (fun entry => match entry with
                            | MapEntry _ value _ =>
                                fatalExpression this value
                            end) sp "{" "}" mapEntries' _ ctx ctx' _
              (visitExpression_outcome this (LiteralMapExpr sp mapEntries'))
              eq_refl Hlen' eq_refl Hctx Hrun).
    apply Forall_forall. intros entry _. apply visitMapEntry_outcome.
  - intros d. apply separated_last. destruct HF; [simpl in Hlen; lia |].
    discriminate.
Qed.

Lemma C7_literal_collections_witness :
  exists elems,
    visitExpression Sample.emitter Sample.twoEntryArray (createRoot [])
    = Ok (tt, mkContext []
                (appendFragments ["["] [None] (new_EmittedLine 0)
                 :: elems
                 ++ [appendFragments ["]"] [None] (new_EmittedLine 0);
                     new_EmittedLine 0])
                0)
    /\ Forall2 (lineSpells (0 + 1)) elems ["1,"; "2"].
Proof.
  assert (Hlen : (1 < length [Sample.num 1; Sample.num 2])%nat)
    by (simpl; lia).
  assert (HF : Forall2 (fun e t => rendersInline Sample.emitter e true t)
                 [Sample.num 1; Sample.num 2] ["1"; "2"]).
  { constructor; [apply rendersInline_literal |].
    constructor; [apply rendersInline_literal | constructor]. }
  assert (HlenM : (1 < length [MapEntry "a" (Sample.num 1) false;
                               MapEntry "b" (Sample.num 2) false])%nat)
    by (simpl; lia).
  assert (HFM : Forall2
                  (fun entry t =>
                     rendersInline Sample.emitter (mapEntryValue entry)
                                   false t)
                  [MapEntry "a" (Sample.num 1) false;
                   MapEntry "b" (Sample.num 2) false] ["1"; "2"]).
  { constructor; [apply rendersInline_literal |].
    constructor; [apply rendersInline_literal | constructor]. }
  exact (proj1 (proj2 (proj2 (proj2 (proj2
           (@C7_literal_collections Sample.emitter None
              [Sample.num 1; Sample.num 2]
              [MapEntry "a" (Sample.num 1) false;
               MapEntry "b" (Sample.num 2) false]
              ["1"; "2"] ["1"; "2"] Hlen HF HlenM HFM)))))
           [] [] (new_EmittedLine 0)).
Defined.

(** C7 as the specification words it fails on [[[1,2]]], an array literal
    with one entry: its rendering has five lines.  It also fails on the
    block of [[[[1,2]],3]], where the line of the first entry is recorded
    two levels deeper than the opening bracket, not one. *)
Lemma C7_counterexample :
  Sample.renderExpression Sample.nestedArray
  = Ok (mkContext [] Sample.nestedArrayLines 0)
  /\ length (sourceLines (mkContext [] Sample.nestedArrayLines 0)) = 5
  /\ Sample.sourceOf (Sample.renderExpression Sample.nestedArray)
     = Ok (String.concat NL ["  [["; "    1,"; "    2"; "  ]"; "]"])
  /\ match Sample.renderExpression Sample.deepArray with
     | Ok ctx => map (fun l => (indent l, join_empty (parts l)))
                     (sourceLines ctx)
     | Throw _ => []
     end
     = [(0, "["); (2, "[["); (3, "1,"); (3, "2"); (2, "]"); (1, "],");
        (1, "3"); (0, "]")]%Z.
Proof. repeat split; vm_compute; reflexivity. Qed.

(** ** If statements *)

Lemma addPart_appendFragments from part l :
  addPart from part l
  = if (0 <? strlen part)%Z then appendFragments [part] [from] l else l.
Proof. reflexivity. Qed.

Lemma emitsLine_println m from part b t :
  emitsInline m b t -> emitsLine (m ;; println from part) b (t ++ part).
Proof.
  intros Hm ev init cur Hcur.
  destruct (Hm ev init cur Hcur) as (ps & ss & E & <-).
  erewrite bind_ok by exact E. unfold println. rewrite print_snoc.
  rewrite addPart_appendFragments. destruct (0 <? strlen part)%Z eqn:Hp.
  - exists (ps ++ [part]), (ss ++ [from]). split.
    + rewrite appendFragments_compose, <- app_assoc. reflexivity.
    + rewrite join_empty_app, join_empty_cons. now rewrite append_empty_r.
  - exists ps, ss. split.
    + rewrite <- app_assoc. reflexivity.
    + apply strlen_zero in Hp. subst. now rewrite append_empty_r.
Qed.

Lemma emitsLine_print_then from part k b t :
  (0 <? strlen part)%Z = true ->
  emitsLine k false t ->
  emitsLine (print from part false ;; k) b (part ++ t).
Proof.
  intros Hpart Hk ev init cur _.
  erewrite bind_ok by (rewrite print_inline, Hpart; reflexivity).
  destruct (Hk ev init (appendFragments [part] [from] cur)
               (@nonempty_after_append [part] [from] cur
                  ltac:(discriminate))) as (ps' & ss' & E2 & <-).
  exists ([part] ++ ps'), ([from] ++ ss'). split.
  - simpl in E2. rewrite E2, appendFragments_compose. reflexivity.
  - rewrite join_empty_app, join_empty_cons. now rewrite append_empty_r.
Qed.

Lemma emitsLine_bind m k t1 t2 :
  emitsInline m false t1 -> emitsLine k false t2 ->
  emitsLine (m ;; k) false (t1 ++ t2).
Proof.
  intros Hm Hk ev init cur Hcur.
  destruct (Hm ev init cur Hcur) as (ps & ss & E1 & <-).
  erewrite bind_ok by exact E1.
  destruct (Hk ev init (appendFragments ps ss cur)
               (nonempty_stays ps ss cur Hcur)) as (ps' & ss' & E2 & <-).
  exists (ps ++ ps'), (ss ++ ss'). split.
  - simpl in E2. rewrite E2, appendFragments_compose. reflexivity.
  - apply join_empty_app.
Qed.

(** A statement that renders as one line, then the removal of the line
    it opened: its text stays on the line in progress. *)
Lemma emitsInline_removeEmptyLastLine (handler : Statement -> Emit unit)
    s t :
  emitsLine (handler s) false t ->
  emitsInline (forEach handler [s] ;; removeEmptyLastLine) false t.
Proof.
  intros Hs ev init cur Hcur.
  destruct (Hs ev init cur Hcur) as (ps & ss & E & <-).
  assert (Hfe : forEach handler [s]
                  (mkContext ev (init ++ [cur]) (indent cur))
                = Ok (tt, mkContext ev
                            (init ++ [appendFragments ps ss cur;
                                      new_EmittedLine (indent cur)])
                            (indent cur))).
  { cbn [forEach]. erewrite bind_ok by exact E. reflexivity. }
  erewrite bind_ok by exact Hfe.
  change (init ++ [appendFragments ps ss cur; new_EmittedLine (indent cur)])
    with (init ++ [appendFragments ps ss cur]
               ++ [new_EmittedLine (indent cur)]).
  rewrite app_assoc, removeEmptyLastLine_snoc. simpl.
  exists ps, ss. now split.
Qed.

Lemma visitIfStmt_inline this sp condition stmt tc ts b :
  rendersInline this condition false tc ->
  rendersOneLine this stmt false ts ->
  rendersOneLine this (IfStmt sp condition [stmt] []) b
    ("if (" ++ tc ++ ") { " ++ ts ++ " }").
Proof.
  intros Hc Hs.
  unfold rendersOneLine. cbn [visitStatement].
  change ((length [stmt] <=? 1)%nat && negb (0 <? length (@nil Statement))%nat)
    with true. cbv iota.
  apply emitsLine_print_then; [reflexivity |].
  assert (H : emitsLine
                (visitExpression this condition ;;
                 print sp ") {" false ;;
                 (print sp " " false ;;
                  forEach (visitStatement this) [stmt] ;;
                  removeEmptyLastLine ;;
                  print sp " " false) ;;
                 println sp "}") false
                (tc ++ ") {" ++ (" " ++ ts ++ " ") ++ "}")).
  { apply emitsLine_bind; [exact Hc |].
    apply emitsLine_print_then; [reflexivity |].
    apply emitsLine_println.
    apply emitsInline_print_then; [reflexivity |].
    assert (H2 : emitsInline
                   ((forEach (visitStatement this) [stmt] ;;
                     removeEmptyLastLine) ;;
                    print sp " " false) false (ts ++ " ")).
    { apply emitsInline_bind;
        [now apply emitsInline_removeEmptyLastLine
        | apply emitsInline_print]. }
    intros ev init cur Hcur.
    destruct (H2 ev init cur Hcur) as (ps & ss & E & Ht).
    exists ps, ss. split; [| exact Ht]. rewrite <- E. emit_same. }
  intros ev init cur Hcur.
  destruct (H ev init cur Hcur) as (ps & ss & E & Ht).
  exists ps, ss. split; [exact E |]. rewrite Ht.
  rewrite !append_assoc. simpl. reflexivity.
Qed.

(** Statements that each render as one line, from a fresh line. *)
Lemma forEach_lines {T} (handler : T -> Emit unit) (l : list T) texts :
  Forall2 (fun x t => emitsLine (handler x) true t) l texts ->
  forall ev init ind,
  exists elems,
    forEach handler l (mkContext ev (init ++ [new_EmittedLine ind]) ind)
    = Ok (tt, mkContext ev (init ++ elems ++ [new_EmittedLine ind]) ind)
    /\ Forall2 (lineSpells ind) elems texts.
Proof.
  induction 1 as [|x t l texts Hx Hl IH]; intros ev init ind.
  - exists []. split; [reflexivity | constructor].
  - destruct (Hx ev init (new_EmittedLine ind) eq_refl)
      as (ps & ss & E & Ht).
    simpl indent in E.
    destruct (IH ev (init ++ [appendFragments ps ss (new_EmittedLine ind)])
                 ind) as (elems & E2 & HF).
    exists (appendFragments ps ss (new_EmittedLine ind) :: elems). split.
    + cbn [forEach]. erewrite bind_ok by exact E.
      change (init ++ [appendFragments ps ss (new_EmittedLine ind);
                       new_EmittedLine ind])
        with (init ++ [appendFragments ps ss (new_EmittedLine ind)]
                   ++ [new_EmittedLine ind]).
      rewrite app_assoc, E2, <- app_assoc. reflexivity.
    + constructor; [| exact HF]. split; [reflexivity | exact Ht].
Qed.

(** The layout of the multi-line form, given what the two branches
    write: [X] from a fresh line one level deeper, and [Y] likewise after
    the line of [} else {]. *)
Lemma ifBlock_layout (handler : Statement -> Emit unit) sp trueCase
    falseCase ev F ind X Y :
  forEach handler trueCase
    (mkContext ev (F ++ [new_EmittedLine (ind + 1)]) (ind + 1))
  = Ok (tt, mkContext ev ((F ++ X) ++ [new_EmittedLine (ind + 1)])
              (ind + 1)) ->
  (falseCase <> [] ->
   forEach handler falseCase
     (mkContext ev (((F ++ X) ++ [lineOf "} else {" sp ind])
                    ++ [new_EmittedLine (ind + 1)]) (ind + 1))
   = Ok (tt, mkContext ev
               ((((F ++ X) ++ [lineOf "} else {" sp ind]) ++ Y)
                ++ [new_EmittedLine (ind + 1)]) (ind + 1))) ->
  (ifBlock handler sp trueCase falseCase ;; println sp "}")
    (mkContext ev F ind)
  = Ok (tt, mkContext ev
              (F ++ X
               ++ (if (0 <? length falseCase)%nat
                   then lineOf "} else {" sp ind :: Y
                   else [])
               ++ [lineOf "}" sp ind; new_EmittedLine ind]) ind).
Proof.
  intros HT HE.
  assert (Hback : (ind + 1 + -1)%Z = ind) by lia.
  assert (EB : ifBlock handler sp trueCase falseCase (mkContext ev F ind)
               = Ok (tt, mkContext ev
                           ((F ++ X
                             ++ (if (0 <? length falseCase)%nat
                                 then lineOf "} else {" sp ind :: Y
                                 else []))
                            ++ [new_EmittedLine ind]) ind)).
  { unfold ifBlock.
    erewrite bind_ok by apply println_empty. simpl _exportedVars.
    simpl _lines. simpl _indent.
    unfold incIndent. erewrite bind_ok by apply setIndent_snoc.
    change (withIndent (ind + 1) (new_EmittedLine ind))
      with (new_EmittedLine (ind + 1)).
    erewrite bind_ok by exact HT.
    unfold decIndent. erewrite bind_ok by apply setIndent_snoc.
    change (withIndent (ind + 1 + -1) (new_EmittedLine (ind + 1)))
      with (new_EmittedLine (ind + 1 + -1)).
    rewrite Hback.
    destruct (0 <? length falseCase)%nat eqn:Helse.
    - assert (Hne : falseCase <> [])
        by (intros ->; simpl in Helse; discriminate).
      unfold println. erewrite bind_ok by apply print_snoc.
      change (addPart sp "} else {" (new_EmittedLine ind))
        with (lineOf "} else {" sp ind).
      erewrite bind_ok by apply setIndent_snoc.
      change (withIndent (ind + 1) (new_EmittedLine ind))
        with (new_EmittedLine (ind + 1)).
      erewrite bind_ok by exact (HE Hne).
      rewrite setIndent_snoc.
      change (withIndent (ind + 1 + -1) (new_EmittedLine (ind + 1)))
        with (new_EmittedLine (ind + 1 + -1)).
      rewrite Hback. do 3 f_equal. rewrite <- !app_assoc. reflexivity.
    - unfold ret. do 3 f_equal. rewrite app_nil_r.
      now rewrite <- !app_assoc. }
  erewrite bind_ok by exact EB.
  unfold println. rewrite print_snoc.
  change (addPart sp "}" (new_EmittedLine ind)) with (lineOf "}" sp ind).
  do 3 f_equal. rewrite <- !app_assoc. reflexivity.
Qed.

Lemma forEach_block this (l : list Statement) ev F k :
  firstFatal (fatalStatement this) l = None ->
  exists X,
    forEach (visitStatement this) l
      (mkContext ev (F ++ [new_EmittedLine k]) k)
    = Ok (tt, mkContext ev ((F ++ X) ++ [new_EmittedLine k]) k).
Proof.
  intros Hf. destruct l as [|s l].
  - exists []. now rewrite app_nil_r.
  - assert (Hall : Forall (fun s => outcomeLine (visitStatement this s)
                                       (fatalStatement this s)) (s :: l)).
    { apply Forall_forall. intros x _. apply visitStatement_outcome. }
    assert (Hout := @outcomeLine_forEach Statement (visitStatement this)
                      (fatalStatement this) (s :: l) ltac:(discriminate)
                      Hall (mkContext ev (F ++ [new_EmittedLine k]) k)).
    rewrite Hf in Hout.
    destruct Hout as (ctx' & E & Hev & Hind & init & cur & cur' & more & Ha
                      & Hb & Hext).
    { unfold hasLine. simpl. now destruct F. }
    simpl in Ha, Hb, Hev, Hind.
    apply app_inj_tail in Ha. destruct Ha as [<- <-].
    exists (cur' :: more). rewrite E. do 2 f_equal.
    rewrite (context_eta ctx'), Hev, Hind, Hb.
    unfold mkContext. f_equal. now rewrite <- !app_assoc.
Qed.

Lemma rendersOneLine_return this sp value t b :
  rendersInline this value false t ->
  rendersOneLine this (ReturnStatement sp value) b ("return " ++ t ++ ";").
Proof.
  intros Hv. unfold rendersOneLine. cbn [visitStatement].
  apply emitsLine_print_then; [reflexivity |].
  now apply emitsLine_println.
Qed.

Lemma ifBlock_mode (trueCase falseCase : list Statement) :
  2 <= length trueCase \/ falseCase <> [] ->
  (length trueCase <=? 1)%nat && negb (0 <? length falseCase)%nat = false.
Proof.
  intros [H | H].
  - replace (length trueCase <=? 1)%nat with false; [reflexivity |].
    symmetry. apply Nat.leb_gt. lia.
  - destruct falseCase; [congruence |]. simpl. now rewrite andb_false_r.
Qed.

Lemma visitIfStmt_block_eq this sp condition trueCase falseCase ctx :
  2 <= length trueCase \/ falseCase <> [] ->
  visitStatement this (IfStmt sp condition trueCase falseCase) ctx
  = (print sp "if (" false ;;
     visitExpression this condition ;;
     print sp ") {" false ;;
     ifBlock (visitStatement this) sp trueCase falseCase ;;
     println sp "}") ctx.
Proof.
  intros H. cbn [visitStatement]. rewrite (@ifBlock_mode trueCase falseCase H). reflexivity.
Qed.

Lemma visitIfStmt_block_lines this sp condition trueCase falseCase tc
    trueTexts falseTexts :
  2 <= length trueCase \/ falseCase <> [] ->
  rendersInline this condition false tc ->
  Forall2 (fun s t => rendersOneLine this s true t) trueCase trueTexts ->
  Forall2 (fun s t => rendersOneLine this s true t) falseCase falseTexts ->
  forall ev init cur,
  exists ps ss trueLines falseLines,
    visitStatement this (IfStmt sp condition trueCase falseCase)
      (mkContext ev (init ++ [cur]) (indent cur))
    = Ok (tt, mkContext ev
                (init ++ appendFragments ps ss cur
                 :: trueLines
                 ++ (if (0 <? length falseCase)%nat
                     then lineOf "} else {" sp (indent cur) :: falseLines
                     else [])
                 ++ [lineOf "}" sp (indent cur);
                     new_EmittedLine (indent cur)])
                (indent cur))
    /\ join_empty ps = ("if (" ++ tc ++ ") {")%string
    /\ Forall2 (lineSpells (indent cur + 1)) trueLines trueTexts
    /\ Forall2 (lineSpells (indent cur + 1)) falseLines falseTexts.
Proof.
  intros Hmode Hc HT HF ev init cur.
  rewrite (@visitIfStmt_block_eq this sp condition trueCase falseCase _ Hmode).
  assert (Hhead : emitsInline
                    (print sp "if (" false ;;
                     visitExpression this condition ;;
                     print sp ") {" false)
                    (length (parts cur) =? 0)%nat
                    ("if (" ++ tc ++ ") {")).
  { apply emitsInline_print_then; [reflexivity |].
    apply emitsInline_bind; [exact Hc | apply emitsInline_print]. }
  destruct (Hhead ev init cur eq_refl) as (ps & ss & E & Ht).
  set (F := init ++ [appendFragments ps ss cur]).
  destruct (@forEach_lines Statement (visitStatement this) trueCase
              trueTexts HT ev F (indent cur + 1))
    as (trueLines & ET & HTl).
  destruct (@forEach_lines Statement (visitStatement this) falseCase
              falseTexts HF ev
              ((F ++ trueLines) ++ [lineOf "} else {" sp (indent cur)])
              (indent cur + 1))
    as (falseLines & EF & HFl).
  exists ps, ss, trueLines, falseLines.
  split; [| split; [exact Ht | split; assumption]].
  assert (Hk := @ifBlock_layout (visitStatement this) sp trueCase falseCase
                  ev F (indent cur) trueLines falseLines).
  rewrite (app_assoc F trueLines) in ET.
  rewrite (app_assoc ((F ++ trueLines) ++ [lineOf "} else {" sp (indent cur)])
                     falseLines) in EF.
  specialize (Hk ET (fun _ => EF)).
  assert (Hassoc : forall (k : Emit unit) c,
            (print sp "if (" false ;;
             visitExpression this condition ;;
             print sp ") {" false ;; k) c
            = ((print sp "if (" false ;;
                visitExpression this condition ;;
                print sp ") {" false) ;; k) c).
  { intros k c. emit_same. }
  rewrite Hassoc. erewrite bind_ok by exact E. fold F.
  rewrite Hk. unfold F. rewrite <- app_assoc. reflexivity.
Qed.

Lemma visitIfStmt_block_general this sp condition trueCase falseCase ctx
    ctx' :
  hasLine ctx ->
  2 <= length trueCase \/ falseCase <> [] ->
  visitStatement this (IfStmt sp condition trueCase falseCase) ctx
  = Ok (tt, ctx') ->
  exists head X Y,
    _lines ctx'
    = head ++ X
      ++ (if (0 <? length falseCase)%nat
          then lineOf "} else {" sp (_indent ctx) :: Y
          else [])
      ++ [lineOf "}" sp (_indent ctx); new_EmittedLine (_indent ctx)]
    /\ forEach (visitStatement this) trueCase
         (mkContext (_exportedVars ctx)
            (head ++ [new_EmittedLine (_indent ctx + 1)]) (_indent ctx + 1))
       = Ok (tt, mkContext (_exportedVars ctx)
                   ((head ++ X) ++ [new_EmittedLine (_indent ctx + 1)])
                   (_indent ctx + 1))
    /\ (falseCase <> [] ->
        forEach (visitStatement this) falseCase
          (mkContext (_exportedVars ctx)
             (((head ++ X) ++ [lineOf "} else {" sp (_indent ctx)])
              ++ [new_EmittedLine (_indent ctx + 1)]) (_indent ctx + 1))
        = Ok (tt, mkContext (_exportedVars ctx)
                    ((((head ++ X) ++ [lineOf "} else {" sp (_indent ctx)])
                      ++ Y)
                     ++ [new_EmittedLine (_indent ctx + 1)])
                    (_indent ctx + 1)))
    /\ _indent ctx' = _indent ctx.
Proof.
  intros Hctx Hmode Hrun.
  assert (Hf : fatalStatement this (IfStmt sp condition trueCase falseCase)
               = None).
  { assert (H := visitStatement_outcome this
                   (IfStmt sp condition trueCase falseCase) Hctx).
    destruct (fatalStatement this (IfStmt sp condition trueCase falseCase));
      [congruence | reflexivity]. }
  cbn [fatalStatement] in Hf. rewrite (@ifBlock_mode trueCase falseCase Hmode) in Hf.
  destruct (fatalExpression this condition) eqn:Ec; [discriminate |].
  destruct (firstFatal (fatalStatement this) trueCase) eqn:ET;
    [discriminate |].
  simpl in Hf.
  rewrite (@visitIfStmt_block_eq this sp condition trueCase falseCase _ Hmode)
    in Hrun.
  destruct (print_steps sp "if (" false Hctx) as (c1 & E1 & S1).
  assert (H2 := visitExpression_outcome this condition (steps_hasLine S1)).
  rewrite Ec in H2. destruct H2 as (c2 & E2 & S2).
  destruct (print_steps sp ") {" false (steps_hasLine S2))
    as (c3 & E3 & S3).
  erewrite bind_ok in Hrun by exact E1.
  erewrite bind_ok in Hrun by exact E2.
  erewrite bind_ok in Hrun by exact E3.
  assert (Hind : _indent c3 = _indent ctx).
  { destruct S1 as [_ H1], S2 as [_ H2], S3 as [_ H3]. lia. }
  assert (Hev : _exportedVars c3 = _exportedVars ctx).
  { destruct S1 as [[H1 _] _], S2 as [[H2 _] _], S3 as [[H3 _] _].
    congruence. }
  rewrite (context_eta c3), Hind, Hev in Hrun.
  destruct (@forEach_block this trueCase (_exportedVars ctx) (_lines c3)
              (_indent ctx + 1) ET) as (X & EX).
  destruct (@forEach_block this falseCase (_exportedVars ctx)
              ((_lines c3 ++ X) ++ [lineOf "} else {" sp (_indent ctx)])
              (_indent ctx + 1) Hf) as (Y & EY).
  rewrite (@ifBlock_layout (visitStatement this) sp trueCase falseCase
             (_exportedVars ctx) (_lines c3) (_indent ctx) X Y EX
             (fun _ => EY)) in Hrun.
  injection Hrun as <-. simpl.
  exists (_lines c3), X, Y.
  split; [reflexivity |]. split; [exact EX |].
  split; [intros _; exact EY | reflexivity].
Qed.

(** C3, as amended.  An if-statement with one true-branch statement and
    no false branch, whose condition and statement each render on one
    line, renders as the one line [if (cond) { stmt }].  An if-statement
    with two or more true-branch statements, or with a false branch,
    renders as a block: [}] stands alone on the last line and, when there
    is a false branch, [} else {] stands alone on a line, both at the
    indent that the counter has when the if-statement begins, and the
    statements of each branch are rendered from a fresh line with the
    indent counter one level deeper.  When the condition and the branch
    statements each render on one line, the block is the line that ends
    in [if (cond) {] and then the branch statements one per line, one
    indent level deeper.  Nothing is said of the number or the indent of
    the lines of a statement that renders on several lines. *)
Theorem C3_if_statement (this : AbstractEmitterVisitor)
    (sp : option ParseSourceSpan) (condition : Expression)
    (trueCase falseCase : list Statement) (tc : string)
    (trueTexts falseTexts : list string) :
  2 <= length trueCase \/ falseCase <> [] ->
  rendersInline this condition false tc ->
  Forall2 (fun s t => rendersOneLine this s true t) trueCase trueTexts ->
  Forall2 (fun s t => rendersOneLine this s true t) falseCase falseTexts ->
  (forall stmt ts b,
     rendersOneLine this stmt false ts ->
     rendersOneLine this (IfStmt sp condition [stmt] []) b
       ("if (" ++ tc ++ ") { " ++ ts ++ " }"))
  /\ (forall ev init cur,
      exists ps ss trueLines falseLines,
        visitStatement this (IfStmt sp condition trueCase falseCase)
          (mkContext ev (init ++ [cur]) (indent cur))
        = Ok (tt, mkContext ev
                    (init ++ appendFragments ps ss cur
                     :: trueLines
                     ++ (if (0 <? length falseCase)%nat
                         then lineOf "} else {" sp (indent cur) :: falseLines
                         else [])
                     ++ [lineOf "}" sp (indent cur);
                         new_EmittedLine (indent cur)])
                    (indent cur))
        /\ join_empty ps = ("if (" ++ tc ++ ") {")%string
        /\ Forall2 (lineSpells (indent cur + 1)) trueLines trueTexts
        /\ Forall2 (lineSpells (indent cur + 1)) falseLines falseTexts)
  /\ (forall condition' trueCase' falseCase' ctx ctx',
        hasLine ctx ->
        2 <= length trueCase' \/ falseCase' <> [] ->
        visitStatement this (IfStmt sp condition' trueCase' falseCase') ctx
        = Ok (tt, ctx') ->
        exists head X Y,
          _lines ctx'
          = head ++ X
            ++ (if (0 <? length falseCase')%nat
                then lineOf "} else {" sp (_indent ctx) :: Y
                else [])
            ++ [lineOf "}" sp (_indent ctx); new_EmittedLine (_indent ctx)]
          /\ forEach (visitStatement this) trueCase'
               (mkContext (_exportedVars ctx)
                  (head ++ [new_EmittedLine (_indent ctx + 1)])
                  (_indent ctx + 1))
             = Ok (tt, mkContext (_exportedVars ctx)
                         ((head ++ X)
                          ++ [new_EmittedLine (_indent ctx + 1)])
                         (_indent ctx + 1))
          /\ (falseCase' <> [] ->
              forEach (visitStatement this) falseCase'
                (mkContext (_exportedVars ctx)
                   (((head ++ X) ++ [lineOf "} else {" sp (_indent ctx)])
                    ++ [new_EmittedLine (_indent ctx + 1)])
                   (_indent ctx + 1))
              = Ok (tt, mkContext (_exportedVars ctx)
                          ((((head ++ X)
                             ++ [lineOf "} else {" sp (_indent ctx)]) ++ Y)
                           ++ [new_EmittedLine (_indent ctx + 1)])
                          (_indent ctx + 1)))
          /\ _indent ctx' = _indent ctx)
  /\ Sample.sourceOf (Sample.renderStatements [Sample.ifOne])
     = Ok "if (c) { return a; }"
  /\ Sample.sourceOf (Sample.renderStatements [Sample.ifTwo])
     = Ok (String.concat NL
             ["if (c) {"; "  return a;"; "  return b;"; "}"])
  /\ Sample.sourceOf (Sample.renderStatements [Sample.ifElse])
     = Ok (String.concat NL
             ["if (c) {"; "  return a;"; "} else {"; "  return b;"; "}"]).
Proof.
  intros Hmode Hc HT HF.
  split; [| split; [| split; [| split; [| split]]]]; try reflexivity.
  - intros stmt ts b Hs. now apply visitIfStmt_inline.
  - now apply visitIfStmt_block_lines.
  - intros condition' trueCase' falseCase' ctx ctx' Hctx Hm Hrun.
    now apply (@visitIfStmt_block_general this sp condition' trueCase'
                 falseCase' ctx ctx').
Qed.

Lemma C3_if_statement_witness :
  rendersOneLine Sample.emitter Sample.ifOne true "if (c) { return a; }".
Proof.
  assert (Hmode : 2 <= length [Sample.returnVar "a"; Sample.returnVar "b"]
                  \/ @nil Statement <> []) by (left; simpl; lia).
  assert (Hc : rendersInline Sample.emitter (Sample.var None "c") false "c")
    by apply rendersInline_var.
  assert (Hs : forall name b,
            rendersOneLine Sample.emitter (Sample.returnVar name) b
              ("return " ++ name ++ ";")).
  { intros name b. apply rendersOneLine_return. apply rendersInline_var. }
  assert (HT : Forall2 (fun s t => rendersOneLine Sample.emitter s true t)
                 [Sample.returnVar "a"; Sample.returnVar "b"]
                 ["return a;"; "return b;"]).
  { constructor; [apply (Hs "a" true) |].
    constructor; [apply (Hs "b" true) | constructor]. }
  exact (proj1 (@C3_if_statement Sample.emitter None (Sample.var None "c")
                  [Sample.returnVar "a"; Sample.returnVar "b"] [] "c"
                  ["return a;"; "return b;"] [] Hmode Hc HT
                  (Forall2_nil _))
               (Sample.returnVar "a") "return a;" true (Hs "a" false)).
Defined.

(** C3 as the specification words it fails on an if-statement whose one
    true-branch statement is itself an if-statement with two statements:
    it has no false branch, and its rendering has four lines.  It also
    fails on the block of [if (c) { return [[1,2]]; return b; }], where
    the first line of the first branch statement is recorded two levels
    deeper than the if-statement, not one. *)
Lemma C3_counterexample :
  Sample.sourceOf (Sample.renderStatements [Sample.ifNested])
  = Ok (String.concat NL
          ["if (c) { if (d) {"; "  return a;"; "  return b;"; "} }"])
  /\ match Sample.renderStatements [Sample.ifNested] with
     | Ok ctx => length (sourceLines ctx)
     | Throw _ => 0
     end = 4
  /\ match Sample.renderStatements [Sample.ifDeep] with
     | Ok ctx => map (fun l => (indent l, join_empty (parts l)))
                     (sourceLines ctx)
     | Throw _ => []
     end
     = [(0, "if (c) {"); (2, "return [["); (3, "1,"); (3, "2"); (2, "]");
        (1, "];"); (1, "return b;"); (0, "}")]%Z.
Proof. repeat split; vm_compute; reflexivity. Qed.

(* ===================================================================== *)
(** * Further properties of the escaping *)
(* ===================================================================== *)

Lemma allChars_app p a b :
  allChars p (a ++ b)%string = allChars p a && allChars p b.
Proof.
  induction a as [|c a IH]; simpl; [reflexivity |].
  now rewrite IH, andb_assoc.
Qed.

Lemma append_inj_l (a b c : string) :
  (a ++ c)%string = (b ++ c)%string -> a = b.
Proof.
  revert b. induction a as [|x a IH]; intros [|y b] H; simpl in H.
  - reflexivity.
  - exfalso. apply (f_equal String.length) in H. simpl in H.
    rewrite length_append in H. lia.
  - exfalso. apply (f_equal String.length) in H. simpl in H.
    rewrite length_append in H. lia.
  - injection H as -> H. f_equal. now apply IH.
Qed.

(** The five characters of the pattern. *)
Lemma escaped_cases c :
  _SINGLE_QUOTE_ESCAPE_STRING_RE c = true ->
  c = "'"%char \/ c = "\"%char \/ c = LF \/ c = CR \/ c = "$"%char.
Proof.
  unfold _SINGLE_QUOTE_ESCAPE_STRING_RE. intros H.
  repeat (apply orb_true_iff in H; destruct H as [H | H]);
    apply Ascii.eqb_eq in H; auto.
Qed.

Lemma replace_cons re callback c rest :
  replace re callback (String c rest)
  = ((if re c then callback c else String c EmptyString)
     ++ replace re callback rest)%string.
Proof. reflexivity. Qed.

Lemma escapeBody_cons c rest d :
  escapeBody (String c rest) d
  = ((if _SINGLE_QUOTE_ESCAPE_STRING_RE c then escapeMatch d c
      else String c EmptyString) ++ escapeBody rest d)%string.
Proof. reflexivity. Qed.

Lemma unescape_escape s d : unescapeBody (escapeBody s d) = s.
Proof.
  induction s as [|c s IH]; [reflexivity |].
  rewrite escapeBody_cons.
  destruct (_SINGLE_QUOTE_ESCAPE_STRING_RE c) eqn:E.
  - apply escaped_cases in E.
    destruct E as [-> | [-> | [-> | [-> | ->]]]]; destruct d;
      vm_compute escapeMatch; cbn [append unescapeBody];
      change (Ascii.eqb "\" "\") with true; cbv iota;
      try (change (Ascii.eqb "$" "\") with false; cbv iota);
      rewrite IH; reflexivity.
  - assert (Hc : Ascii.eqb c "\" = false).
    { destruct (Ascii.eqb_spec c "\"%char) as [-> |]; [| reflexivity].
      discriminate E. }
    cbn [append unescapeBody]. rewrite Hc, IH. reflexivity.
Qed.

Lemma escapeBody_closed s d : closedLiteralBody (escapeBody s d) = true.
Proof.
  induction s as [|c s IH]; [reflexivity |].
  rewrite escapeBody_cons.
  destruct (_SINGLE_QUOTE_ESCAPE_STRING_RE c) eqn:E.
  - apply escaped_cases in E.
    destruct E as [-> | [-> | [-> | [-> | ->]]]]; destruct d;
      vm_compute escapeMatch; cbn [append closedLiteralBody];
      change (Ascii.eqb "\" "\") with true; cbv iota;
      try exact IH;
      change (Ascii.eqb "$" "\") with false; cbv iota;
      rewrite IH; reflexivity.
  - unfold _SINGLE_QUOTE_ESCAPE_STRING_RE in E.
    repeat (apply orb_false_iff in E; destruct E as [E ?]).
    cbn [append closedLiteralBody].
    repeat match goal with H : Ascii.eqb _ _ = false |- _ =>
      rewrite H; clear H end.
    exact IH.
Qed.

Lemma escapeBody_noLineBreak s d :
  allChars (fun c => negb (isLineBreak c)) (escapeBody s d) = true.
Proof.
  induction s as [|c s IH]; [reflexivity |].
  rewrite escapeBody_cons, allChars_app, IH, andb_true_r.
  destruct (_SINGLE_QUOTE_ESCAPE_STRING_RE c) eqn:E.
  - apply escaped_cases in E.
    destruct E as [-> | [-> | [-> | [-> | ->]]]]; destruct d; reflexivity.
  - unfold _SINGLE_QUOTE_ESCAPE_STRING_RE in E.
    repeat (apply orb_false_iff in E; destruct E as [E ?]).
    simpl. unfold isLineBreak.
    repeat match goal with H : Ascii.eqb _ _ = false |- _ =>
      rewrite H; clear H end.
    reflexivity.
Qed.

(** X1.  [escapeIdentifier] loses nothing: the escaped body reads back
    as the input, and two inputs that give the same text, under the same
    flags, are the same input. *)
Theorem X1_escapeIdentifier_injective (s t : string)
    (escapeDollar alwaysQuote : bool) :
  unescapeBody (escapeBody s escapeDollar) = s
  /\ (escapeIdentifier s escapeDollar alwaysQuote
      = escapeIdentifier t escapeDollar alwaysQuote -> s = t).
Proof.
  split; [apply unescape_escape |].
  assert (Hbody : escapeBody s escapeDollar = escapeBody t escapeDollar
                  -> s = t).
  { intros H. rewrite <- (unescape_escape s escapeDollar), H.
    apply unescape_escape. }
  assert (Hquoted : forall a b : string,
            ("'" ++ a ++ "'")%string = ("'" ++ b ++ "'")%string -> a = b).
  { intros a b H. injection H as H. now apply append_inj_l in H. }
  assert (Hmixed : forall a b : string,
            _LEGAL_IDENTIFIER_RE a = true ->
            a <> ("'" ++ b ++ "'")%string).
  { intros a b Ha ->. discriminate Ha. }
  unfold escapeIdentifier. cbv zeta.
  destruct alwaysQuote; simpl orb.
  - intros H. apply Hbody. now apply Hquoted.
  - destruct (_LEGAL_IDENTIFIER_RE (escapeBody s escapeDollar)) eqn:Es,
             (_LEGAL_IDENTIFIER_RE (escapeBody t escapeDollar)) eqn:Et;
      simpl negb; cbv iota; intros H.
    + now apply Hbody.
    + exfalso. exact (Hmixed _ _ Es H).
    + exfalso. exact (Hmixed _ _ Et (eq_sym H)).
    + apply Hbody. now apply Hquoted.
Qed.

Lemma escapeBody_app a b d :
  escapeBody (a ++ b) d = (escapeBody a d ++ escapeBody b d)%string.
Proof.
  induction a as [|c a IH]; [reflexivity |].
  change (String c a ++ b)%string with (String c (a ++ b)%string).
  rewrite !escapeBody_cons, IH. now rewrite append_assoc.
Qed.

Lemma escapeMatch_pair c d :
  keptAsIs d c = false ->
  (if _SINGLE_QUOTE_ESCAPE_STRING_RE c then escapeMatch d c
   else String c EmptyString)
  = String "\" (String (escapedAs c) EmptyString).
Proof.
  unfold keptAsIs. intros K. apply orb_false_iff in K. destruct K as [E K].
  apply negb_false_iff in E. rewrite E. apply escaped_cases in E.
  destruct E as [-> | [-> | [-> | [-> | ->]]]]; destruct d;
    try reflexivity; discriminate K.
Qed.

Lemma escapeMatch_kept c d :
  keptAsIs d c = true ->
  (if _SINGLE_QUOTE_ESCAPE_STRING_RE c then escapeMatch d c
   else String c EmptyString)
  = String c EmptyString.
Proof.
  unfold keptAsIs. intros K.
  destruct (_SINGLE_QUOTE_ESCAPE_STRING_RE c) eqn:E; [| reflexivity].
  simpl in K. apply andb_prop in K. destruct K as [Hd Hf].
  apply Ascii.eqb_eq in Hd. subst c. destruct d; [discriminate |].
  reflexivity.
Qed.

(** X2.  The text of [escapeIdentifier] holds no line feed and no carriage
    return, and its body can stand between single quotes: read left to
    right, every backslash is followed by a character, and a quote, a
    line feed or a carriage return comes only after a backslash.
    Character by character, every quote, backslash, line feed and
    carriage return of the input, and every dollar sign when the dollar
    is escaped, comes out as a backslash and one character ([n] for the
    line feed, [r] for the carriage return, the character itself for the
    others), and every other character comes out as it is.  With
    [alwaysQuote] the text is the body between two single quotes. *)
Theorem X2_escapeIdentifier_closed (input : string)
    (escapeDollar alwaysQuote : bool) :
  allChars (fun c => negb (isLineBreak c))
           (escapeIdentifier input escapeDollar alwaysQuote) = true
  /\ closedLiteralBody (escapeBody input escapeDollar) = true
  /\ escapeIdentifier input escapeDollar true
     = ("'" ++ escapeBody input escapeDollar ++ "'")%string
  /\ (forall before c after,
        input = (before ++ String c after)%string ->
        escapeBody input escapeDollar
        = (escapeBody before escapeDollar
           ++ (if keptAsIs escapeDollar c
               then String c EmptyString
               else String "\" (String (escapedAs c) EmptyString))
           ++ escapeBody after escapeDollar)%string)
  /\ (forall c,
        keptAsIs escapeDollar c = false
        <-> (c = "'"%char \/ c = "\"%char \/ c = LF \/ c = CR
             \/ (c = "$"%char /\ escapeDollar = true))).
Proof.
  split; [| split; [apply escapeBody_closed | split; [reflexivity |]]].
  - unfold escapeIdentifier. cbv zeta.
    destruct (alwaysQuote
              || negb (_LEGAL_IDENTIFIER_RE (escapeBody input escapeDollar))).
    + change ("'" ++ escapeBody input escapeDollar ++ "'")%string
        with (String "'" (escapeBody input escapeDollar ++ "'"))%string.
      cbn [allChars]. rewrite allChars_app, escapeBody_noLineBreak.
      reflexivity.
    + apply escapeBody_noLineBreak.
  - split.
    + intros before c after ->.
      rewrite escapeBody_app, escapeBody_cons. f_equal. f_equal.
      destruct (keptAsIs escapeDollar c) eqn:K.
      * now apply escapeMatch_kept.
      * now apply escapeMatch_pair.
    + intros c. unfold keptAsIs. split.
      * intros K. apply orb_false_iff in K. destruct K as [E K].
        apply negb_false_iff in E. apply escaped_cases in E.
        destruct E as [-> | [-> | [-> | [-> | ->]]]]; auto.
        right. right. right. right. split; [reflexivity |].
        destruct escapeDollar; [reflexivity | discriminate K].
      * intros [-> | [-> | [-> | [-> | [-> ->]]]]];
          try (destruct escapeDollar); reflexivity.
Qed.

Lemma escapeBody_length s d :
  String.length s <= String.length (escapeBody s d).
Proof.
  induction s as [|c s IH]; [simpl; lia |].
  rewrite escapeBody_cons, length_append.
  destruct (_SINGLE_QUOTE_ESCAPE_STRING_RE c) eqn:E; [| simpl; lia].
  apply escaped_cases in E.
  destruct E as [-> | [-> | [-> | [-> | ->]]]]; destruct d; simpl; lia.
Qed.

Lemma escapeBody_kept s d :
  allChars (keptAsIs d) s = true -> escapeBody s d = s.
Proof.
  induction s as [|c s IH]; [reflexivity |].
  simpl allChars. intros H. apply andb_prop in H. destruct H as [Hc Hs].
  rewrite escapeBody_cons, (IH Hs).
  unfold keptAsIs in Hc.
  destruct (_SINGLE_QUOTE_ESCAPE_STRING_RE c) eqn:E; [| reflexivity].
  simpl in Hc. apply andb_prop in Hc. destruct Hc as [Hd Hf].
  apply Ascii.eqb_eq in Hd. subst c. destruct d; [discriminate |].
  reflexivity.
Qed.

Lemma escapeBody_fixed s d :
  escapeBody s d = s -> allChars (keptAsIs d) s = true.
Proof.
  induction s as [|c s IH]; [reflexivity |].
  rewrite escapeBody_cons. intros H.
  assert (Hlen := escapeBody_length s d).
  destruct (keptAsIs d c) eqn:K.
  - simpl. rewrite K. simpl. apply IH.
    unfold keptAsIs in K.
    destruct (_SINGLE_QUOTE_ESCAPE_STRING_RE c) eqn:E.
    + simpl in K. apply andb_prop in K. destruct K as [Hd Hf].
      apply Ascii.eqb_eq in Hd. subst c. destruct d; [discriminate |].
      now injection H.
    + now injection H.
  - exfalso. unfold keptAsIs in K.
    apply orb_false_iff in K. destruct K as [E K].
    apply negb_false_iff in E. rewrite E in H.
    apply (f_equal String.length) in H.
    rewrite length_append in H. simpl String.length at 2 in H.
    apply escaped_cases in E.
    destruct E as [-> | [-> | [-> | [-> | ->]]]]; destruct d;
      simpl in H, K; try discriminate K; lia.
Qed.

(** A character of an identifier is outside the pattern, or the dollar. *)
Lemma identPart_kept c :
  identPart c = true ->
  _SINGLE_QUOTE_ESCAPE_STRING_RE c = false \/ c = "$"%char.
Proof.
  destruct c as [[] [] [] [] [] [] [] []]; vm_compute; auto;
    discriminate.
Qed.

Lemma identStart_identPart c : identStart c = true -> identPart c = true.
Proof.
  unfold identStart, identPart. intros H.
  apply orb_true_iff in H. destruct H as [H | H].
  - apply orb_true_iff in H. destruct H as [H | H].
    + rewrite H. now rewrite !orb_true_r.
    + rewrite H. now rewrite !orb_true_r.
  - rewrite H. now rewrite !orb_true_r.
Qed.

Lemma identifier_kept s d :
  allChars identPart s = true ->
  (d = true -> allChars (fun c => negb (isDollar c)) s = true) ->
  allChars (keptAsIs d) s = true.
Proof.
  induction s as [|c s IH]; [reflexivity |].
  simpl. intros H Hd. apply andb_prop in H. destruct H as [Hc Hs].
  rewrite IH, andb_true_r; [| exact Hs |].
  - unfold keptAsIs. destruct (identPart_kept c Hc) as [E | ->].
    + now rewrite E.
    + destruct d; [| reflexivity].
      specialize (Hd eq_refl). discriminate Hd.
  - intros ->. specialize (Hd eq_refl). apply andb_prop in Hd. tauto.
Qed.

(** X3.  With quoting not forced, [escapeIdentifier] gives a name back
    unchanged exactly when the name matches the identifier pattern and,
    if the dollar is escaped, holds no dollar sign. *)
Theorem X3_escapeIdentifier_unchanged (input : string) (escapeDollar : bool) :
  escapeIdentifier input escapeDollar false = input
  <-> (_LEGAL_IDENTIFIER_RE input = true
       /\ (escapeDollar = true ->
           allChars (fun c => negb (isDollar c)) input = true)).
Proof.
  unfold escapeIdentifier. cbv zeta. simpl orb. split.
  - intros H.
    destruct (_LEGAL_IDENTIFIER_RE (escapeBody input escapeDollar)) eqn:E;
      simpl negb in H; cbv iota in H.
    + rewrite H in E. split; [exact E |]. intros ->.
      apply escapeBody_fixed in H. clear E.
      induction input as [|c s IH]; [reflexivity |].
      simpl in H |- *. apply andb_prop in H. destruct H as [Hc Hs].
      rewrite (IH Hs), andb_true_r.
      unfold keptAsIs in Hc. rewrite andb_false_r, orb_false_r in Hc.
      unfold isDollar.
      destruct (Ascii.eqb_spec c "$"%char) as [-> |]; [discriminate Hc |].
      reflexivity.
    + exfalso. apply (f_equal String.length) in H.
      assert (Hlen := escapeBody_length input escapeDollar).
      simpl in H. rewrite length_append in H. simpl in H. lia.
  - intros [Hlegal Hd].
    assert (Hkept : allChars (keptAsIs escapeDollar) input = true).
    { destruct input as [|c s]; [reflexivity |].
      simpl in Hlegal. apply andb_prop in Hlegal.
      destruct Hlegal as [Hc Hs].
      apply identifier_kept; [| exact Hd].
      simpl. now rewrite (identStart_identPart _ Hc), Hs. }
    rewrite (escapeBody_kept _ _ Hkept), Hlegal. reflexivity.
Qed.

Lemma X3_escapeIdentifier_unchanged_witness :
  escapeIdentifier "a$b" false false = "a$b".
Proof.
  apply (proj2 (X3_escapeIdentifier_unchanged "a$b" false)).
  split; [reflexivity | discriminate].
Defined.

Lemma repeatString_length s n :
  String.length (repeatString s n) = n * String.length s.
Proof.
  induction n as [|n IH]; [reflexivity |].
  simpl. rewrite length_append, IH. lia.
Qed.

Lemma repeatString_allChars p s n :
  allChars p s = true -> allChars p (repeatString s n) = true.
Proof.
  intros H. induction n as [|n IH]; [reflexivity |].
  simpl. now rewrite allChars_app, IH, H.
Qed.

(** X4.  [_createIndent(count)] is made of blanks only, two for each unit
    of [count], and is empty when [count] is zero or negative. *)
Theorem X4_createIndent (count : Z) :
  strlen (_createIndent count) = (2 * Z.max 0 count)%Z
  /\ allChars (Ascii.eqb " ") (_createIndent count) = true
  /\ ((count <= 0)%Z -> _createIndent count = "").
Proof.
  unfold _createIndent, strlen. split; [| split].
  - rewrite repeatString_length. simpl String.length. lia.
  - now apply repeatString_allChars.
  - intros H. replace (Z.to_nat count) with 0 by lia. reflexivity.
Qed.

(* ===================================================================== *)
(** * Further properties of the context *)
(* ===================================================================== *)

Lemma pushClasses_app {C} (cs : list C) (st : list C) :
  pushClasses cs st = st ++ cs.
Proof.
  unfold pushClasses. revert st.
  induction cs as [|c cs IH]; intros st; simpl.
  - now rewrite app_nil_r.
  - rewrite IH. unfold pushClass. now rewrite <- app_assoc.
Qed.

Lemma popClass_snoc {C} (st : list C) (c : C) :
  popClass (st ++ [c]) = (Some c, st).
Proof.
  unfold popClass. now rewrite nth_error_snoc, removelast_last.
Qed.

(** X5.  The class stack is last in, first out: [popClass] gives back the
    class pushed last and the stack as it was before that push,
    [currentClass] is the class [popClass] would give, the classes pushed
    one after the other come back in the reverse order, and on an empty
    stack [popClass] gives [undefined], [currentClass] gives [null], and
    the stack stays empty. *)
Theorem X5_class_stack {ClassStmt : Type} (clazz : ClassStmt)
    (cs _classes : list ClassStmt) :
  popClass (pushClass clazz _classes) = (Some clazz, _classes)
  /\ currentClass (pushClass clazz _classes) = Some clazz
  /\ currentClass _classes = fst (popClass _classes)
  /\ popClasses (length cs) (pushClasses cs _classes)
     = (map Some (rev cs), _classes)
  /\ popClass (@nil ClassStmt) = (None, [])
  /\ currentClass (@nil ClassStmt) = None.
Proof.
  split; [apply popClass_snoc |].
  split.
  { unfold currentClass, pushClass. rewrite nth_error_snoc.
    rewrite length_app. simpl.
    now replace (0 <? length _classes + 1)%nat with true
      by (symmetry; apply Nat.ltb_lt; lia). }
  split.
  { unfold currentClass, popClass. simpl.
    destruct _classes as [|c l]; reflexivity. }
  split; [| split; reflexivity].
  rewrite pushClasses_app. revert _classes.
  induction cs as [|c cs IH] using rev_ind; intros st.
  - simpl. now rewrite app_nil_r.
  - rewrite length_app. simpl length.
    replace (length cs + 1) with (S (length cs)) by lia.
    cbn [popClasses]. rewrite app_assoc, popClass_snoc, IH.
    rewrite rev_app_distr. reflexivity.
Qed.

(** X6.  [println] followed by [removeEmptyLastLine] is [print] without
    the new line, on every context: the line that [println] opens is the
    one that is removed. *)
Theorem X6_println_removeEmptyLastLine (from : option ParseSourceSpan)
    (part : string) (ctx : EmitterVisitorContext) :
  (println from part ;; removeEmptyLastLine) ctx = print from part false ctx.
Proof.
  rewrite (context_eta ctx). destruct ctx as [ev lines ind]. simpl.
  unfold println, bind at 1.
  destruct (snoc_cases lines) as [-> | (init & cur & ->)].
  - fold (mkContext ev [] ind). rewrite !print_nil.
    destruct (0 <? strlen part)%Z; [reflexivity |].
    change [new_EmittedLine ind] with ([] ++ [new_EmittedLine ind]).
    rewrite removeEmptyLastLine_snoc. reflexivity.
  - fold (mkContext ev (init ++ [cur]) ind). rewrite !print_snoc.
    rewrite removeEmptyLastLine_snoc. simpl. now rewrite app_nil_r.
Qed.

(** X7.  [incIndent] followed by [decIndent], and [decIndent] followed by
    [incIndent], leave the indent counter as it was and set the indent of
    the line in progress to the counter; the pair changes nothing exactly
    when that line already has the indent of the counter. *)
Theorem X7_incIndent_decIndent (ctx : EmitterVisitorContext)
    (init : list _EmittedLine) (cur : _EmittedLine) :
  _lines ctx = init ++ [cur] ->
  (incIndent ;; decIndent) ctx
  = Ok (tt, mkContext (_exportedVars ctx)
              (init ++ [withIndent (_indent ctx) cur]) (_indent ctx))
  /\ (decIndent ;; incIndent) ctx = (incIndent ;; decIndent) ctx
  /\ ((incIndent ;; decIndent) ctx = Ok (tt, ctx)
      <-> indent cur = _indent ctx).
Proof.
  rewrite (context_eta ctx). destruct ctx as [ev lines ind]. simpl.
  intros ->. fold (mkContext ev (init ++ [cur]) ind).
  assert (E1 : (incIndent ;; decIndent) (mkContext ev (init ++ [cur]) ind)
               = Ok (tt, mkContext ev (init ++ [withIndent ind cur]) ind)).
  { unfold incIndent, decIndent, bind.
    rewrite setIndent_snoc, setIndent_snoc. unfold withIndent. simpl.
    now replace (ind + 1 + -1)%Z with ind by lia. }
  assert (E2 : (decIndent ;; incIndent) (mkContext ev (init ++ [cur]) ind)
               = Ok (tt, mkContext ev (init ++ [withIndent ind cur]) ind)).
  { unfold incIndent, decIndent, bind.
    rewrite setIndent_snoc, setIndent_snoc. unfold withIndent. simpl.
    now replace (ind + -1 + 1)%Z with ind by lia. }
  split; [exact E1 |]. split; [now rewrite E1, E2 |].
  rewrite E1. split.
  - intros [= H]. apply app_inj_tail in H. destruct H as [_ H].
    rewrite <- H. reflexivity.
  - intros <-. unfold withIndent. now destruct cur.
Qed.

Lemma X7_incIndent_decIndent_witness :
  (incIndent ;; decIndent) (createRoot [])
  = Ok (tt, mkContext [] ([] ++ [withIndent 0 (new_EmittedLine 0)]) 0)
  /\ (decIndent ;; incIndent) (createRoot [])
     = (incIndent ;; decIndent) (createRoot [])
  /\ ((incIndent ;; decIndent) (createRoot []) = Ok (tt, createRoot [])
      <-> indent (new_EmittedLine 0) = _indent (createRoot [])).
Proof.
  exact (@X7_incIndent_decIndent (createRoot []) [] (new_EmittedLine 0)
           eq_refl).
Defined.

(** X8.  [removeEmptyLastLine] takes the only line of a context away when
    that line is empty, and a context without a line cannot be written
    to: [lineIsEmpty], [incIndent], [decIndent], [removeEmptyLastLine]
    and [print] of a non-empty text raise the [TypeError] of a property
    read on [undefined].  [print] of the empty text still returns, the
    source text is empty, and the position map holds the leading
    [addLine] calls only. *)
Theorem X8_context_without_line (ctx : EmitterVisitorContext) :
  _lines ctx = [] ->
  lineIsEmpty ctx = Throw TypeError
  /\ incIndent ctx = Throw TypeError
  /\ decIndent ctx = Throw TypeError
  /\ removeEmptyLastLine ctx = Throw TypeError
  /\ (forall from part newLine,
        (0 < strlen part)%Z -> print from part newLine ctx = Throw TypeError)
  /\ (forall from, print from "" false ctx = Ok (tt, ctx))
  /\ toSource ctx = ""
  /\ (forall file startsAtLine,
        toSourceMapGenerator ctx file startsAtLine
        = Ok (repeat addLine (Z.to_nat startsAtLine)))
  /\ removeEmptyLastLine (createRoot (_exportedVars ctx))
     = Ok (tt, mkContext (_exportedVars ctx) [] 0).
Proof.
  rewrite (context_eta ctx). destruct ctx as [ev lines ind]. simpl.
  intros ->. fold (mkContext ev [] ind).
  split; [reflexivity |]. split; [reflexivity |]. split; [reflexivity |].
  split; [reflexivity |]. split.
  { intros from part newLine H. rewrite print_nil.
    now replace (0 <? strlen part)%Z with true
      by (symmetry; apply Z.ltb_lt; exact H). }
  split; [reflexivity |]. split; [reflexivity |]. split.
  { intros file n. unfold toSourceMapGenerator. simpl.
    now rewrite app_nil_r. }
  reflexivity.
Qed.

Lemma X8_context_without_line_witness :
  lineIsEmpty (mkContext [] [] 0) = Throw TypeError
  /\ removeEmptyLastLine (createRoot []) = Ok (tt, mkContext [] [] 0).
Proof.
  destruct (@X8_context_without_line (mkContext [] [] 0) eq_refl)
    as (H1 & _ & _ & _ & _ & _ & _ & _ & H9).
  split; [exact H1 | exact H9].
Defined.

(** ** Rendering is a run of context operations *)

Lemma exec_runOps_app ops1 : forall ops2 ctx ctx1 ctx2,
  exec (runOps ops1) ctx = Ok ctx1 ->
  exec (runOps ops2) ctx1 = Ok ctx2 ->
  exec (runOps (ops1 ++ ops2)) ctx = Ok ctx2.
Proof.
  induction ops1 as [|op ops1 IH]; intros ops2 ctx ctx1 ctx2 H1 H2.
  - apply exec_runOps_nil in H1. now subst.
  - apply exec_runOps_cons in H1. destruct H1 as (c & Hop & Hrest).
    specialize (IH ops2 c ctx1 ctx2 Hrest H2).
    unfold exec, runOps in IH |- *. simpl. unfold bind at 1.
    now rewrite Hop.
Qed.

Lemma exec_runOps_one op ctx ctx' :
  runOp op ctx = Ok (tt, ctx') -> exec (runOps [op]) ctx = Ok ctx'.
Proof.
  intros H. unfold exec, runOps. simpl. unfold bind, ret. now rewrite H.
Qed.

Lemma viaOps_ret {A} (a : A) : viaOps (ret a).
Proof. intros ctx b ctx' [= _ <-]. now exists []. Qed.

Lemma viaOps_bind {A B} (m : Emit A) (k : A -> Emit B) :
  viaOps m -> (forall a, viaOps (k a)) -> viaOps (bind m k).
Proof.
  intros Hm Hk ctx b ctx'. unfold bind.
  destruct (m ctx) as [[a ctx1]|e] eqn:E; [| discriminate].
  intros H. destruct (Hm ctx a ctx1 E) as (ops1 & H1).
  destruct (Hk a ctx1 b ctx' H) as (ops2 & H2).
  exists (ops1 ++ ops2). eapply exec_runOps_app; eassumption.
Qed.

Lemma viaOps_if {A} (c : bool) (a b : Emit A) :
  viaOps a -> viaOps b -> viaOps (if c then a else b).
Proof. now destruct c. Qed.

Lemma viaOps_runOp op : viaOps (runOp op).
Proof.
  intros ctx [] ctx' H. exists [op]. now apply exec_runOps_one.
Qed.

Lemma viaOps_print from part newLine : viaOps (print from part newLine).
Proof. exact (viaOps_runOp (OpPrint from part newLine)). Qed.

Lemma viaOps_incIndent : viaOps incIndent.
Proof. exact (viaOps_runOp OpIncIndent). Qed.

Lemma viaOps_decIndent : viaOps decIndent.
Proof. exact (viaOps_runOp OpDecIndent). Qed.

Lemma viaOps_removeEmptyLastLine : viaOps removeEmptyLastLine.
Proof. exact (viaOps_runOp OpRemoveEmptyLastLine). Qed.

Lemma viaOps_lineIsEmpty : viaOps lineIsEmpty.
Proof.
  intros ctx b ctx'. unfold lineIsEmpty.
  destruct (_currentLine ctx); [| discriminate].
  intros [= _ <-]. now exists [].
Qed.

Lemma viaOps_liftResult {A} (r : result A) : viaOps (liftResult r).
Proof.
  intros ctx a ctx'. unfold liftResult.
  destruct r; [| discriminate]. intros [= _ <-]. now exists [].
Qed.

Lemma viaOps_visitAllObjects {T} (handler : T -> Emit unit) separator
    newLine (l : list T) :
  Forall (fun x => viaOps (handler x)) l ->
  viaOps (visitAllObjects handler l separator newLine).
Proof.
  intros H. unfold visitAllObjects. apply viaOps_bind.
  - generalize 0. induction H as [|x l Hx Hl IH]; intros i; simpl.
    + apply viaOps_ret.
    + apply viaOps_bind;
        [apply viaOps_if; [apply viaOps_print | apply viaOps_ret] |].
      intros _. apply viaOps_bind; [exact Hx | intros _; apply IH].
  - intros _. apply viaOps_if; [apply viaOps_print | apply viaOps_ret].
Qed.

Lemma viaOps_forEach {T} (handler : T -> Emit unit) (l : list T) :
  Forall (fun x => viaOps (handler x)) l -> viaOps (forEach handler l).
Proof.
  induction 1 as [|x l Hx Hl IH]; simpl.
  - apply viaOps_ret.
  - apply viaOps_bind; [exact Hx | intros _; exact IH].
Qed.

Ltac ops_chain :=
  lazymatch goal with
  | |- viaOps (ret _) => apply viaOps_ret
  | |- viaOps (print _ _ _) => apply viaOps_print
  | |- viaOps (println _ _) => apply viaOps_print
  | |- viaOps incIndent => apply viaOps_incIndent
  | |- viaOps decIndent => apply viaOps_decIndent
  | |- viaOps removeEmptyLastLine => apply viaOps_removeEmptyLastLine
  | |- viaOps lineIsEmpty => apply viaOps_lineIsEmpty
  | |- viaOps (liftResult _) => apply viaOps_liftResult
  | |- viaOps (if _ then _ else _) => apply viaOps_if; ops_chain
  | |- viaOps (bind _ _) =>
      apply viaOps_bind; [ops_chain | intros ?; ops_chain]
  | |- viaOps (visitAllObjects _ _ _ _) =>
      apply viaOps_visitAllObjects; eassumption
  | |- viaOps (forEach _ _) => apply viaOps_forEach; eassumption
  | |- _ => eassumption
  end.

Lemma visitExpression_viaOps (this : AbstractEmitterVisitor) :
  forall e, viaOps (visitExpression this e).
Proof.
  induction e using Expression_induction; cbn [visitExpression].
  - destruct name; ops_chain.
  - ops_chain.
  - ops_chain.
  - ops_chain.
  - apply viaOps_bind; [assumption | intros _].
    destruct (match name with
              | inl n => Some n
              | inr builtin => getBuiltinMethodName this builtin
              end); ops_chain.
  - ops_chain.
  - ops_chain.
  - ops_chain.
  - ops_chain.
  - ops_chain.
  - ops_chain.
  - ops_chain.
  - ops_chain.
  - ops_chain.
  - apply viaOps_bind; [apply viaOps_print | intros _].
    apply viaOps_bind; [apply viaOps_incIndent | intros _].
    apply viaOps_bind; [| intros _; ops_chain].
    apply viaOps_visitAllObjects.
    eapply Forall_impl; [| eassumption].
    intros [key value quoted] Hv. ops_chain.
Qed.

Lemma visitStatement_viaOps (this : AbstractEmitterVisitor) :
  forall s, viaOps (visitStatement this s).
Proof.
  assert (He := visitExpression_viaOps this).
  induction s as [sp expr | sp value | sp condition trueCase falseCase HT HF
                 | sp error | sp comment] using Statement_induction;
    cbn [visitStatement].
  - apply viaOps_bind; [apply He | intros _; ops_chain].
  - apply viaOps_bind; [ops_chain | intros _].
    apply viaOps_bind; [apply He | intros _; ops_chain].
  - apply viaOps_bind; [ops_chain | intros _].
    apply viaOps_bind; [apply He | intros _].
    apply viaOps_bind; [ops_chain | intros _].
    apply viaOps_bind; [| intros _; ops_chain].
    apply viaOps_if; ops_chain.
  - apply viaOps_bind; [ops_chain | intros _].
    apply viaOps_bind; [apply He | intros _; ops_chain].
  - apply viaOps_forEach. apply Forall_forall. intros line _. ops_chain.
Qed.

Lemma visitAllStatements_viaOps (this : AbstractEmitterVisitor) stmts :
  viaOps (visitAllStatements this stmts).
Proof.
  apply viaOps_forEach. apply Forall_forall. intros s _.
  apply visitStatement_viaOps.
Qed.

Lemma runOp_exportedVars op ctx ctx' :
  runOp op ctx = Ok (tt, ctx') -> _exportedVars ctx' = _exportedVars ctx.
Proof.
  rewrite (context_eta ctx). destruct ctx as [ev lines ind]. simpl.
  destruct (snoc_cases lines) as [-> | (init & cur & ->)].
  - fold (mkContext ev [] ind).
    destruct op as [from part newLine | | |]; simpl; try discriminate.
    rewrite print_nil. destruct (0 <? strlen part)%Z; [discriminate |].
    now intros [= <-].
  - fold (mkContext ev (init ++ [cur]) ind).
    destruct op as [from part newLine | | |]; simpl.
    + rewrite print_snoc. now intros [= <-].
    + unfold incIndent. rewrite setIndent_snoc. now intros [= <-].
    + unfold decIndent. rewrite setIndent_snoc. now intros [= <-].
    + rewrite removeEmptyLastLine_snoc. intros [= <-].
      now destruct (length (parts cur) =? 0)%nat.
Qed.

Lemma runOps_exportedVars ops : forall ctx ctx',
  exec (runOps ops) ctx = Ok ctx' -> _exportedVars ctx' = _exportedVars ctx.
Proof.
  induction ops as [|op ops IH]; intros ctx ctx' H.
  - apply exec_runOps_nil in H. now subst.
  - apply exec_runOps_cons in H. destruct H as (c & H1 & H2).
    rewrite (IH _ _ H2). exact (runOp_exportedVars _ _ H1).
Qed.

(** X9.  The rendering of an expression, of a statement and of a list of
    statements acts on the context through [print], [incIndent],
    [decIndent] and [removeEmptyLastLine] only: whenever it returns, the
    context it ends in is the one that a sequence of these operations,
    run one after the other, ends in. *)
Theorem X9_rendering_runs_operations (this : AbstractEmitterVisitor)
    (e : Expression) (s : Statement) (stmts : list Statement) :
  viaOps (visitExpression this e)
  /\ viaOps (visitStatement this s)
  /\ viaOps (visitAllStatements this stmts).
Proof.
  split; [apply visitExpression_viaOps |].
  split; [apply visitStatement_viaOps | apply visitAllStatements_viaOps].
Qed.

Lemma isExportedVar_In varName ctx :
  isExportedVar varName ctx = true <-> In varName (_exportedVars ctx).
Proof.
  unfold isExportedVar. rewrite existsb_exists. split.
  - intros (x & Hx & E). apply String.eqb_eq in E. now subst.
  - intros H. exists varName. split; [exact H | apply String.eqb_refl].
Qed.

(** X10.  [isExportedVar] answers whether the name is among the names the
    context was built with, and no context operation and no rendering
    changes its answer. *)
Theorem X10_isExportedVar (this : AbstractEmitterVisitor) (varName : string)
    (exportedVars : list string) (indent : Z) :
  (isExportedVar varName (newContext exportedVars indent) = true
   <-> In varName exportedVars)
  /\ (forall ops ctx ctx',
        exec (runOps ops) ctx = Ok ctx' ->
        isExportedVar varName ctx' = isExportedVar varName ctx)
  /\ (forall stmts ctx ctx',
        exec (visitAllStatements this stmts) ctx = Ok ctx' ->
        isExportedVar varName ctx' = isExportedVar varName ctx)
  /\ (forall e ctx ctx',
        exec (visitExpression this e) ctx = Ok ctx' ->
        isExportedVar varName ctx' = isExportedVar varName ctx).
Proof.
  split; [apply isExportedVar_In |].
  assert (Hops : forall ops ctx ctx',
            exec (runOps ops) ctx = Ok ctx' ->
            isExportedVar varName ctx' = isExportedVar varName ctx).
  { intros ops ctx ctx' H. unfold isExportedVar.
    now rewrite (runOps_exportedVars _ _ H). }
  split; [exact Hops |].
  split.
  - intros stmts ctx ctx' H. unfold exec in H.
    destruct (visitAllStatements this stmts ctx) as [[[] c]|] eqn:E;
      [| discriminate].
    injection H as ->.
    destruct (@visitAllStatements_viaOps this stmts ctx tt ctx' E)
      as (ops & Hrun).
    exact (Hops _ _ _ Hrun).
  - intros e ctx ctx' H. unfold exec in H.
    destruct (visitExpression this e ctx) as [[[] c]|] eqn:E;
      [| discriminate].
    injection H as ->.
    destruct (@visitExpression_viaOps this e ctx tt ctx' E) as (ops & Hrun).
    exact (Hops _ _ _ Hrun).
Qed.

(* ===================================================================== *)
(** * Further properties of the rendering *)
(* ===================================================================== *)

(** ** What rendering leaves untouched *)

Lemma outcome_returns m fatal d ctx ctx' :
  outcome m fatal d -> hasLine ctx -> m ctx = Ok (tt, ctx') ->
  steps d ctx ctx'.
Proof.
  intros H Hctx E. specialize (H ctx Hctx). destruct fatal as [x|].
  - rewrite E in H. discriminate.
  - destruct H as (c & E' & Hs). rewrite E in E'. now injection E' as ->.
Qed.

Lemma outcomeLine_returns m fatal ctx ctx' :
  outcomeLine m fatal -> hasLine ctx -> m ctx = Ok (tt, ctx') ->
  endsLine ctx ctx'.
Proof.
  intros H Hctx E. specialize (H ctx Hctx). destruct fatal as [x|].
  - rewrite E in H. discriminate.
  - destruct H as (c & E' & Hs). rewrite E in E'. now injection E' as ->.
Qed.

(** X11.  Rendering writes at the end only.  When the rendering of an
    expression returns, the names of the context and its indent counter
    are as before, the lines completed before are untouched, and the
    fragments and spans that the line in progress had are still the first
    ones of that line, in their order, whatever follows them; nothing is
    said of the indent of that line, which rendering can set anew.  When
    the rendering of a statement returns, the same holds and the context
    ends with a fresh empty line at the indent of the counter. *)
Theorem X11_rendering_frame (this : AbstractEmitterVisitor)
    (ctx : EmitterVisitorContext) :
  hasLine ctx ->
  (forall e ctx',
     visitExpression this e ctx = Ok (tt, ctx') ->
     _exportedVars ctx' = _exportedVars ctx
     /\ _indent ctx' = _indent ctx
     /\ exists init cur cur' more ps ss,
          _lines ctx = init ++ [cur]
          /\ _lines ctx' = init ++ cur' :: more
          /\ parts cur' = parts cur ++ ps
          /\ srcSpans cur' = srcSpans cur ++ ss)
  /\ (forall s ctx',
        visitStatement this s ctx = Ok (tt, ctx') ->
        _exportedVars ctx' = _exportedVars ctx
        /\ _indent ctx' = _indent ctx
        /\ exists init cur cur' more ps ss,
             _lines ctx = init ++ [cur]
             /\ _lines ctx'
                = init ++ cur' :: more ++ [new_EmittedLine (_indent ctx)]
             /\ parts cur' = parts cur ++ ps
             /\ srcSpans cur' = srcSpans cur ++ ss).
Proof.
  intros Hctx. split.
  - intros e ctx' E.
    destruct (outcome_returns (visitExpression_outcome this e) Hctx E)
      as [[Hev (init & cur & cur' & more & Ha & Hb & ps & ss & Hp & Hs)]
          Hind].
    split; [exact Hev |]. split; [lia |].
    exists init, cur, cur', more, ps, ss. auto.
  - intros s ctx' E.
    destruct (outcomeLine_returns (visitStatement_outcome this s) Hctx E)
      as (Hev & Hind & init & cur & cur' & more & Ha & Hb & ps & ss & Hp
          & Hs).
    split; [exact Hev |]. split; [exact Hind |].
    exists init, cur, cur', more, ps, ss. auto.
Qed.

Lemma X11_rendering_frame_witness :
  exists ctx',
    visitStatement Sample.emitter Sample.returnSum (createRoot [])
    = Ok (tt, ctx')
    /\ _exportedVars ctx' = [] /\ _indent ctx' = 0%Z.
Proof.
  eexists. split; [vm_compute; reflexivity |].
  assert (Hroot : hasLine (createRoot [])) by discriminate.
  destruct (proj2 (@X11_rendering_frame Sample.emitter (createRoot [])
                     Hroot) Sample.returnSum _
                  ltac:(vm_compute; reflexivity)) as (H1 & H2 & _).
  split; assumption.
Defined.

(** ** Indentation never goes below where rendering started *)

Lemma bounded_ret {A} (a : A) n : indentBounded n 0 (ret a).
Proof.
  intros b ctx x ctx' [= _ <-] _ H. split; [lia | exact H].
Qed.

Lemma bounded_bind {A B} (m : Emit A) (k : A -> Emit B) n d1 d :
  indentBounded n d1 m ->
  (forall a, indentBounded (n + d1) (d - d1) (k a)) ->
  indentBounded n d (bind m k).
Proof.
  intros Hm Hk b ctx x ctx'. unfold bind.
  destruct (m ctx) as [[a ctx1]|e] eqn:E; [| discriminate].
  intros H Hn HF.
  destruct (Hm b ctx a ctx1 E Hn HF) as [Hi1 HF1].
  destruct (Hk a b ctx1 x ctx' H ltac:(lia) HF1) as [Hi2 HF2].
  split; [lia | exact HF2].
Qed.

Lemma bounded_if {A} (c : bool) (a b : Emit A) n d :
  indentBounded n d a -> indentBounded n d b ->
  indentBounded n d (if c then a else b).
Proof. now destruct c. Qed.

Lemma bounded_runOp op n :
  (0 <= n + indentDelta op)%Z ->
  indentBounded n (indentDelta op) (runOp op).
Proof.
  intros Hn b ctx [] ctx' E Hb HF.
  apply runOp_indent in E. destruct E as [Hi Hkeep].
  split; [exact Hi |].
  apply Hkeep; try assumption.
  - intros l from part Hl. unfold addPart.
    now destruct (0 <? strlen part)%Z.
  - intros l _. simpl. lia.
  - simpl. lia.
Qed.

Lemma bounded_print from part newLine n :
  (0 <= n)%Z -> indentBounded n 0 (print from part newLine).
Proof.
  intros H. apply (@bounded_runOp (OpPrint from part newLine)). simpl. lia.
Qed.

Lemma bounded_incIndent n : (0 <= n + 1)%Z -> indentBounded n 1 incIndent.
Proof. intros H. now apply (@bounded_runOp OpIncIndent). Qed.

Lemma bounded_decIndent n : (1 <= n)%Z -> indentBounded n (-1) decIndent.
Proof.
  intros H. apply (@bounded_runOp OpDecIndent). simpl. lia.
Qed.

Lemma bounded_removeEmptyLastLine n :
  (0 <= n)%Z -> indentBounded n 0 removeEmptyLastLine.
Proof.
  intros H. apply (@bounded_runOp OpRemoveEmptyLastLine). simpl. lia.
Qed.

Lemma bounded_lineIsEmpty n : indentBounded n 0 lineIsEmpty.
Proof.
  intros b ctx x ctx'. unfold lineIsEmpty.
  destruct (_currentLine ctx); [| discriminate].
  intros [= _ <-] _ H. split; [lia | exact H].
Qed.

Lemma bounded_liftResult {A} (r : result A) n : indentBounded n 0 (liftResult r).
Proof.
  intros b ctx x ctx'. unfold liftResult.
  destruct r; [| discriminate].
  intros [= _ <-] _ H. split; [lia | exact H].
Qed.

Lemma bounded_visitAllObjects {T} (handler : T -> Emit unit) separator
    newLine (l : list T) :
  Forall (fun x => forall n, (0 <= n)%Z -> indentBounded n 0 (handler x)) l ->
  forall n, (0 <= n)%Z ->
    indentBounded n 0 (visitAllObjects handler l separator newLine).
Proof.
  intros H n Hn. unfold visitAllObjects.
  apply bounded_bind with (d1 := 0%Z).
  - generalize 0. induction H as [|x l Hx Hl IH]; intros i; simpl.
    + apply bounded_ret.
    + apply bounded_bind with (d1 := 0%Z);
        [apply bounded_if; [now apply bounded_print | apply bounded_ret] |].
      intros _. apply bounded_bind with (d1 := 0%Z).
      * apply Hx. lia.
      * intros _. replace (n + 0 + 0)%Z with n by lia. apply IH.
  - intros _. apply bounded_if;
      [apply bounded_print; lia | apply bounded_ret].
Qed.

Lemma bounded_forEach {T} (handler : T -> Emit unit) (l : list T) :
  Forall (fun x => forall n, (0 <= n)%Z -> indentBounded n 0 (handler x)) l ->
  forall n, (0 <= n)%Z -> indentBounded n 0 (forEach handler l).
Proof.
  induction 1 as [|x l Hx Hl IH]; intros n Hn; simpl.
  - apply bounded_ret.
  - apply bounded_bind with (d1 := 0%Z); [now apply Hx |].
    intros _. apply IH. lia.
Qed.

Ltac bounded_chain :=
  lazymatch goal with
  | |- indentBounded _ _ (ret _) => apply bounded_ret
  | |- indentBounded _ _ (print _ _ _) => apply bounded_print; lia
  | |- indentBounded _ _ (println _ _) => apply bounded_print; lia
  | |- indentBounded _ _ incIndent => apply bounded_incIndent; lia
  | |- indentBounded _ _ decIndent => apply bounded_decIndent; lia
  | |- indentBounded _ _ removeEmptyLastLine =>
      apply bounded_removeEmptyLastLine; lia
  | |- indentBounded _ _ lineIsEmpty => apply bounded_lineIsEmpty
  | |- indentBounded _ _ (liftResult _) => apply bounded_liftResult
  | |- indentBounded _ _ (if _ then _ else _) =>
      apply bounded_if; bounded_chain
  | |- indentBounded _ _ (bind _ _) =>
      eapply bounded_bind; [bounded_chain | intros ?; bounded_chain]
  | |- indentBounded _ _ (visitAllObjects _ _ _ _) =>
      apply bounded_visitAllObjects; [eassumption | lia]
  | |- indentBounded _ _ (forEach _ _) =>
      apply bounded_forEach; [eassumption | lia]
  | H : forall n, (0 <= n)%Z -> indentBounded n 0 ?m
    |- indentBounded _ _ ?m => apply H; lia
  end.

Lemma visitExpression_bounded (this : AbstractEmitterVisitor) :
  forall e n, (0 <= n)%Z -> indentBounded n 0 (visitExpression this e).
Proof.
  induction e using Expression_induction; intros n Hn;
    cbn [visitExpression].
  - destruct name; bounded_chain.
  - bounded_chain.
  - bounded_chain.
  - bounded_chain.
  - eapply bounded_bind; [bounded_chain | intros _].
    destruct (match name with
              | inl n => Some n
              | inr builtin => getBuiltinMethodName this builtin
              end); bounded_chain.
  - bounded_chain.
  - bounded_chain.
  - bounded_chain.
  - bounded_chain.
  - bounded_chain.
  - bounded_chain.
  - bounded_chain.
  - bounded_chain.
  - bounded_chain.
  - eapply bounded_bind; [bounded_chain | intros _].
    eapply bounded_bind; [bounded_chain | intros _].
    apply bounded_bind with (d1 := 0%Z); [| intros _; bounded_chain].
    apply bounded_visitAllObjects; [| lia].
    eapply Forall_impl; [| eassumption].
    intros [key value quoted] Hv m Hm. bounded_chain.
Qed.

Lemma visitStatement_bounded (this : AbstractEmitterVisitor) :
  forall s n, (0 <= n)%Z -> indentBounded n 0 (visitStatement this s).
Proof.
  assert (He := visitExpression_bounded this).
  induction s as [sp expr | sp value | sp condition trueCase falseCase HT HF
                 | sp error | sp comment] using Statement_induction;
    intros n Hn; cbn [visitStatement].
  - eapply bounded_bind; [apply He; lia | intros _; bounded_chain].
  - eapply bounded_bind; [bounded_chain | intros _].
    eapply bounded_bind; [apply He; lia | intros _; bounded_chain].
  - eapply bounded_bind; [bounded_chain | intros _].
    eapply bounded_bind; [apply He; lia | intros _].
    eapply bounded_bind; [bounded_chain | intros _].
    apply bounded_bind with (d1 := 0%Z); [| intros _; bounded_chain].
    apply bounded_if.
    + bounded_chain.
    + eapply bounded_bind; [bounded_chain | intros _].
      eapply bounded_bind; [bounded_chain | intros _].
      eapply bounded_bind; [bounded_chain | intros _].
      apply bounded_bind with (d1 := (-1)%Z); [bounded_chain | intros _].
      apply bounded_if; bounded_chain.
  - eapply bounded_bind; [bounded_chain | intros _].
    eapply bounded_bind; [apply He; lia | intros _; bounded_chain].
  - apply bounded_forEach; [| lia].
    apply Forall_forall. intros line _ m Hm. bounded_chain.
Qed.

(** X12.  Rendering never writes to the left of where it started: when
    the counter and the indent of every line of the context are at [b] or
    deeper, then after the rendering of statements every line is at [b]
    or deeper and the counter is back at its value.  From a root context
    no line has a negative indent. *)
Theorem X12_rendering_indent_bounded (this : AbstractEmitterVisitor)
    (stmts : list Statement) (b : Z) (ctx ctx' : EmitterVisitorContext) :
  exec (visitAllStatements this stmts) ctx = Ok ctx' ->
  (b <= _indent ctx)%Z ->
  Forall (fun l => (b <= indent l)%Z) (_lines ctx) ->
  _indent ctx' = _indent ctx
  /\ Forall (fun l => (b <= indent l)%Z) (_lines ctx')
  /\ Forall (fun l => (b <= indent l)%Z) (sourceLines ctx').
Proof.
  intros H Hb HF. unfold exec in H.
  destruct (visitAllStatements this stmts ctx) as [[[] c]|] eqn:E;
    [| discriminate].
  injection H as ->.
  assert (Hall : indentBounded 0 0 (visitAllStatements this stmts)).
  { apply bounded_forEach; [| lia].
    apply Forall_forall. intros s _. apply visitStatement_bounded. }
  destruct (Hall b ctx tt ctx' E ltac:(lia) HF) as [Hi HF'].
  split; [lia |]. split; [exact HF' |].
  now apply sourceLines_Forall.
Qed.

Lemma X12_rendering_indent_bounded_witness :
  exists ctx',
    Sample.renderStatements [Sample.ifTwo] = Ok ctx'
    /\ _indent ctx' = 0%Z
    /\ Forall (fun l => (0 <= indent l)%Z) (_lines ctx')
    /\ Forall (fun l => (0 <= indent l)%Z) (sourceLines ctx').
Proof.
  eexists. split; [vm_compute; reflexivity |].
  apply (@X12_rendering_indent_bounded Sample.emitter [Sample.ifTwo] 0%Z
           (createRoot [])).
  - vm_compute. reflexivity.
  - vm_compute. discriminate.
  - constructor; [vm_compute; discriminate | constructor].
Defined.

(** ** The operations that rendering issues, and the indent counter *)























(* ===================================================================== *)
(** * Further properties of the source text and the position map *)
(* ===================================================================== *)

Lemma strlen_append a b : strlen (a ++ b)%string = (strlen a + strlen b)%Z.
Proof. unfold strlen. rewrite length_append. lia. Qed.

Lemma strlen_join ps : strlen (join_empty ps) = totalWidth ps.
Proof.
  induction ps as [|p ps IH]; [reflexivity |].
  rewrite join_empty_cons, strlen_append, IH. reflexivity.
Qed.

Lemma strlen_createIndent n :
  (0 <= n)%Z -> strlen (_createIndent n) = (n * 2)%Z.
Proof.
  intros H. unfold strlen, _createIndent.
  rewrite repeatString_length. simpl String.length. lia.
Qed.

Lemma lineText_nonempty l :
  parts l <> [] ->
  lineText l = (_createIndent (indent l) ++ join_empty (parts l))%string.
Proof.
  intros H. unfold lineText. destruct (parts l); [congruence | reflexivity].
Qed.

Lemma runStarts_In spans i :
  In i (runStarts spans) ->
  i < length spans /\ exists s, spanAt spans i = Some s.
Proof.
  unfold runStarts. intros H. apply filter_In in H. destruct H as [Hi Hs].
  apply in_seq in Hi. split; [lia |].
  unfold startsRun in Hs. destruct (spanAt spans i) as [s|]; [| discriminate].
  now exists s.
Qed.

(** X13.  The generated column of a mapping entry is the place of its
    fragment in the source text.  On a line as [print] builds it, with an
    indent that is not negative, the calls are those of the fragments that
    open a run, and for each of them the text that [toSource] gives for
    the line is made of [before], the fragment and [after], with the
    length of [before] as the generated column of the entry. *)
Theorem X13_mapping_column_in_text (l : _EmittedLine) :
  wfLine l ->
  (0 <= indent l)%Z ->
  lineCalls l
  = Ok (addLine :: flat_map (runEntry l) (runStarts (srcSpans l)))
  /\ forall i, In i (runStarts (srcSpans l)) ->
       exists s part before after,
         spanAt (srcSpans l) i = Some s
         /\ nth_error (parts l) i = Some part
         /\ runEntry l i = entryCalls (strlen before) s
         /\ lineText l = (before ++ part ++ after)%string.
Proof.
  intros [Hlen Hne] Hind. split; [now apply lineCalls_spec |].
  intros i Hi. apply runStarts_In in Hi. destruct Hi as [Hlt (s & Hs)].
  rewrite <- Hlen in Hlt.
  destruct (nth_error (parts l) i) as [part|] eqn:Hp;
    [| apply nth_error_None in Hp; lia].
  destruct (nth_error_split _ _ Hp) as (l1 & l2 & Hsplit & Hl1).
  exists s, part,
    (_createIndent (indent l) ++ join_empty l1)%string, (join_empty l2).
  split; [exact Hs |]. split; [reflexivity |]. split.
  - unfold runEntry. rewrite Hs. f_equal. unfold columnAt.
    rewrite strlen_append, strlen_createIndent, strlen_join by exact Hind.
    rewrite Hsplit, <- Hl1, firstn_length_app. reflexivity.
  - rewrite lineText_nonempty.
    + rewrite Hsplit, join_empty_app, join_empty_cons.
      now rewrite append_assoc.
    + rewrite Hsplit. now destruct l1.
Qed.

Lemma X13_mapping_column_in_text_witness :
  lineCalls Sample.sumTwoSpansLine
  = Ok (addLine :: flat_map (runEntry Sample.sumTwoSpansLine)
                            (runStarts (srcSpans Sample.sumTwoSpansLine))).
Proof.
  refine (proj1 (@X13_mapping_column_in_text Sample.sumTwoSpansLine _ _)).
  - split; [reflexivity |]. repeat constructor.
  - vm_compute. discriminate.
Defined.

Lemma sourceLines_snoc ev init cur ind :
  sourceLines (mkContext ev (init ++ [cur]) ind)
  = if (length (parts cur) =? 0)%nat then init else init ++ [cur].
Proof.
  unfold sourceLines. rewrite currentLine_snoc. simpl.
  now rewrite removelast_last.
Qed.

Lemma concat_snoc sep xs a :
  String.concat sep (xs ++ [a])
  = match xs with
    | [] => a
    | _ => (String.concat sep xs ++ sep ++ a)%string
    end.
Proof.
  induction xs as [|x xs IH]; [reflexivity |].
  destruct xs as [|y xs]; [reflexivity |].
  change (String.concat sep (((x :: y :: xs) ++ [a])))
    with (x ++ sep ++ String.concat sep ((y :: xs) ++ [a]))%string.
  rewrite IH.
  change (String.concat sep (x :: y :: xs))
    with (x ++ sep ++ String.concat sep (y :: xs))%string.
  now rewrite !append_assoc.
Qed.

Lemma toSource_snoc ev init cur ind :
  parts cur <> [] ->
  toSource (mkContext ev (init ++ [cur]) ind)
  = String.concat NL (map lineText init ++ [lineText cur]).
Proof.
  intros H. unfold toSource. rewrite sourceLines_snoc.
  destruct (parts cur); [congruence |]. simpl Nat.eqb. cbv iota.
  now rewrite map_app.
Qed.

Lemma toSource_snoc_empty ev init cur ind :
  parts cur = [] ->
  toSource (mkContext ev (init ++ [cur]) ind)
  = String.concat NL (map lineText init).
Proof.
  intros H. unfold toSource. rewrite sourceLines_snoc, H. reflexivity.
Qed.

Lemma concat_snoc_append sep xs a p :
  String.concat sep (xs ++ [(a ++ p)%string])
  = (String.concat sep (xs ++ [a]) ++ p)%string.
Proof.
  rewrite !concat_snoc. destruct xs; [reflexivity |].
  now rewrite !append_assoc.
Qed.

(** X14.  What [print] adds to the source text.  On a line in progress
    that has fragments, the text of [toSource] grows by the printed text
    and by nothing else, with or without [newLine]: the line that
    [newLine] opens shows only once something is printed on it.  On an
    empty line in progress, a non-empty text starts a line of the source
    text with the indent of that line; the empty text adds nothing, and
    with [newLine] it leaves an empty line in the source text. *)
Theorem X14_print_toSource (ev : list string) (init : list _EmittedLine)
    (cur : _EmittedLine) (ind : Z) (from : option ParseSourceSpan)
    (part : string) (newLine : bool) :
  exists ctx',
    print from part newLine (mkContext ev (init ++ [cur]) ind)
    = Ok (tt, ctx')
    /\ (parts cur <> [] ->
        toSource ctx'
        = (toSource (mkContext ev (init ++ [cur]) ind) ++ part)%string)
    /\ (parts cur = [] -> (0 < strlen part)%Z ->
        toSource ctx'
        = String.concat NL
            (map lineText init
             ++ [(_createIndent (indent cur) ++ part)%string]))
    /\ (parts cur = [] -> part = "" ->
        toSource ctx'
        = String.concat NL
            (map lineText init ++ (if newLine then [""] else []))).
Proof.
  eexists. split; [apply print_snoc |].
  assert (Hnew : forall c,
            toSource (mkContext ev ((init ++ [c])
                                    ++ [new_EmittedLine ind]) ind)
            = String.concat NL (map lineText init ++ [lineText c])).
  { intros c. unfold toSource. rewrite sourceLines_snoc. simpl.
    now rewrite map_app. }
  split; [| split].
  - intros Hcur. rewrite (@toSource_snoc ev init cur ind Hcur).
    assert (Hline : lineText (addPart from part cur)
                    = (lineText cur ++ part)%string).
    { unfold addPart. destruct (0 <? strlen part)%Z eqn:Hp.
      - rewrite !lineText_nonempty; simpl;
          [| exact Hcur | now destruct (parts cur)].
        rewrite join_empty_app, join_empty_cons, append_empty_r.
        now rewrite append_assoc.
      - apply strlen_zero in Hp. subst. now rewrite append_empty_r. }
    assert (Hcur' : parts (addPart from part cur) <> []).
    { unfold addPart. destruct (0 <? strlen part)%Z; [| exact Hcur].
      simpl. now destruct (parts cur). }
    rewrite <- concat_snoc_append, <- Hline.
    destruct newLine.
    + apply Hnew.
    + rewrite app_nil_r. now apply toSource_snoc.
  - intros Hcur Hp. apply Z.ltb_lt in Hp.
    assert (Hline : lineText (addPart from part cur)
                    = (_createIndent (indent cur) ++ part)%string).
    { unfold addPart. rewrite Hp. rewrite lineText_nonempty; simpl.
      - rewrite Hcur. simpl. rewrite join_empty_cons.
        now rewrite append_empty_r.
      - rewrite Hcur. discriminate. }
    rewrite <- Hline. destruct newLine.
    + apply Hnew.
    + rewrite app_nil_r. apply toSource_snoc.
      unfold addPart. rewrite Hp, Hcur. discriminate.
  - intros Hcur ->. change (addPart from "" cur) with cur.
    destruct newLine.
    + rewrite Hnew. unfold lineText. now rewrite Hcur.
    + rewrite !app_nil_r. now apply toSource_snoc_empty.
Qed.

Lemma mappingColumns_app a b :
  mappingColumns (a ++ b) = mappingColumns a ++ mappingColumns b.
Proof.
  induction a as [|c a IH]; [reflexivity |].
  destruct c; simpl; now rewrite IH.
Qed.

Lemma mappingColumns_lines lines :
  Forall wfLine lines ->
  Forall (fun l => (0 <= indent l)%Z) lines ->
  Forall (fun c => (0 <= c)%Z)
    (mappingColumns
       (flat_map (fun l => addLine :: mergedWalk None (indent l * 2)
                                        (srcSpans l) (parts l))
                 lines)).
Proof.
  induction 1 as [|l lines [Hlen Hne] Hrest IH]; intros Hind;
    [constructor |].
  inversion Hind as [|? ? Hl Hls]; subst.
  cbn [flat_map]. rewrite mappingColumns_app. apply Forall_app. split.
  - cbn [mappingColumns].
    eapply Forall_impl;
      [| exact (@mappingColumns_walk_bound (srcSpans l) (parts l) None
                  (indent l * 2) Hne)].
    simpl. intros c Hc. lia.
  - now apply IH.
Qed.

(** X15.  Every context that the rendering of statements builds from a
    root context has, on each line, one span slot for each fragment, no
    empty fragment and an indent that is not negative.  On such a
    context the assembly of [toSourceMapGenerator] runs to its end
    without reading a fragment that is missing: it issues the leading
    [addLine] calls and then the calls of the lines, and no generated
    column that it passes to [addMapping] is negative. *)
Theorem X15_source_map_defined (this : AbstractEmitterVisitor)
    (exportedVars : list string) (stmts : list Statement)
    (ctx : EmitterVisitorContext) (file : option string)
    (startsAtLine : Z) :
  exec (visitAllStatements this stmts) (createRoot exportedVars) = Ok ctx ->
  wfContext ctx
  /\ Forall (fun l => (0 <= indent l)%Z) (sourceLines ctx)
  /\ exists calls,
       toSourceMapGenerator ctx file startsAtLine
       = Ok (repeat addLine (Z.to_nat startsAtLine) ++ calls)
       /\ Forall (fun c => (0 <= c)%Z) (mappingColumns calls).
Proof.
  intros H.
  assert (Hwf : wfContext ctx)
    by exact (@visitAllStatements_wf this exportedVars stmts ctx H).
  assert (Hind : Forall (fun l => (0 <= indent l)%Z) (_lines ctx)).
  { unfold exec in H.
    destruct (visitAllStatements this stmts (createRoot exportedVars))
      as [[[] c]|] eqn:E; [| discriminate].
    injection H as ->.
    assert (Hall : indentBounded 0 0 (visitAllStatements this stmts)).
    { apply bounded_forEach; [| lia].
      apply Forall_forall. intros s _. apply visitStatement_bounded. }
    refine (proj2 (Hall 0%Z (createRoot exportedVars) tt ctx E _ _)).
    - simpl. lia.
    - constructor; [simpl; lia | constructor]. }
  assert (Hsrc := @sourceLines_Forall wfLine ctx Hwf).
  assert (Hsrci := @sourceLines_Forall (fun l => (0 <= indent l)%Z) ctx
                     Hind).
  split; [exact Hwf |]. split; [exact Hsrci |].
  eexists. split.
  - unfold toSourceMapGenerator. rewrite forEachLine_walk; [reflexivity |].
    eapply Forall_impl; [| exact Hsrc]. now intros l [Hlen _].
  - now apply mappingColumns_lines.
Qed.

Lemma X15_source_map_defined_witness :
  exists ctx,
    Sample.renderStatements [Sample.returnSum] = Ok ctx
    /\ wfContext ctx
    /\ Forall (fun l => (0 <= indent l)%Z) (sourceLines ctx)
    /\ exists calls,
         toSourceMapGenerator ctx None 0
         = Ok (repeat addLine (Z.to_nat 0) ++ calls)
         /\ Forall (fun c => (0 <= c)%Z) (mappingColumns calls).
Proof.
  eexists. split; [vm_compute; reflexivity |].
  apply (@X15_source_map_defined Sample.emitter [] [Sample.returnSum]).
  vm_compute. reflexivity.
Defined.

(* ===================================================================== *)
(** * Further properties of the texts that are rendered *)
(* ===================================================================== *)

(** ** Comments *)

Lemma splitLines_join s : String.concat NL (splitLines s) = s.
Proof.
  induction s as [|c s IH]; [reflexivity |].
  cbn [splitLines]. destruct (Ascii.eqb_spec c LF) as [-> | Hc].
  - assert (Hne := splitLines_nonempty s).
    destruct (splitLines s) as [|x xs]; [congruence |].
    change (String.concat NL ("" :: x :: xs))
      with ("" ++ NL ++ String.concat NL (x :: xs))%string.
    rewrite IH. reflexivity.
  - assert (Hne := splitLines_nonempty s).
    destruct (splitLines s) as [|x xs]; [congruence |].
    destruct xs as [|y ys].
    + simpl in IH |- *. now rewrite IH.
    + change (String.concat NL (String c x :: y :: ys))
        with (String c (x ++ NL ++ String.concat NL (y :: ys)))%string.
      change (String.concat NL (x :: y :: ys))
        with (x ++ NL ++ String.concat NL (y :: ys))%string in IH.
      now rewrite IH.
Qed.

Lemma forEach_println sp pre (lines : list string) ev init ind :
  (0 < strlen pre)%Z ->
  forEach (fun line => println sp (pre ++ line)) lines
    (mkContext ev (init ++ [new_EmittedLine ind]) ind)
  = Ok (tt, mkContext ev
              (init ++ map (fun line => lineOf (pre ++ line) sp ind) lines
                    ++ [new_EmittedLine ind]) ind).
Proof.
  intros Hpre. revert init.
  induction lines as [|x lines IH]; intros init; [reflexivity |].
  cbn [forEach map]. unfold println at 1.
  erewrite bind_ok by apply print_snoc.
  assert (Hx : (0 <? strlen (pre ++ x))%Z = true).
  { apply Z.ltb_lt. rewrite strlen_append. unfold strlen in *. lia. }
  unfold addPart. rewrite Hx. simpl app at 2.
  change {| parts := [(pre ++ x)%string]; srcSpans := [sp]; indent := ind |}
    with (lineOf (pre ++ x) sp ind).
  rewrite IH, <- app_assoc. reflexivity.
Qed.

Lemma lineText_lineOf text sp ind :
  lineText (lineOf text sp ind) = (_createIndent ind ++ text)%string.
Proof.
  unfold lineText, lineOf. simpl. rewrite join_empty_cons.
  now rewrite append_empty_r.
Qed.

(** X16.  A comment is rendered one line of the output for each line of
    the comment, every one behind [// ] and with the span of the
    statement; the lines of the comment are the pieces between its line
    feeds, so they spell the comment again when joined by line feeds, and
    an empty comment gives the one line [// ]. *)
Theorem X16_comment_lines (this : AbstractEmitterVisitor)
    (sp : option ParseSourceSpan) (comment : string) (ev : list string)
    (init : list _EmittedLine) (ind : Z) :
  visitStatement this (CommentStmt sp comment)
    (mkContext ev (init ++ [new_EmittedLine ind]) ind)
  = Ok (tt, mkContext ev
              (init ++ map (fun line => lineOf ("// " ++ line) sp ind)
                           (splitLines comment)
                    ++ [new_EmittedLine ind]) ind)
  /\ String.concat NL (splitLines comment) = comment
  /\ splitLines comment <> []
  /\ (exists ctx,
        exec (visitStatement this (CommentStmt sp comment))
             (createRoot ev) = Ok ctx
        /\ toSource ctx
           = String.concat NL
               (map (fun line => ("// " ++ line)%string)
                    (splitLines comment))).
Proof.
  split; [| split; [apply splitLines_join | split;
                                            [apply splitLines_nonempty |]]].
  - cbn [visitStatement]. now apply forEach_println.
  - eexists. split.
    + unfold exec. cbn [visitStatement].
      change (createRoot ev) with (mkContext ev ([] ++ [new_EmittedLine 0]) 0).
      rewrite forEach_println by reflexivity. reflexivity.
    + unfold toSource. cbn [app]. rewrite sourceLines_snoc.
      change (length (parts (new_EmittedLine 0)) =? 0)%nat with true.
      cbv iota. rewrite map_map. apply (f_equal (String.concat NL)).
      apply map_ext. intros line. apply lineText_lineOf.
Qed.

(** ** Expressions on one line *)

Lemma emitsInline_ret b : emitsInline (ret tt) b "".
Proof.
  intros ev init cur _. exists [], []. rewrite appendFragments_nil.
  now split.
Qed.

Lemma bind_ret_r (m : Emit unit) ctx : (m ;; ret tt) ctx = m ctx.
Proof. unfold bind, ret. now destruct (m ctx) as [[[] c]|]. Qed.

Lemma concat_as_join sep t rest :
  String.concat sep (t :: rest)
  = (t ++ join_empty (map (append sep) rest))%string.
Proof.
  revert t. induction rest as [|x rest IH]; intros t.
  - simpl. now rewrite append_empty_r.
  - change (String.concat sep (t :: x :: rest))
      with (t ++ sep ++ String.concat sep (x :: rest))%string.
    rewrite IH. cbn [map]. rewrite join_empty_cons.
    now rewrite append_assoc.
Qed.

Lemma emitsInline_rest {T} (handler : T -> Emit unit) sep (l : list T)
    texts :
  Forall2 (fun x t => emitsInline (handler x) false t) l texts ->
  forall i,
    emitsInline (visitAllObjectsFrom handler (S i) l sep false) false
      (join_empty (map (append sep) texts)).
Proof.
  induction 1 as [|x t l texts Hx Hl IH]; intros i.
  - apply emitsInline_ret.
  - cbn [visitAllObjectsFrom map]. rewrite join_empty_cons, append_assoc.
    change (0 <? S i)%nat with true. cbv iota.
    apply emitsInline_bind; [apply emitsInline_print |].
    apply emitsInline_bind; [exact Hx | apply IH].
Qed.

(** The arguments of a call, after the opening parenthesis. *)
Lemma emitsInline_arguments {T} (handler : T -> Emit unit) sep (l : list T)
    texts :
  Forall2 (fun x t => emitsInline (handler x) false t) l texts ->
  emitsInline (visitAllObjects handler l sep false) false
    (String.concat sep texts).
Proof.
  intros H. unfold visitAllObjects.
  rewrite <- (append_empty_r (String.concat sep texts)).
  apply emitsInline_bind; [| apply emitsInline_ret].
  destruct H as [|x t l texts Hx Hl].
  - apply emitsInline_ret.
  - rewrite concat_as_join. cbn [visitAllObjectsFrom].
    change (0 <? 0)%nat with false. cbv iota.
    apply (@emitsInline_bind (ret tt) _ ""
             (t ++ join_empty (map (append sep) texts)));
      [apply emitsInline_ret |].
    apply emitsInline_bind; [exact Hx | now apply emitsInline_rest].
Qed.

Lemma emitsInline_call m sp opening (args : list Expression) this texts b t :
  (0 <? strlen opening)%Z = true ->
  emitsInline m b t ->
  Forall2 (fun a ta => rendersInline this a false ta) args texts ->
  emitsInline (m ;;
               print sp opening false ;;
               visitAllObjects (visitExpression this) args "," false ;;
               print sp ")" false)
              b (t ++ opening ++ String.concat "," texts ++ ")").
Proof.
  intros Hop Hm Hargs.
  apply emitsInline_then_print; [exact Hop | exact Hm |].
  apply emitsInline_bind; [| apply emitsInline_print].
  now apply emitsInline_arguments.
Qed.

(** X17.  Reads of a property and of a key, negation and the conditional
    spell their operands, each rendered on one line, in this way:
    [receiver.name], [receiver[index]], [!condition] and
    [(condition? trueCase: falseCase)], with no blank before the question
    mark and before the colon. *)
Theorem X17_read_not_conditional (this : AbstractEmitterVisitor)
    (sp : option ParseSourceSpan) (receiver index condition trueCase
     falseCase : Expression) (name tr ti tc tt tf : string) (b : bool) :
  rendersInline this receiver b tr ->
  rendersInline this index false ti ->
  rendersInline this condition false tc ->
  rendersInline this trueCase false tt ->
  rendersInline this falseCase false tf ->
  rendersInline this (ReadPropExpr sp receiver name) b (tr ++ "." ++ name)
  /\ rendersInline this (ReadKeyExpr sp receiver index) b
       (tr ++ "[" ++ ti ++ "]")
  /\ rendersInline this (NotExpr sp condition) b ("!" ++ tc)
  /\ rendersInline this (ConditionalExpr sp condition trueCase falseCase) b
       ("(" ++ tc ++ "? " ++ tt ++ ": " ++ tf ++ ")").
Proof.
  intros Hr Hi Hc Ht Hf. unfold rendersInline in *.
  split; [| split; [| split]]; cbn [visitExpression].
  - apply emitsInline_then_print; [reflexivity | exact Hr |].
    apply emitsInline_print.
  - apply emitsInline_then_print; [reflexivity | exact Hr |].
    apply emitsInline_bind; [exact Hi | apply emitsInline_print].
  - apply emitsInline_print_then; [reflexivity | exact Hc].
  - apply emitsInline_print_then; [reflexivity |].
    apply emitsInline_bind; [exact Hc |].
    apply emitsInline_print_then; [reflexivity |].
    apply emitsInline_bind; [exact Ht |].
    apply emitsInline_print_then; [reflexivity |].
    apply emitsInline_bind; [exact Hf | apply emitsInline_print].
Qed.

Lemma X17_read_not_conditional_witness :
  rendersInline Sample.emitter
    (ReadPropExpr None (Sample.var None "a") "x") true "a.x"
  /\ rendersInline Sample.emitter
       (ReadKeyExpr None (Sample.var None "a") (Sample.var None "i")) true
       "a[i]"
  /\ rendersInline Sample.emitter (NotExpr None (Sample.var None "c")) true
       "!c"
  /\ rendersInline Sample.emitter
       (ConditionalExpr None (Sample.var None "c") (Sample.var None "t")
          (Sample.var None "f")) true "(c? t: f)".
Proof.
  exact (@X17_read_not_conditional Sample.emitter None
           (Sample.var None "a") (Sample.var None "i")
           (Sample.var None "c") (Sample.var None "t")
           (Sample.var None "f") "x" "a" "i" "c" "t" "f" true
           (@rendersInline_var _ _ _ _) (@rendersInline_var _ _ _ _)
           (@rendersInline_var _ _ _ _) (@rendersInline_var _ _ _ _)
           (@rendersInline_var _ _ _ _)).
Defined.

(** X18.  A function call, an instantiation and a method call spell
    [fn(args)], [new classExpr(args)] and [receiver.name(args)], the
    arguments joined by a comma with no blank after it.  A builtin method
    is called by the name [getBuiltinMethodName] gives; when it gives
    none, the call renders as its receiver alone and the arguments are
    not rendered at all. *)
Theorem X18_calls (this : AbstractEmitterVisitor)
    (sp : option ParseSourceSpan) (fn : Expression) (args : list Expression)
    (tf tfn : string) (texts : list string) (b : bool) :
  rendersInline this fn b tf ->
  rendersInline this fn false tfn ->
  Forall2 (fun a ta => rendersInline this a false ta) args texts ->
  rendersInline this (InvokeFunctionExpr sp fn args) b
    (tf ++ "(" ++ String.concat "," texts ++ ")")
  /\ rendersInline this (InstantiateExpr sp fn args) b
       ("new " ++ tfn ++ "(" ++ String.concat "," texts ++ ")")
  /\ (forall name,
        rendersInline this (InvokeMethodExpr sp fn (inl name) args) b
          (tf ++ ("." ++ name ++ "(") ++ String.concat "," texts ++ ")"))
  /\ (forall builtin name,
        getBuiltinMethodName this builtin = Some name ->
        rendersInline this (InvokeMethodExpr sp fn (inr builtin) args) b
          (tf ++ ("." ++ name ++ "(") ++ String.concat "," texts ++ ")"))
  /\ (forall builtin anyArgs ctx,
        getBuiltinMethodName this builtin = None ->
        visitExpression this (InvokeMethodExpr sp fn (inr builtin) anyArgs)
          ctx
        = visitExpression this fn ctx).
Proof.
  intros Hf Hfn Hargs. unfold rendersInline in *.
  split; [| split; [| split; [| split]]].
  - cbn [visitExpression]. now apply emitsInline_call.
  - cbn [visitExpression].
    apply emitsInline_print_then; [reflexivity |].
    now apply emitsInline_call.
  - intros name. cbn [visitExpression].
    now apply emitsInline_call.
  - intros builtin name Hname. cbn [visitExpression]. rewrite Hname.
    now apply emitsInline_call.
  - intros builtin anyArgs ctx Hnone. cbn [visitExpression].
    rewrite Hnone. apply bind_ret_r.
Qed.

Lemma X18_calls_witness :
  rendersInline Sample.emitter
    (InvokeFunctionExpr None (Sample.var None "f")
       [Sample.var None "a"; Sample.var None "b"]) true "f(a,b)"
  /\ rendersInline Sample.emitter
       (InstantiateExpr None (Sample.var None "f")
          [Sample.var None "a"; Sample.var None "b"]) true "new f(a,b)".
Proof.
  destruct (@X18_calls Sample.emitter None (Sample.var None "f")
              [Sample.var None "a"; Sample.var None "b"] "f" "f"
              ["a"; "b"] true
              (@rendersInline_var _ _ _ _) (@rendersInline_var _ _ _ _)
              ltac:(constructor; [apply rendersInline_var |];
                    constructor; [apply rendersInline_var |];
                    constructor))
    as (H1 & H2 & _).
  split; [exact H1 | exact H2].
Defined.

(** ** Statements on one line *)

Lemma rendersOneLine_expression this sp e t b :
  rendersInline this e b t ->
  rendersOneLine this (ExpressionStatement sp e) b (t ++ ";").
Proof.
  intros He. unfold rendersOneLine. cbn [visitStatement].
  now apply emitsLine_println.
Qed.

Lemma rendersOneLine_throw this sp e t b :
  rendersInline this e false t ->
  rendersOneLine this (ThrowStmt sp e) b ("throw " ++ t ++ ";").
Proof.
  intros He. unfold rendersOneLine. cbn [visitStatement].
  apply emitsLine_print_then; [reflexivity |].
  now apply emitsLine_println.
Qed.

Lemma lineSpells_text ind l t :
  lineSpells ind l t -> t <> "" ->
  lineText l = (_createIndent ind ++ t)%string.
Proof.
  intros [<- <-] Hne. apply lineText_nonempty.
  intros Hp. rewrite Hp in Hne. now apply Hne.
Qed.

Lemma lineSpells_texts ind elems texts :
  Forall2 (lineSpells ind) elems texts ->
  Forall (fun t => t <> "") texts ->
  map lineText elems = map (append (_createIndent ind)) texts.
Proof.
  induction 1 as [|l t elems texts Hl Hrest IH]; intros Hne;
    [reflexivity |].
  inversion Hne; subst. cbn [map]. f_equal.
  - now apply lineSpells_text.
  - now apply IH.
Qed.

(** X19.  An expression statement, a return and a throw, over an
    expression that renders on one line, make one line of the output:
    the expression and a semicolon, behind [return ] or [throw ] for the
    two others.  A list of statements that each make one line, rendered
    from a fresh context at indent [n], gives as source text these lines,
    each behind the indent for [n], joined by line feeds, with no line
    feed after the last. *)
Theorem X19_statement_lines (this : AbstractEmitterVisitor)
    (sp : option ParseSourceSpan) (e : Expression) (t : string) (b : bool)
    (stmts : list Statement) (texts : list string)
    (exportedVars : list string) (n : Z) :
  rendersInline this e b t ->
  rendersInline this e false t ->
  Forall2 (fun s ts => rendersOneLine this s true ts) stmts texts ->
  Forall (fun ts => ts <> "") texts ->
  rendersOneLine this (ExpressionStatement sp e) b (t ++ ";")
  /\ rendersOneLine this (ReturnStatement sp e) b ("return " ++ t ++ ";")
  /\ rendersOneLine this (ThrowStmt sp e) b ("throw " ++ t ++ ";")
  /\ exists ctx,
       exec (visitAllStatements this stmts) (newContext exportedVars n)
       = Ok ctx
       /\ toSource ctx
          = String.concat NL (map (append (_createIndent n)) texts).
Proof.
  intros He He' Hall Hne.
  split; [now apply rendersOneLine_expression |].
  split; [now apply rendersOneLine_return |].
  split; [now apply rendersOneLine_throw |].
  destruct (@forEach_lines Statement (visitStatement this) stmts texts Hall
              exportedVars [] n) as (elems & E & HF).
  eexists. split.
  - unfold exec, visitAllStatements.
    change (newContext exportedVars n)
      with (mkContext exportedVars ([] ++ [new_EmittedLine n]) n).
    rewrite E. reflexivity.
  - unfold toSource. cbn [app]. rewrite sourceLines_snoc.
    change (length (parts (new_EmittedLine n)) =? 0)%nat with true.
    cbv iota. apply (f_equal (String.concat NL)).
    now apply lineSpells_texts.
Qed.

Lemma X19_statement_lines_witness :
  exists ctx,
    exec (visitAllStatements Sample.emitter
            [Sample.returnVar "a"; Sample.returnVar "b"])
         (newContext [] 1) = Ok ctx
    /\ toSource ctx
       = String.concat NL
           (map (append (_createIndent 1)) ["return a;"; "return b;"]).
Proof.
  refine (proj2 (proj2 (proj2
    (@X19_statement_lines Sample.emitter None (Sample.var None "a") "a"
       true [Sample.returnVar "a"; Sample.returnVar "b"]
       ["return a;"; "return b;"] [] 1
       (@rendersInline_var _ _ _ _) (@rendersInline_var _ _ _ _) _ _)))).
  - constructor.
    + exact (@rendersOneLine_return Sample.emitter None
               (Sample.var None "a") "a" true (@rendersInline_var _ _ _ _)).
    + constructor; [| constructor].
      exact (@rendersOneLine_return Sample.emitter None
               (Sample.var None "b") "b" true (@rendersInline_var _ _ _ _)).
  - constructor; [discriminate |]. constructor; [discriminate |].
    constructor.
Defined.

(** ** Leaves, and the source text of what renders on one line *)

Lemma rendersInline_builtin this sp builtin name b :
  builtinVarName builtin = Ok name ->
  rendersInline this (ReadVarExpr sp (inr builtin)) b name.
Proof.
  intros Hname. unfold rendersInline. cbn [visitExpression].
  intros ev init cur Hcur.
  erewrite bind_ok by (unfold liftResult; rewrite Hname; reflexivity).
  exact (@emitsInline_print sp name b ev init cur Hcur).
Qed.

Lemma emitsInline_toSource m t ev :
  emitsInline m true t ->
  exists ctx, exec m (createRoot ev) = Ok ctx /\ toSource ctx = t.
Proof.
  intros Hm.
  destruct (Hm ev [] (new_EmittedLine 0) eq_refl) as (ps & ss & E & Ht).
  eexists. split.
  - unfold exec.
    change (createRoot ev) with (mkContext ev ([] ++ [new_EmittedLine 0]) 0).
    simpl indent in E. rewrite E. reflexivity.
  - unfold toSource. rewrite sourceLines_snoc. simpl parts. subst t.
    destruct ps as [|p ps]; [reflexivity |].
    cbn [app length Nat.eqb map]. unfold lineText. reflexivity.
Qed.

(** X20.  The leaves of a tree render on one line: a variable as its
    name, the four builtin variables as [this], [super], [error] and
    [stack], a literal string as its escaped body between single quotes,
    so without a line feed or a carriage return whatever it holds, and a
    literal of any other value as the text that [`${value}`] gives for
    it.  What renders on one line from a root context is the whole
    source text of that context. *)
Theorem X20_leaves (this : AbstractEmitterVisitor)
    (sp : option ParseSourceSpan) (name s text : string) (b : bool)
    (exportedVars : list string) :
  rendersInline this (ReadVarExpr sp (inl name)) b name
  /\ rendersInline this (ReadVarExpr sp (inr This)) b "this"
  /\ rendersInline this (ReadVarExpr sp (inr Super)) b "super"
  /\ rendersInline this (ReadVarExpr sp (inr CatchError)) b "error"
  /\ rendersInline this (ReadVarExpr sp (inr CatchStack)) b "stack"
  /\ rendersInline this (LiteralExpr sp (LitString s)) b
       ("'" ++ escapeBody s (_escapeDollarInStrings this) ++ "'")
  /\ rendersInline this (LiteralExpr sp (LitOther text)) b text
  /\ allChars (fun c => negb (isLineBreak c))
       ("'" ++ escapeBody s (_escapeDollarInStrings this) ++ "'") = true
  /\ (forall e t,
        rendersInline this e true t ->
        exists ctx,
          exec (visitExpression this e) (createRoot exportedVars) = Ok ctx
          /\ toSource ctx = t).
Proof.
  split; [apply rendersInline_var |].
  split; [now apply rendersInline_builtin |].
  split; [now apply rendersInline_builtin |].
  split; [now apply rendersInline_builtin |].
  split; [now apply rendersInline_builtin |].
  split; [exact (@rendersInline_literal this sp (LitString s) b) |].
  split; [exact (@rendersInline_literal this sp (LitOther text) b) |].
  split.
  - change ("'" ++ escapeBody s (_escapeDollarInStrings this) ++ "'")%string
      with (String "'" (escapeBody s (_escapeDollarInStrings this) ++ "'"))%string.
    cbn [allChars]. rewrite allChars_app, escapeBody_noLineBreak.
    reflexivity.
  - intros e t He. now apply emitsInline_toSource.
Qed.
